(** * Scrabble server: rules engine, game lifecycle, room registry, dictionary

    A shallow embedding of the TypeScript sources
    - [services/WordValidator.ts]   (module [Dictionary]),
    - [models/types.ts] and [config/constants.ts] (modules [Model], [Game]),
    - [services/GameService.ts]     (module [Game]),
    - [services/RoomStore.ts]       (module [Rooms]),
    - [ws/WebSocketServer.ts], for [handlePlayMove] (module [Server]),
    followed by the vocabulary of the specification (module [Spec]), a
    small game to run the definitions on (module [Examples]), the
    vocabulary for the invariants of a game in progress (module
    [Progress]) with the first rounds of a game dealt by [startNewGame]
    (module [Rounds]), and the properties that are stated about this code:
    those of the specification first, then the invariants of a game.

    Conventions of the embedding.
    - A JS [number] that holds an integer is a [Z]; array lengths and
      indices that are produced by the program itself are [nat].
    - A JS [string] is a [string] of 8-bit characters: the model covers
      the ASCII fragment, on which [toUpperCase], [toLowerCase] and [trim]
      are the functions defined below.
    - A function that mutates the room returns the room as it is when the
      call returns or throws; a thrown [Error] is the left summand of the
      result.  [await] on the word validator is a plain call: a move is
      processed to completion.
    - [Date.now()] and [Math.random()] are inputs of the functions that
      call them.
    - The [action] of a move is one of the three the type allows, and the
      coordinates of a placement are integers. *)

From Stdlib Require Import ZArith String Ascii List Bool Lia.
From stdpp Require Import base option list sorting numbers gmap strings pretty.

Local Open Scope Z_scope.

(** ** JavaScript string helpers (ASCII fragment) *)

Module Js.

Definition toUpperChar (c : ascii) : ascii :=
  let n := nat_of_ascii c in
  if ((97 <=? n) && (n <=? 122))%nat then ascii_of_nat (n - 32) else c.

Definition toLowerChar (c : ascii) : ascii :=
  let n := nat_of_ascii c in
  if ((65 <=? n) && (n <=? 90))%nat then ascii_of_nat (n + 32) else c.

Fixpoint mapString (f : ascii → ascii) (s : string) : string :=
  match s with
  | EmptyString => EmptyString
  | String c s' => String (f c) (mapString f s')
  end.

Definition toUpperCase : string → string := mapString toUpperChar.
Definition toLowerCase : string → string := mapString toLowerChar.

(** [s.includes(c)] for a one-character needle. *)
Fixpoint includesChar (c : ascii) (s : string) : bool :=
  match s with
  | EmptyString => false
  | String d s' => Ascii.eqb d c || includesChar c s'
  end.

(** [s.replace(/c/g, d)]: every occurrence of the character is replaced. *)
Definition replaceChar (c d : ascii) : string → string :=
  mapString (λ a, if Ascii.eqb a c then d else a).

Fixpoint trimStart (s : string) : string :=
  match s with
  | EmptyString => EmptyString
  | String c s' => if Ascii.is_space c then trimStart s' else s
  end.

Definition trim (s : string) : string :=
  String.rev (trimStart (String.rev (trimStart s))).

(** [s.split(/\r?\n/)]: [cur] is the current piece, reversed. *)
Fixpoint splitLines_go (cur : string) (s : string) : list string :=
  match s with
  | EmptyString => [String.rev cur]
  | String c s' =>
      if Ascii.eqb c "010" then String.rev cur :: splitLines_go EmptyString s'
      else if Ascii.eqb c "013" then
        match s' with
        | String d s'' =>
            if Ascii.eqb d "010"
            then String.rev cur :: splitLines_go EmptyString s''
            else splitLines_go (String c cur) s'
        | EmptyString => splitLines_go (String c cur) s'
        end
      else splitLines_go (String c cur) s'
  end.

Definition splitLines : string → list string := splitLines_go EmptyString.

(** [a || b] on strings: the empty string is falsy. *)
Definition orString (a b : string) : string :=
  match a with EmptyString => b | _ => a end.

(** The property keys that are array indices: the canonical decimal
    numerals of the integers from 0 to 2^32 - 2.  The own keys of an
    object are enumerated with these first, in ascending order. *)
Definition digit (c : ascii) : option N :=
  let n := N_of_ascii c in
  if ((48 <=? n) && (n <=? 57))%N then Some (n - 48)%N else None.

Fixpoint numeral (acc : N) (s : string) : option N :=
  match s with
  | EmptyString => Some acc
  | String c s' =>
      match digit c with
      | Some d => numeral (10 * acc + d)%N s'
      | None => None
      end
  end.

Definition arrayIndex (s : string) : option N :=
  match s with
  | EmptyString => None
  | String "0" EmptyString => Some 0%N
  | String "0" _ => None
  | _ =>
      match numeral 0 s with
      | Some n => if (n <? 4294967295)%N then Some n else None
      | None => None
      end
  end.

End Js.

(** ** The file dictionary: [WordValidatorFile] *)

Module Dictionary.

Import Js.

Record WordValidatorFile := {
  byLength : gmap nat (list string);
  ready : bool;
}.

(** The words the constructor keeps from the file's text. *)
Definition parseWords (raw : string) : list string :=
  map toUpperCase
    (List.filter (λ w, (0 <? String.length w)%nat) (map trim (splitLines raw))).

(** One iteration of [for (const w of words)]. *)
Definition indexWord (m : gmap nat (list string)) (w : string)
  : gmap nat (list string) :=
  let len := String.length w in
  let arr := default [] (m !! len) in
  <[len := arr ++ [w]]> m.

Definition buildIndex (words : list string) : gmap nat (list string) :=
  foldl indexWord ∅ words.

(** [new WordValidatorFile(filePath)]: [file] is what [readFileSync]
    returns, [None] when it throws. *)
Definition construct (file : option string) : WordValidatorFile :=
  match file with
  | Some raw => {| byLength := buildIndex (parseWords raw); ready := true |}
  | None => {| byLength := ∅; ready := false |}
  end.

(** The inner loop of the wildcard scan: every position of [W] that is
    not ['?'] must carry the same character in [v]; past the end of [v]
    the read [v[i]] is [undefined], which differs from every character. *)
Fixpoint wildMatch (W v : string) : bool :=
  match W with
  | EmptyString => true
  | String c W' =>
      match v with
      | String d v' => (Ascii.eqb c "?" || Ascii.eqb d c) && wildMatch W' v'
      | EmptyString => Ascii.eqb c "?" && wildMatch W' EmptyString
      end
  end.

Definition isWordValid (d : WordValidatorFile) (word : string) : bool :=
  if negb (ready d) then false
  else
    let W := toUpperCase word in
    match byLength d !! String.length W with
    | None => false
    | Some pool =>
        if negb (includesChar "?" W) then existsb (String.eqb W) pool
        else existsb (wildMatch W) pool
    end.

(** What a wildcard query asks of a word: the same character at every
    position of the query that is not ['?']. *)
Definition agreesOffWildcards (W v : string) : Prop :=
  ∀ i c, String.get i W = Some c → c ≠ "?"%char → String.get i v = Some c.

(** The stub validator accepts every word. *)
Definition stubIsWordValid (_ : string) : bool := true.

End Dictionary.

(** ** Data model: [models/types.ts] and [config/constants.ts] *)

Module Model.

Definition TURN_DURATION_MS : Z := 120000.
Definition MAX_CONSECUTIVE_PASSES : Z := 6.

Inductive Language := EN | FR.
Inductive BonusType := DL | TL | DW | TW.
Inductive RoomStatus := waiting | playing | finished.
Inductive Action := play | pass | exchange.

Record PlayerStats := {
  wordsPlayed : Z;
  bestWordScore : Z;
  bestWord : option string;
  totalTurns : Z;
  passes : Z;
}.

Record Tile := {
  t_id : string;
  t_letter : string;
  t_value : Z;
  t_isJoker : bool;
}.

(** [TileOnBoard extends Tile]: the tile's own fields are [tb_tile]. *)
Record TileOnBoard := {
  tb_tile : Tile;
  tb_fromPlayerId : string;
  tb_turnPlayed : Z;
}.

Record BoardCell := {
  c_x : Z;
  c_y : Z;
  c_bonus : option BonusType;
  c_tile : option TileOnBoard;
  c_bonusUsed : bool;
}.

(** [board[y][x]]: a list of rows. *)
Abbreviation Board := (list (list BoardCell)).

Record MovePlacement := {
  pl_x : Z;
  pl_y : Z;
  pl_tileId : string;
}.

Record MoveSummary := {
  ms_playerId : string;
  ms_action : Action;
  ms_words : list string;
  ms_score : Z;
  ms_placements : list MovePlacement;
  ms_turnNumber : Z;
  ms_createdAt : Z;
}.

Record Player := {
  p_id : string;
  p_nickname : string;
  p_connected : bool;
  p_ready : bool;
  p_score : Z;
  p_rack : list Tile;
  p_stats : PlayerStats;
  p_connectionId : option string;
}.

Record GameState := {
  g_board : Board;
  g_bag : list Tile;
  g_turnIndex : Z;
  g_activePlayerId : string;
  g_turnEndsAt : Z;
  g_turnDurationMs : Z;
  g_lastMove : option MoveSummary;
  g_log : list MoveSummary;
  g_consecutivePasses : Z;
  g_startedAt : Z;
  g_version : Z;
}.

Record Room := {
  r_id : string;
  r_hostId : string;
  r_status : RoomStatus;
  r_maxPlayers : Z;
  r_players : list Player;
  r_game : option GameState;
  r_lastActivityAt : Z;
}.

#[global] Instance BonusType_eq_dec : EqDecision BonusType.
Proof. solve_decision. Defined.
#[global] Instance RoomStatus_eq_dec : EqDecision RoomStatus.
Proof. solve_decision. Defined.
#[global] Instance Action_eq_dec : EqDecision Action.
Proof. solve_decision. Defined.
#[global] Instance Tile_eq_dec : EqDecision Tile.
Proof. solve_decision. Defined.
#[global] Instance MovePlacement_eq_dec : EqDecision MovePlacement.
Proof. solve_decision. Defined.

Definition initialStats : PlayerStats :=
  {| wordsPlayed := 0; bestWordScore := 0; bestWord := None;
     totalTurns := 0; passes := 0 |}.

(** Field updates of the mutable objects. *)
Definition withPasses (s : PlayerStats) (n : Z) : PlayerStats :=
  {| wordsPlayed := wordsPlayed s; bestWordScore := bestWordScore s;
     bestWord := bestWord s; totalTurns := totalTurns s; passes := n |}.

Definition withStats (p : Player) (s : PlayerStats) : Player :=
  {| p_id := p_id p; p_nickname := p_nickname p; p_connected := p_connected p;
     p_ready := p_ready p; p_score := p_score p; p_rack := p_rack p;
     p_stats := s; p_connectionId := p_connectionId p |}.

Definition withRack (p : Player) (rack : list Tile) : Player :=
  {| p_id := p_id p; p_nickname := p_nickname p; p_connected := p_connected p;
     p_ready := p_ready p; p_score := p_score p; p_rack := rack;
     p_stats := p_stats p; p_connectionId := p_connectionId p |}.

Definition withScore (p : Player) (score : Z) : Player :=
  {| p_id := p_id p; p_nickname := p_nickname p; p_connected := p_connected p;
     p_ready := p_ready p; p_score := score; p_rack := p_rack p;
     p_stats := p_stats p; p_connectionId := p_connectionId p |}.

Definition withPlayers (r : Room) (ps : list Player) : Room :=
  {| r_id := r_id r; r_hostId := r_hostId r; r_status := r_status r;
     r_maxPlayers := r_maxPlayers r; r_players := ps; r_game := r_game r;
     r_lastActivityAt := r_lastActivityAt r |}.

Definition withGame (r : Room) (g : option GameState) : Room :=
  {| r_id := r_id r; r_hostId := r_hostId r; r_status := r_status r;
     r_maxPlayers := r_maxPlayers r; r_players := r_players r; r_game := g;
     r_lastActivityAt := r_lastActivityAt r |}.

Definition withStatus (r : Room) (s : RoomStatus) : Room :=
  {| r_id := r_id r; r_hostId := r_hostId r; r_status := s;
     r_maxPlayers := r_maxPlayers r; r_players := r_players r;
     r_game := r_game r; r_lastActivityAt := r_lastActivityAt r |}.

Definition withLastActivityAt (r : Room) (t : Z) : Room :=
  {| r_id := r_id r; r_hostId := r_hostId r; r_status := r_status r;
     r_maxPlayers := r_maxPlayers r; r_players := r_players r;
     r_game := r_game r; r_lastActivityAt := t |}.

(** [arr[i]] for a JS number [i]: [undefined] outside the array. *)
Definition nthZ {A} (l : list A) (i : Z) : option A :=
  if 0 <=? i then l !! Z.to_nat i else None.

End Model.

(** ** The rules engine and the game lifecycle: [services/GameService.ts] *)

Module Game.

Import Js.
Export Model.

(** Errors thrown by [playMove].  [INVALID_WORD w] is the error built by
    [Object.assign(new Error('INVALID_WORD'), { reason: w })]; [TypeError]
    is the engine's error on a property read of [undefined]. *)
Inductive Error :=
  | NO_PLAYERS | NO_GAME | PLAYER_NOT_IN_ROOM | NOT_YOUR_TURN
  | NO_TILES_TO_EXCHANGE | BAG_TOO_SMALL | TILE_NOT_IN_RACK
  | NO_PLACEMENTS | OUT_OF_BOUNDS | CELL_OCCUPIED | DUPLICATE_TILE
  | NOT_ALIGNED | MUST_COVER_CENTER | NOT_CONTIGUOUS | NOT_CONNECTED
  | NO_WORD_FORMED | INVALID_WORD (reason : string) | TypeError.

Inductive Direction := row | col.

(** *** Board access.  Every read [board[y][x]] of the source is guarded by
    a bounds test, so on a board of 15 rows of 15 cells it never misses;
    outside, the accessors below answer as for a cell without tile. *)

Definition cellAt (board : Board) (x y : Z) : option BoardCell :=
  match nthZ board y with
  | Some r => nthZ r x
  | None => None
  end.

(** [board[y][x].tile] *)
Definition tileAt (board : Board) (x y : Z) : option TileOnBoard :=
  match cellAt board x y with
  | Some c => c_tile c
  | None => None
  end.

Definition hasTile (board : Board) (x y : Z) : bool :=
  match tileAt board x y with Some _ => true | None => false end.

(** *** Helpers *)

Definition swap {A} (arr : list A) (i j : nat) : list A :=
  match arr !! i, arr !! j with
  | Some a, Some b => <[j := a]> (<[i := b]> arr)
  | _, _ => arr
  end.

(** [shuffle]: the loop [for (i = arr.length - 1; i > 0; i--)]; the index
    [Math.floor(Math.random() * (i + 1))] drawn at step [i] is
    [rnd i mod (i + 1)], any index in [0..i]. *)
Fixpoint shuffle_go {A} (rnd : nat → nat) (i : nat) (arr : list A) : list A :=
  match i with
  | O => arr
  | S i' => shuffle_go rnd i' (swap arr i (rnd i mod (i + 1))%nat)
  end.

Definition shuffle {A} (rnd : nat → nat) (arr : list A) : list A :=
  shuffle_go rnd (length arr - 1)%nat arr.

(** [arr.pop()]: the last element and the rest. *)
Definition pop {A} (arr : list A) : option (A * list A) :=
  match reverse arr with
  | [] => None
  | a :: r => Some (a, reverse r)
  end.

(** [drawTiles(bag, n)] returns the drawn tiles and the bag left. *)
Fixpoint drawTiles (bag : list Tile) (n : nat) : list Tile * list Tile :=
  match n with
  | O => ([], bag)
  | S n' =>
      match pop bag with
      | None => ([], bag)
      | Some (t, bag') =>
          let '(out, bag'') := drawTiles bag' n' in (t :: out, bag'')
      end
  end.

Definition boardIsEmpty (board : Board) : bool :=
  forallb (forallb (λ c, match c_tile c with Some _ => false | None => true end))
    board.

(** *** Placement info: the [Map] keyed by ["x,y"] *)

Record Info := { i_value : Z; i_letter : string }.

Definition findTile (rack : list Tile) (tileId : string) : option Tile :=
  snd <$> list_find (λ t, t_id t = tileId) rack.

Definition findPlacement (placements : list MovePlacement) (x y : Z)
  : option MovePlacement :=
  snd <$> list_find (λ p, pl_x p = x ∧ pl_y p = y) placements.

(** [{ value: tile.value, letter: tile.letter || '' }] *)
Definition infoOf (tile : Tile) : Info :=
  {| i_value := t_value tile; i_letter := orString (t_letter tile) "" |}.

(** The loop that fills [placementInfo]; [rack.find(..)!] on a missing
    tile is a read on [undefined]. *)
Fixpoint buildPlacementInfo (rack : list Tile) (placements : list MovePlacement)
    (info : gmap (Z * Z) Info) : option (gmap (Z * Z) Info) :=
  match placements with
  | [] => Some info
  | pl :: rest =>
      match findTile rack (pl_tileId pl) with
      | None => None
      | Some tile =>
          buildPlacementInfo rack rest (<[(pl_x pl, pl_y pl) := infoOf tile]> info)
      end
  end.

Definition getPlacementLetterValue (info : gmap (Z * Z) Info) (x y : Z) : Z :=
  match info !! (x, y) with Some i => i_value i | None => 0 end.

(** [t.isJoker ? '?' : (t.letter || '')] *)
Definition boardLetter (t : TileOnBoard) : string :=
  if t_isJoker (tb_tile t) then "?" else orString (t_letter (tb_tile t)) "".

(** [(info?.letter ?? '') === '' ? '?' : (info?.letter || '#')] *)
Definition placedLetter (info : gmap (Z * Z) Info) (x y : Z) : string :=
  match info !! (x, y) with
  | None => "?"
  | Some i => if decide (i_letter i = "") then "?" else orString (i_letter i) "#"
  end.

Fixpoint joinStrings (l : list string) : string :=
  match l with
  | [] => ""
  | s :: r => s +:+ joinStrings r
  end.

(** *** Spans.  The row and the column branch of the source are the same
    text with the roles of [x] and [y] exchanged; [pos dir k f] is the
    cell at index [k] along a line of direction [dir] whose other
    coordinate is [f]. *)

Definition pos (dir : Direction) (k f : Z) : Z * Z :=
  match dir with row => (k, f) | col => (f, k) end.

Definition along (dir : Direction) (p : MovePlacement) : Z :=
  match dir with row => pl_x p | col => pl_y p end.

Definition across (dir : Direction) (p : MovePlacement) : Z :=
  match dir with row => pl_y p | col => pl_x p end.

(** [while (k - 1 >= 0 && occupied(k - 1)) k--] *)
Fixpoint expandDown (occupied : Z → bool) (fuel : nat) (k : Z) : Z :=
  match fuel with
  | O => k
  | S fuel' =>
      if (0 <=? k - 1) && occupied (k - 1)
      then expandDown occupied fuel' (k - 1) else k
  end.

(** [while (k + 1 < 15 && occupied(k + 1)) k++] *)
Fixpoint expandUp (occupied : Z → bool) (fuel : nat) (k : Z) : Z :=
  match fuel with
  | O => k
  | S fuel' =>
      if (k + 1 <? 15) && occupied (k + 1)
      then expandUp occupied fuel' (k + 1) else k
  end.

(** The two loops run at most [k], resp. [14 - k], times. *)
Definition lowEnd (occupied : Z → bool) (k : Z) : Z :=
  expandDown occupied (Z.to_nat k) k.
Definition highEnd (occupied : Z → bool) (k : Z) : Z :=
  expandUp occupied (Z.to_nat (14 - k)) k.

Definition hasTileOn (board : Board) (dir : Direction) (f k : Z) : bool :=
  let '(x, y) := pos dir k f in hasTile board x y.

(** The result of [buildMainWord]: [{x0, x1, y, ..}] for a row and
    [{y0, y1, x, ..}] for a column. *)
Record MainWord := {
  mw_lo : Z;
  mw_hi : Z;
  mw_fixed : Z;
  mw_word : string;
  mw_connected : bool;
  mw_contiguous : bool;
}.

(** [for (let k = lo; k <= hi; k++)] *)
Definition range (lo hi : Z) : list Z := seqZ lo (hi - lo + 1).

(** The first loop over the span: [(word, connected, contiguous)]. *)
Definition scanStep (board : Board) (placements : list MovePlacement)
    (info : gmap (Z * Z) Info) (dir : Direction) (f : Z)
    (st : string * bool * bool) (k : Z) : string * bool * bool :=
  let '(word, connected, contiguous) := st in
  let '(x, y) := pos dir k f in
  match tileAt board x y with
  | Some t => (word +:+ boardLetter t, true, contiguous)
  | None =>
      match findPlacement placements x y with
      | Some _ => (word +:+ placedLetter info x y, connected, contiguous)
      | None => (word +:+ ".", connected, false)
      end
  end.

(** The adjacency test on one placement of the second loop. *)
Definition adjacentToTile (board : Board) (dir : Direction) (f : Z)
    (p : MovePlacement) : bool :=
  match dir with
  | row =>
      let y := f in
      ((0 <? pl_x p) && hasTile board (pl_x p - 1) y)
      || ((pl_x p <? 14) && hasTile board (pl_x p + 1) y)
      || ((0 <? y) && hasTile board (pl_x p) (y - 1))
      || ((y <? 14) && hasTile board (pl_x p) (y + 1))
  | col =>
      let x := f in
      ((0 <? x) && hasTile board (x - 1) (pl_y p))
      || ((x <? 14) && hasTile board (x + 1) (pl_y p))
      || ((0 <? pl_y p) && hasTile board x (pl_y p - 1))
      || ((pl_y p <? 14) && hasTile board x (pl_y p + 1))
  end.

(** The text of the word: the second loop over the span. *)
Definition spanLetter (board : Board) (placements : list MovePlacement)
    (info : gmap (Z * Z) Info) (dir : Direction) (f k : Z) : string :=
  let '(x, y) := pos dir k f in
  match tileAt board x y with
  | Some t => boardLetter t
  | None =>
      match findPlacement placements x y with
      | Some _ => placedLetter info x y
      | None => ""
      end
  end.

Definition buildMainWord (board : Board) (placements : list MovePlacement)
    (info : gmap (Z * Z) Info) (dir : Direction) : MainWord :=
  let f := from_option (across dir) 0 (head placements) in
  let ks := merge_sort Z.le (map (along dir) placements) in
  let k0 := default 0 (head ks) in
  let k1 := default 0 (last ks) in
  let lo := lowEnd (hasTileOn board dir f) k0 in
  let hi := highEnd (hasTileOn board dir f) k1 in
  let '(word, connected, contiguous) :=
    foldl (scanStep board placements info dir f) ("", false, true) (range lo hi) in
  let contiguous := if includesChar "." word then false else contiguous in
  let connected :=
    if connected then true else existsb (adjacentToTile board dir f) placements in
  {| mw_lo := lo; mw_hi := hi; mw_fixed := f;
     mw_word := joinStrings (map (spanLetter board placements info dir f) (range lo hi));
     mw_connected := connected; mw_contiguous := contiguous |}.

(** [buildCrossWords]: one entry per placement whose perpendicular span
    has at least two cells. *)
Record CrossWord := {
  cw_word : string;
  cw_x0 : Z;
  cw_x1 : Z;
  cw_y0 : Z;
  cw_y1 : Z;
  cw_anchor : Z * Z;
}.

Definition perp (dir : Direction) : Direction :=
  match dir with row => col | col => row end.

Definition crossLetter (board : Board) (info : gmap (Z * Z) Info)
    (dir : Direction) (p : MovePlacement) (j : Z) : string :=
  let '(x, y) := pos (perp dir) j (along dir p) in
  match tileAt board x y with
  | Some t => boardLetter t
  | None => if decide (j = across dir p) then placedLetter info x y else ""
  end.

Definition crossWordAt (board : Board) (info : gmap (Z * Z) Info)
    (dir : Direction) (p : MovePlacement) : list CrossWord :=
  let occupied := hasTileOn board (perp dir) (along dir p) in
  let lo := lowEnd occupied (across dir p) in
  let hi := highEnd occupied (across dir p) in
  if 1 <=? hi - lo then
    let word := joinStrings (map (crossLetter board info dir p) (range lo hi)) in
    match dir with
    | row => [ {| cw_word := word; cw_x0 := pl_x p; cw_x1 := pl_x p;
                  cw_y0 := lo; cw_y1 := hi; cw_anchor := (pl_x p, pl_y p) |} ]
    | col => [ {| cw_word := word; cw_x0 := lo; cw_x1 := hi;
                  cw_y0 := pl_y p; cw_y1 := pl_y p; cw_anchor := (pl_x p, pl_y p) |} ]
    end
  else [].

Definition buildCrossWords (board : Board) (placements : list MovePlacement)
    (info : gmap (Z * Z) Info) (dir : Direction) : list CrossWord :=
  flat_map (crossWordAt board info dir) placements.

(** *** Scoring *)

Definition letterAndWordMultipliers (cell : BoardCell) : Z * Z :=
  match c_bonus cell with
  | None => (1, 1)
  | Some b =>
      if c_bonusUsed cell then (1, 1)
      else match b with
           | DL => (2, 1)
           | TL => (3, 1)
           | DW => (1, 2)
           | TW => (1, 3)
           end
  end.

(** The multipliers of [board[y][x]]. *)
Definition multipliersAt (board : Board) (x y : Z) : Z * Z :=
  match cellAt board x y with
  | Some cell => letterAndWordMultipliers cell
  | None => (1, 1)
  end.

(** [cell.tile?.value || 0] *)
Definition tileValueAt (board : Board) (x y : Z) : Z :=
  match tileAt board x y with
  | Some t => t_value (tb_tile t)
  | None => 0
  end.

(** The body shared by the four scoring loops; the state is
    [(score, wordMultiplier)]. *)
Definition scoreStep (board : Board) (placements : list MovePlacement)
    (info : gmap (Z * Z) Info) (st : Z * Z) (xy : Z * Z) : Z * Z :=
  let '(score, wordMultiplier) := st in
  let '(x, y) := xy in
  match findPlacement placements x y with
  | Some _ =>
      let letterVal := getPlacementLetterValue info x y in
      let '(letterMul, wordMul) := multipliersAt board x y in
      (score + letterVal * letterMul, wordMultiplier * wordMul)
  | None =>
      let letterVal := tileValueAt board x y in
      (score + letterVal, wordMultiplier)
  end.

Definition scoreCells (board : Board) (placements : list MovePlacement)
    (info : gmap (Z * Z) Info) (cells : list (Z * Z)) : Z :=
  let '(score, wordMultiplier) :=
    foldl (scoreStep board placements info) (0, 1) cells in
  score * wordMultiplier.

Definition spanCells (dir : Direction) (lo hi f : Z) : list (Z * Z) :=
  map (λ k, pos dir k f) (range lo hi).

Definition scoreWord (board : Board) (placements : list MovePlacement)
    (info : gmap (Z * Z) Info) (dir : Direction) (span : MainWord) : Z :=
  scoreCells board placements info
    (spanCells dir (mw_lo span) (mw_hi span) (mw_fixed span)).

Definition crossCells (cw : CrossWord) : list (Z * Z) :=
  if decide (cw_x0 cw = cw_x1 cw)
  then spanCells col (cw_y0 cw) (cw_y1 cw) (cw_x0 cw)
  else spanCells row (cw_x0 cw) (cw_x1 cw) (cw_y0 cw).

Definition scoreCrossWord (board : Board) (placements : list MovePlacement)
    (info : gmap (Z * Z) Info) (cw : CrossWord) : Z :=
  scoreCells board placements info (crossCells cw).

(** *** Validation of a play: lines 100-160 of [playMove], which only read
    the room. *)

Fixpoint checkCells (board : Board) (placements : list MovePlacement)
  : option Error :=
  match placements with
  | [] => None
  | pl :: rest =>
      if (pl_x pl <? 0) || (15 <=? pl_x pl) || (pl_y pl <? 0) || (15 <=? pl_y pl)
      then Some OUT_OF_BOUNDS
      else if hasTile board (pl_x pl) (pl_y pl) then Some CELL_OCCUPIED
      else checkCells board rest
  end.

Fixpoint checkTiles (rackIds used : gset string) (placements : list MovePlacement)
  : Error + gset string :=
  match placements with
  | [] => inr used
  | pl :: rest =>
      if negb (bool_decide (pl_tileId pl ∈ rackIds)) then inl TILE_NOT_IN_RACK
      else if bool_decide (pl_tileId pl ∈ used) then inl DUPLICATE_TILE
      else checkTiles rackIds ({[pl_tileId pl]} ∪ used) rest
  end.

Definition rackIdSet (rack : list Tile) : gset string :=
  list_to_set (map t_id rack).

(** [placementsList.every((p) => p.y === placementsList[0].y)] *)
Definition sameRow (placements : list MovePlacement) : bool :=
  match head placements with
  | Some p0 => forallb (λ p, pl_y p =? pl_y p0) placements
  | None => true
  end.

Definition sameCol (placements : list MovePlacement) : bool :=
  match head placements with
  | Some p0 => forallb (λ p, pl_x p =? pl_x p0) placements
  | None => true
  end.

Definition coversCenter (placements : list MovePlacement) : bool :=
  existsb (λ p, (pl_x p =? 7) && (pl_y p =? 7)) placements.

(** [w.replace(/#/g, '?').toUpperCase()] *)
Definition normalizeWord (w : string) : string :=
  toUpperCase (replaceChar "#" "?" w).

Record PlayPlan := {
  pp_used : gset string;
  pp_direction : Direction;
  pp_info : gmap (Z * Z) Info;
  pp_main : MainWord;
  pp_cross : list CrossWord;
  pp_allWords : list string;
  pp_total : Z;
}.

Definition bingoBonus (placements : list MovePlacement) : Z :=
  if decide (length placements = 7%nat) then 50 else 0.

Definition validatePlay (isWordValid : string → bool) (game : GameState)
    (player : Player) (placementsList : list MovePlacement) : Error + PlayPlan :=
  if decide (length placementsList = 0%nat) then inl NO_PLACEMENTS else
  match checkCells (g_board game) placementsList with
  | Some e => inl e
  | None =>
  match checkTiles (rackIdSet (p_rack player)) ∅ placementsList with
  | inl e => inl e
  | inr used =>
  if negb (sameRow placementsList) && negb (sameCol placementsList)
  then inl NOT_ALIGNED else
  let firstMove := boardIsEmpty (g_board game) in
  if firstMove && negb (coversCenter placementsList)
  then inl MUST_COVER_CENTER else
  match buildPlacementInfo (p_rack player) placementsList ∅ with
  | None => inl TypeError
  | Some placementInfo =>
  let direction := if sameRow placementsList then row else col in
  let main := buildMainWord (g_board game) placementsList placementInfo direction in
  if negb (mw_contiguous main) then inl NOT_CONTIGUOUS else
  if negb firstMove && negb (mw_connected main) then inl NOT_CONNECTED else
  let cross := buildCrossWords (g_board game) placementsList placementInfo direction in
  let allWords :=
    List.filter (λ w, (1 <? String.length w)%nat) (mw_word main :: map cw_word cross) in
  if decide (length allWords = 0%nat) then inl NO_WORD_FORMED else
  match list_find (λ w, isWordValid (normalizeWord w) = false) allWords with
  | Some (_, w) => inl (INVALID_WORD w)
  | None =>
  let mainScore :=
    scoreWord (g_board game) placementsList placementInfo direction main in
  let total :=
    foldl (λ total cw,
             total + scoreCrossWord (g_board game) placementsList placementInfo cw)
      mainScore cross in
  let total := total + bingoBonus placementsList in
  inr {| pp_used := used; pp_direction := direction; pp_info := placementInfo;
         pp_main := main; pp_cross := cross; pp_allWords := allWords;
         pp_total := total |}
  end end end end.

(** *** The lifecycle: [advanceTurn], [checkAndFinalizeIfEnded], [playMove].
    These mutate the room: they return the room as it is when the call
    returns or throws, next to the result or the error. *)

Definition Outcome (A : Type) : Type := Room * (Error + A).

Definition buildMoveSummary (createdAt : Z) (action : Action) (playerId : string)
    (placements : list MovePlacement) (score : Z) (game : GameState)
    (words : list string) : MoveSummary :=
  {| ms_playerId := playerId; ms_action := action; ms_words := words;
     ms_score := score; ms_placements := placements;
     ms_turnNumber := g_version game + 1; ms_createdAt := createdAt |}.

Definition withTurnIndex (g : GameState) (i : Z) : GameState :=
  {| g_board := g_board g; g_bag := g_bag g; g_turnIndex := i;
     g_activePlayerId := g_activePlayerId g; g_turnEndsAt := g_turnEndsAt g;
     g_turnDurationMs := g_turnDurationMs g; g_lastMove := g_lastMove g;
     g_log := g_log g; g_consecutivePasses := g_consecutivePasses g;
     g_startedAt := g_startedAt g; g_version := g_version g |}.

(** The game once [advanceTurn] has run: the turn is at index [turnIndex],
    where player [p] sits. *)
Definition turnPassedTo (g : GameState) (turnIndex : Z) (p : Player) (now : Z)
  : GameState :=
  {| g_board := g_board g; g_bag := g_bag g;
     g_turnIndex := turnIndex;
     g_activePlayerId := p_id p;
     g_turnEndsAt := now + g_turnDurationMs g;
     g_turnDurationMs := g_turnDurationMs g;
     g_lastMove := g_lastMove g; g_log := g_log g;
     g_consecutivePasses := g_consecutivePasses g;
     g_startedAt := g_startedAt g;
     g_version := g_version g + 1 |}.

(** [advanceTurn]; [now] is [Date.now()].  The read [players[turnIndex].id]
    throws when there is no such player, after [turnIndex] was written.
    (On an empty player list the source computes [NaN] and throws there
    too; [playMove] calls it with at least one player.) *)
Definition advanceTurn (now : Z) (room : Room) : Outcome unit :=
  match r_game room with
  | None => (room, inl TypeError)
  | Some game =>
      let turnIndex :=
        Z.rem (g_turnIndex game + 1) (Z.of_nat (length (r_players room))) in
      match nthZ (r_players room) turnIndex with
      | None => (withGame room (Some (withTurnIndex game turnIndex)), inl TypeError)
      | Some p => (withGame room (Some (turnPassedTo game turnIndex p now)), inr ())
      end
  end.

(** [p.rack.reduce((acc, t) => acc + t.value, 0)] *)
Definition rackValue (p : Player) : Z :=
  foldl (λ acc t, acc + t_value t) 0 (p_rack p).

Definition hasEmptyRack (p : Player) : Prop := length (p_rack p) = 0%nat.

#[global] Instance hasEmptyRack_dec p : Decision (hasEmptyRack p).
Proof. unfold hasEmptyRack. apply _. Defined.

(** The finisher is an object of the player array, compared by identity:
    here its index. *)
Definition finisherIndex (players : list Player) : option nat :=
  fst <$> list_find hasEmptyRack players.

(** [sumOthers] after the loop over the players. *)
Definition sumOthers (players : list Player) : Z :=
  foldl Z.add 0
    (imap (λ i p, if decide (finisherIndex players = Some i) then 0 else rackValue p)
       players).

Definition finalScores (players : list Player) : list Player :=
  let penalised := map (λ p, withScore p (p_score p - rackValue p)) players in
  match finisherIndex players with
  | Some i => alter (λ p, withScore p (p_score p + sumOthers players)) i penalised
  | None => penalised
  end.

Definition gameHasEnded (players : list Player) (game : GameState) : bool :=
  (bool_decide (length (g_bag game) = 0%nat)
     && bool_decide (Exists hasEmptyRack players))
  || (MAX_CONSECUTIVE_PASSES <=? g_consecutivePasses game).

Definition checkAndFinalizeIfEnded (room : Room) : Outcome bool :=
  match r_game room with
  | None => (room, inl TypeError)
  | Some game =>
      if gameHasEnded (r_players room) game
      then (withStatus (withPlayers room (finalScores (r_players room))) finished,
            inr true)
      else (room, inr false)
  end.

(** The tail shared by the three actions: [advanceTurn], then
    [checkAndFinalizeIfEnded]. *)
Definition finishMove (tTurn : Z) (move : MoveSummary) (room : Room)
  : Outcome (MoveSummary * bool) :=
  match advanceTurn tTurn room with
  | (room', inl e) => (room', inl e)
  | (room', inr _) =>
      match checkAndFinalizeIfEnded room' with
      | (room'', inl e) => (room'', inl e)
      | (room'', inr ended) => (room'', inr (move, ended))
      end
  end.

(** The state of the game after a non-scoring action or a play is logged. *)
Definition logMove (g : GameState) (board : Board) (bag : list Tile)
    (consecutivePasses : Z) (move : MoveSummary) : GameState :=
  {| g_board := board; g_bag := bag; g_turnIndex := g_turnIndex g;
     g_activePlayerId := g_activePlayerId g; g_turnEndsAt := g_turnEndsAt g;
     g_turnDurationMs := g_turnDurationMs g; g_lastMove := Some move;
     g_log := g_log g ++ [move]; g_consecutivePasses := consecutivePasses;
     g_startedAt := g_startedAt g; g_version := g_version g |}.

Definition withBoard (g : GameState) (board : Board) : GameState :=
  {| g_board := board; g_bag := g_bag g; g_turnIndex := g_turnIndex g;
     g_activePlayerId := g_activePlayerId g; g_turnEndsAt := g_turnEndsAt g;
     g_turnDurationMs := g_turnDurationMs g; g_lastMove := g_lastMove g;
     g_log := g_log g; g_consecutivePasses := g_consecutivePasses g;
     g_startedAt := g_startedAt g; g_version := g_version g |}.

Definition incrPasses (p : Player) : Player :=
  withStats p (withPasses (p_stats p) (passes (p_stats p) + 1)).

(** The cell written by one iteration of the commit loop. *)
Definition placeOn (cell : BoardCell) (tile : Tile) (playerId : string)
    (turnNumber : Z) : BoardCell :=
  {| c_x := c_x cell; c_y := c_y cell; c_bonus := c_bonus cell;
     c_tile := Some {| tb_tile := tile; tb_fromPlayerId := playerId;
                       tb_turnPlayed := turnNumber |};
     c_bonusUsed := match c_bonus cell with
                    | Some _ => true
                    | None => c_bonusUsed cell
                    end |}.

Definition setCell (board : Board) (x y : Z) (cell : BoardCell) : Board :=
  alter (λ r, <[Z.to_nat x := cell]> r) (Z.to_nat y) board.

(** The commit loop: the board it leaves, and whether it threw on a
    missing tile or cell. *)
Fixpoint placeTiles (rack : list Tile) (playerId : string) (turnNumber : Z)
    (placements : list MovePlacement) (board : Board) : Board * option Error :=
  match placements with
  | [] => (board, None)
  | pl :: rest =>
      match findTile rack (pl_tileId pl), cellAt board (pl_x pl) (pl_y pl) with
      | Some tile, Some cell =>
          placeTiles rack playerId turnNumber rest
            (setCell board (pl_x pl) (pl_y pl) (placeOn cell tile playerId turnNumber))
      | _, _ => (board, Some TypeError)
      end
  end.

(** The player after a play worth [total]. *)
Definition afterPlay (player : Player) (rack : list Tile) (total : Z)
    (mainWord : string) : Player :=
  let st := p_stats player in
  let best := bool_decide (bestWordScore st < total) in
  {| p_id := p_id player; p_nickname := p_nickname player;
     p_connected := p_connected player; p_ready := p_ready player;
     p_score := p_score player + total;
     p_rack := rack;
     p_stats :=
       {| wordsPlayed := wordsPlayed st + 1;
          bestWordScore := if best then total else bestWordScore st;
          bestWord := if best then Some mainWord else bestWord st;
          totalTurns := totalTurns st + 1;
          passes := passes st |};
     p_connectionId := p_connectionId player |}.

Section PlayMove.

(** The injected [WordValidator]. *)
Variable isWordValid : string → bool.

(** [tMove] and [tTurn] are the two readings of [Date.now()] (in
    [buildMoveSummary] and in [advanceTurn]); [rnd] feeds [shuffle]. *)
Variables (tMove tTurn : Z) (rnd : nat → nat).

Definition playMove (room : Room) (playerId : string) (action : Action)
    (placements : option (list MovePlacement))
    (tileIdsToExchange : option (list string)) : Outcome (MoveSummary * bool) :=
  match r_game room with
  | None => (room, inl NO_GAME)
  | Some game =>
  match list_find (λ p, p_id p = playerId) (r_players room) with
  | None => (room, inl PLAYER_NOT_IN_ROOM)
  | Some (playerIdx, player) =>
  if negb (bool_decide (g_activePlayerId game = playerId))
  then (room, inl NOT_YOUR_TURN) else
  match action with
  | pass =>
      let move := buildMoveSummary tMove pass playerId [] 0 game [] in
      let game' :=
        logMove game (g_board game) (g_bag game) (g_consecutivePasses game + 1) move in
      finishMove tTurn move
        (withGame (withPlayers room (<[playerIdx := incrPasses player]> (r_players room)))
           (Some game'))
  | exchange =>
      let ids := default [] tileIdsToExchange in
      if decide (length ids = 0%nat) then (room, inl NO_TILES_TO_EXCHANGE) else
      if decide (length (g_bag game) < length ids)%nat
      then (room, inl BAG_TOO_SMALL) else
      let own := rackIdSet (p_rack player) in
      if negb (forallb (λ i, bool_decide (i ∈ own)) ids)
      then (room, inl TILE_NOT_IN_RACK) else
      let toReturn := filter (λ t, t_id t ∈ ids) (p_rack player) in
      let kept := filter (λ t, t_id t ∉ ids) (p_rack player) in
      let bag := shuffle rnd (g_bag game ++ toReturn) in
      let '(drawn, bag') := drawTiles bag (length ids) in
      let player' := incrPasses (withRack player (kept ++ drawn)) in
      let move := buildMoveSummary tMove exchange playerId [] 0 game [] in
      let game' :=
        logMove game (g_board game) bag' (g_consecutivePasses game + 1) move in
      finishMove tTurn move
        (withGame (withPlayers room (<[playerIdx := player']> (r_players room)))
           (Some game'))
  | play =>
      let placementsList := default [] placements in
      match validatePlay isWordValid game player placementsList with
      | inl e => (room, inl e)
      | inr plan =>
          let total := pp_total plan in
          let turnNumber := g_version game + 1 in
          match placeTiles (p_rack player) playerId turnNumber placementsList
                  (g_board game) with
          | (board', Some e) => (withGame room (Some (withBoard game board')), inl e)
          | (board', None) =>
              let kept := filter (λ t, t_id t ∉ pp_used plan) (p_rack player) in
              let '(drawn, bag') :=
                drawTiles (g_bag game)
                  (Z.to_nat (Z.min (7 - Z.of_nat (length kept))
                               (Z.of_nat (length (g_bag game))))) in
              let player' :=
                afterPlay player (kept ++ drawn) total (mw_word (pp_main plan)) in
              let move :=
                buildMoveSummary tMove play playerId placementsList total game
                  (pp_allWords plan) in
              let game' := logMove game board' bag' 0 move in
              finishMove tTurn move
                (withGame (withPlayers room (<[playerIdx := player']> (r_players room)))
                   (Some game'))
          end
      end
  end end end.

(** The room handed to [finishMove] by a move that went through. *)
Definition applied (room : Room) (idx : nat) (player' : Player) (g' : GameState)
  : Room :=
  withGame (withPlayers room (<[idx := player']> (r_players room))) (Some g').

(** The three ways in which [playMove] reaches [finishMove]: the move it
    logs and the room it hands over. *)
Inductive Applies (room : Room) (pid : string) (g : GameState) (idx : nat)
    (player : Player) : Action → option (list MovePlacement) → option (list string) →
    MoveSummary → Room → Prop :=
  | applies_pass pls ids :
      Applies room pid g idx player pass pls ids
        (buildMoveSummary tMove pass pid [] 0 g [])
        (applied room idx (incrPasses player)
           (logMove g (g_board g) (g_bag g) (g_consecutivePasses g + 1)
              (buildMoveSummary tMove pass pid [] 0 g [])))
  | applies_exchange pls ids drawn bag' :
      length (default [] ids) ≠ 0%nat →
      (length (default [] ids) ≤ length (g_bag g))%nat →
      (∀ i, i ∈ default [] ids → i ∈ map t_id (p_rack player)) →
      drawTiles
        (shuffle rnd (g_bag g ++ filter (λ t, t_id t ∈ default [] ids) (p_rack player)))
        (length (default [] ids)) = (drawn, bag') →
      Applies room pid g idx player exchange pls ids
        (buildMoveSummary tMove exchange pid [] 0 g [])
        (applied room idx
           (incrPasses
              (withRack player
                 (filter (λ t, t_id t ∉ default [] ids) (p_rack player) ++ drawn)))
           (logMove g (g_board g) bag' (g_consecutivePasses g + 1)
              (buildMoveSummary tMove exchange pid [] 0 g [])))
  | applies_play pls ids plan board' drawn bag' :
      validatePlay isWordValid g player (default [] pls) = inr plan →
      placeTiles (p_rack player) pid (g_version g + 1) (default [] pls) (g_board g)
        = (board', None) →
      drawTiles (g_bag g)
        (Z.to_nat
           (Z.min
              (7 - Z.of_nat (length (filter (λ t, t_id t ∉ pp_used plan) (p_rack player))))
              (Z.of_nat (length (g_bag g))))) = (drawn, bag') →
      Applies room pid g idx player play pls ids
        (buildMoveSummary tMove play pid (default [] pls) (pp_total plan) g
           (pp_allWords plan))
        (applied room idx
           (afterPlay player
              (filter (λ t, t_id t ∉ pp_used plan) (p_rack player) ++ drawn)
              (pp_total plan) (mw_word (pp_main plan)))
           (logMove g board' bag' 0
              (buildMoveSummary tMove play pid (default [] pls) (pp_total plan) g
                 (pp_allWords plan)))).

End PlayMove.

(** *** A sequence of submissions to one room: what the coordinator and the
    turn timer do over time.  Every request carries the readings of the
    clock and of the random source made while it is processed. *)

Record MoveRequest := {
  mr_playerId : string;
  mr_action : Action;
  mr_placements : option (list MovePlacement);
  mr_tileIdsToExchange : option (list string);
  mr_tMove : Z;
  mr_tTurn : Z;
  mr_rnd : nat → nat;
}.

Definition submit (isWordValid : string → bool) (room : Room) (rq : MoveRequest)
  : Outcome (MoveSummary * bool) :=
  playMove isWordValid (mr_tMove rq) (mr_tTurn rq) (mr_rnd rq) room
    (mr_playerId rq) (mr_action rq) (mr_placements rq) (mr_tileIdsToExchange rq).

Definition succeeded {A} (o : Outcome A) : bool :=
  match snd o with inr _ => true | inl _ => false end.

(** The room after the requests, and how many of them were accepted. *)
Fixpoint runMoves (isWordValid : string → bool) (room : Room)
    (reqs : list MoveRequest) : Room * nat :=
  match reqs with
  | [] => (room, O)
  | rq :: rest =>
      let o := submit isWordValid room rq in
      let '(room', n) := runMoves isWordValid (fst o) rest in
      (room', ((if succeeded o then 1 else 0) + n)%nat)
  end.

(** *** [startNewGame] and the constants it reads *)

Definition generateBonusLayout : list (Z * Z * BonusType) :=
  map (λ xy, (xy, TW))
    [(0,0); (0,7); (0,14); (7,0); (7,14); (14,0); (14,7); (14,14)]
  ++ map (λ xy, (xy, DW))
    [(1,1); (2,2); (3,3); (4,4); (10,10); (11,11); (12,12); (13,13);
     (1,13); (2,12); (3,11); (4,10); (10,4); (11,3); (12,2); (13,1);
     (7,7)]
  ++ map (λ xy, (xy, TL))
    [(1,5); (1,9); (5,1); (5,5); (5,9); (5,13);
     (9,1); (9,5); (9,9); (9,13); (13,5); (13,9)]
  ++ map (λ xy, (xy, DL))
    [(0,3); (0,11); (2,6); (2,8); (3,0); (3,7); (3,14);
     (6,2); (6,6); (6,8); (6,12); (7,3); (7,11);
     (8,2); (8,6); (8,8); (8,12); (11,0); (11,7); (11,14);
     (12,6); (12,8); (14,3); (14,11)].

Record LetterDef := {
  ld_letter : string;
  ld_count : nat;
  ld_value : Z;
  ld_isJoker : bool;
}.

Definition letterDef (l : string) (c : nat) (v : Z) : LetterDef :=
  {| ld_letter := l; ld_count := c; ld_value := v; ld_isJoker := false |}.

Definition jokerDef : LetterDef :=
  {| ld_letter := ""; ld_count := 2; ld_value := 0; ld_isJoker := true |}.

Definition getLetterDistribution (lang : Language) : list LetterDef :=
  match lang with
  | FR =>
      [ letterDef "A" 9 1; letterDef "B" 2 3; letterDef "C" 2 3;
        letterDef "D" 3 2; letterDef "E" 15 1; letterDef "F" 2 4;
        letterDef "G" 2 2; letterDef "H" 2 4; letterDef "I" 8 1;
        letterDef "J" 1 8; letterDef "K" 1 10; letterDef "L" 5 1;
        letterDef "M" 3 2; letterDef "N" 6 1; letterDef "O" 6 1;
        letterDef "P" 2 3; letterDef "Q" 1 8; letterDef "R" 6 1;
        letterDef "S" 6 1; letterDef "T" 6 1; letterDef "U" 6 1;
        letterDef "V" 2 4; letterDef "W" 1 10; letterDef "X" 1 10;
        letterDef "Y" 1 10; letterDef "Z" 1 10; jokerDef ]
  | EN =>
      [ letterDef "A" 9 1; letterDef "B" 2 3; letterDef "C" 2 3;
        letterDef "D" 4 2; letterDef "E" 12 1; letterDef "F" 2 4;
        letterDef "G" 3 2; letterDef "H" 2 4; letterDef "I" 9 1;
        letterDef "J" 1 8; letterDef "K" 1 5; letterDef "L" 4 1;
        letterDef "M" 2 3; letterDef "N" 6 1; letterDef "O" 8 1;
        letterDef "P" 2 3; letterDef "Q" 1 10; letterDef "R" 6 1;
        letterDef "S" 4 1; letterDef "T" 6 1; letterDef "U" 4 1;
        letterDef "V" 2 4; letterDef "W" 2 4; letterDef "X" 1 8;
        letterDef "Y" 2 4; letterDef "Z" 1 10; jokerDef ]
  end.

Definition blankCell (x y : Z) : BoardCell :=
  {| c_x := x; c_y := y; c_bonus := None; c_tile := None; c_bonusUsed := false |}.

Definition withBonus (cell : BoardCell) (b : BonusType) : BoardCell :=
  {| c_x := c_x cell; c_y := c_y cell; c_bonus := Some b;
     c_tile := c_tile cell; c_bonusUsed := c_bonusUsed cell |}.

Definition unpaintedBoard : Board :=
  map (λ y, map (λ x, blankCell x y) (seqZ 0 15)) (seqZ 0 15).

(** [board[b.y][b.x].bonus = b.bonus] *)
Definition paint (board : Board) (b : Z * Z * BonusType) : Board :=
  let '(x, y, bonus) := b in
  alter (alter (λ c, withBonus c bonus) (Z.to_nat x)) (Z.to_nat y) board.

Definition initialBoard : Board := foldl paint unpaintedBoard generateBonusLayout.

(** The tiles of one letter; [ids k] is the result of the [k]-th call of
    [tileId()]. *)
Definition tilesOf (ids : nat → string) (start : nat) (def : LetterDef) : list Tile :=
  map (λ k, {| t_id := ids k; t_letter := ld_letter def;
               t_value := ld_value def; t_isJoker := ld_isJoker def |})
    (seq start (ld_count def)).

Fixpoint buildBag (ids : nat → string) (start : nat) (defs : list LetterDef)
  : list Tile :=
  match defs with
  | [] => []
  | def :: rest =>
      tilesOf ids start def ++ buildBag ids (start + ld_count def)%nat rest
  end.

(** The first loop: every player is reset. *)
Definition resetPlayer (p : Player) : Player :=
  {| p_id := p_id p; p_nickname := p_nickname p; p_connected := p_connected p;
     p_ready := false; p_score := 0; p_rack := []; p_stats := initialStats;
     p_connectionId := p_connectionId p |}.

(** The last loop: [p.rack = drawTiles(bag, 7)] for each player in turn. *)
Fixpoint dealRacks (players : list Player) (bag : list Tile)
  : list Player * list Tile :=
  match players with
  | [] => ([], bag)
  | p :: rest =>
      let '(rack, bag') := drawTiles bag 7 in
      let '(rest', bag'') := dealRacks rest bag' in
      (withRack p rack :: rest', bag'')
  end.

Definition startNewGame (lang : Language) (ids : nat → string) (rnd : nat → nat)
    (now : Z) (room : Room) : Outcome unit :=
  match r_players room with
  | [] => (room, inl NO_PLAYERS)
  | p0 :: _ =>
      let bag := shuffle rnd (buildBag ids 0 (getLetterDistribution lang)) in
      let '(players, bag') := dealRacks (map resetPlayer (r_players room)) bag in
      (withGame (withPlayers room players) (Some
         {| g_board := initialBoard; g_bag := bag'; g_turnIndex := 0;
            g_activePlayerId := p_id p0; g_turnEndsAt := now + TURN_DURATION_MS;
            g_turnDurationMs := TURN_DURATION_MS; g_lastMove := None;
            g_log := []; g_consecutivePasses := 0; g_startedAt := now;
            g_version := 1 |}),
       inr ())
  end.

End Game.

(** ** The room registry: [services/RoomStore.ts] *)

Module Rooms.

Import Js.
Export Model.

Inductive JoinError := ROOM_NOT_FOUND | ROOM_FULL | ROOM_NOT_JOINABLE | NICKNAME_TAKEN.

(** [if (playerId)]: an absent or empty id is falsy. *)
Definition truthyId (playerId : option string) : option string :=
  match playerId with
  | Some s => if decide (s = "") then None else Some s
  | None => None
  end.

Definition newPlayer (id nickname : string) : Player :=
  {| p_id := id; p_nickname := substring 0 15 nickname; p_connected := true;
     p_ready := false; p_score := 0; p_rack := []; p_stats := initialStats;
     p_connectionId := None |}.

Definition sameNickname (nickname : string) (p : Player) : Prop :=
  toLowerCase (p_nickname p) = toLowerCase nickname.

#[global] Instance sameNickname_dec n p : Decision (sameNickname n p).
Proof. unfold sameNickname. apply _. Defined.

(** [joinRoom]; [now] is the store's clock and [freshId] the value of
    [randomId(16)] should it be called.  The rooms of the map are mutated
    in place: the store returned holds the room as the call leaves it. *)
Definition joinRoom (now : Z) (freshId : string) (rooms : gmap string Room)
    (roomId nickname : string) (playerId : option string)
  : gmap string Room * (JoinError + (Room * Player)) :=
  match rooms !! roomId with
  | None => (rooms, inl ROOM_NOT_FOUND)
  | Some room =>
      if r_maxPlayers room <=? Z.of_nat (length (r_players room))
      then (rooms, inl ROOM_FULL)
      else if negb (bool_decide (r_status room = waiting))
      then (rooms, inl ROOM_NOT_JOINABLE)
      else if bool_decide (Exists (sameNickname nickname) (r_players room))
      then (rooms, inl NICKNAME_TAKEN)
      else
        let found :=
          match truthyId playerId with
          | Some pid => snd <$> list_find (λ p, p_id p = pid) (r_players room)
          | None => None
          end in
        let '(player, players) :=
          match found with
          | Some player => (player, r_players room)
          | None =>
              let player := newPlayer (default freshId (truthyId playerId)) nickname in
              (player, r_players room ++ [player])
          end in
        let room' := withLastActivityAt (withPlayers room players) now in
        (<[roomId := room']> rooms, inr (room', player))
  end.

End Rooms.

(** ** The session coordinator: [handlePlayMove] of [ws/WebSocketServer.ts] *)

Module Server.

Import Js.
Export Game.

Inductive Target :=
  | ToSocket (socketId : string)
  | ToRoom (roomId : string)
  | ToConnection (connectionId : string).

Record BoardCellSummary := {
  bs_letter : option string;
  bs_points : option Z;
  bs_bonus : option BonusType;
}.

Record GameTileSummary := {
  gt_tileId : string;
  gt_letter : string;
  gt_points : Z;
}.

Record LogLine := {
  ll_playerId : string;
  ll_action : Action;
  ll_summary : string;
}.

Record GameStateSummary := {
  gs_board : list (list BoardCellSummary);
  gs_myRack : list GameTileSummary;
  gs_scoresByPlayer : gmap string Z;
  gs_activePlayerId : string;
  gs_turnEndsAt : Z;
  gs_turnDurationMs : Z;
  gs_bagCount : nat;
  gs_log : list LogLine;
  gs_version : Z;
}.

Inductive Message :=
  | moveAccepted (roomId : string) (move : MoveSummary)
  | gameState (roomId : string) (summary : GameStateSummary)
  | turnUpdate (roomId activePlayerId : string) (turnEndsAt version : Z)
  | gameEnded (roomId : string) (scores : gmap string Z)
      (statsByPlayer : gmap string PlayerStats) (winnerIds : list string)
  | invalidMove (roomId reason : string)
  | error (code message : string).

Definition Emit : Type := Target * Message.

(** [e.message] and [e.reason] of a caught error.  The message of a
    [TypeError] names the property that was read: the text below is that
    of the read [players[turnIndex].id] of [advanceTurn], the one read of
    [undefined] that [playMove] can make in a room whose board is 15 by
    15. *)
Definition errMessage (e : Error) : string :=
  match e with
  | NO_PLAYERS => "NO_PLAYERS"
  | NO_GAME => "NO_GAME"
  | PLAYER_NOT_IN_ROOM => "PLAYER_NOT_IN_ROOM"
  | NOT_YOUR_TURN => "NOT_YOUR_TURN"
  | NO_TILES_TO_EXCHANGE => "NO_TILES_TO_EXCHANGE"
  | BAG_TOO_SMALL => "BAG_TOO_SMALL"
  | TILE_NOT_IN_RACK => "TILE_NOT_IN_RACK"
  | NO_PLACEMENTS => "NO_PLACEMENTS"
  | OUT_OF_BOUNDS => "OUT_OF_BOUNDS"
  | CELL_OCCUPIED => "CELL_OCCUPIED"
  | DUPLICATE_TILE => "DUPLICATE_TILE"
  | NOT_ALIGNED => "NOT_ALIGNED"
  | MUST_COVER_CENTER => "MUST_COVER_CENTER"
  | NOT_CONTIGUOUS => "NOT_CONTIGUOUS"
  | NOT_CONNECTED => "NOT_CONNECTED"
  | NO_WORD_FORMED => "NO_WORD_FORMED"
  | INVALID_WORD _ => "INVALID_WORD"
  | TypeError => "Cannot read properties of undefined (reading 'id')"
  end.

Definition errReason (e : Error) : option string :=
  match e with
  | INVALID_WORD w => Some w
  | _ => None
  end.

(** [e?.reason || e?.message || 'INVALID_MOVE'] *)
Definition reasonOf (e : Error) : string :=
  orString (default "" (errReason e)) (orString (errMessage e) "INVALID_MOVE").

Definition playerBySocket (room : Room) (socketId : string) : option Player :=
  snd <$> list_find (λ p, p_connectionId p = Some socketId) (r_players room).

Definition summariseCell (c : BoardCell) : BoardCellSummary :=
  {| bs_letter :=
       match c_tile c with
       | Some t =>
           if t_isJoker (tb_tile t) then Some "?"
           else if decide (t_letter (tb_tile t) = "") then None
           else Some (t_letter (tb_tile t))
       | None => None
       end;
     bs_points := (λ t, t_value (tb_tile t)) <$> c_tile c;
     bs_bonus := c_bonus c |}.

Definition scoresOf (players : list Player) : gmap string Z :=
  foldl (λ m p, <[p_id p := p_score p]> m) ∅ players.

Definition statsOf (players : list Player) : gmap string PlayerStats :=
  foldl (λ m p, <[p_id p := p_stats p]> m) ∅ players.

(** [players.find((pp) => pp.id === pid)?.nickname || pid] *)
Definition nameOf (players : list Player) (pid : string) : string :=
  orString
    (default "" (p_nickname ∘ snd <$> list_find (λ p, p_id p = pid) players)) pid.

Fixpoint joinWith (sep : string) (l : list string) : string :=
  match l with
  | [] => ""
  | [s] => s
  | s :: r => s +:+ sep +:+ joinWith sep r
  end.

Definition logLine (players : list Player) (m : MoveSummary) : LogLine :=
  let name := nameOf players (ms_playerId m) in
  {| ll_playerId := ms_playerId m;
     ll_action := ms_action m;
     ll_summary :=
       match ms_action m with
       | play =>
           name +:+ ": "
             +:+ joinWith ", " (filter (λ w, w ≠ "") (ms_words m))
             +:+ " (+" +:+ pretty (ms_score m) +:+ ")"
       | exchange => name +:+ ": échange de lettres"
       | pass => name +:+ ": passe"
       end |}.

Definition toGameStateSummaryForPlayer (game : GameState) (players : list Player)
    (playerId : string) : GameStateSummary :=
  let me := snd <$> list_find (λ p, p_id p = playerId) players in
  {| gs_board := map (map summariseCell) (g_board game);
     gs_myRack :=
       map (λ t, {| gt_tileId := t_id t; gt_letter := t_letter t;
                    gt_points := t_value t |})
         (default [] (p_rack <$> me));
     gs_scoresByPlayer := scoresOf players;
     gs_activePlayerId := g_activePlayerId game;
     gs_turnEndsAt := g_turnEndsAt game;
     gs_turnDurationMs := g_turnDurationMs game;
     gs_bagCount := length (g_bag game);
     gs_log := map (logLine players) (g_log game);
     gs_version := g_version game |}.

(** One [gameState] message per player that has a connection. *)
Definition broadcastGameState (room : Room) : list Emit :=
  match r_game room with
  | None => []
  | Some game =>
      flat_map
        (λ p, match p_connectionId p with
              | Some conn =>
                  if decide (conn = "") then []
                  else [ (ToConnection conn,
                          gameState (r_id room)
                            (toGameStateSummaryForPlayer game (r_players room) (p_id p))) ]
              | None => []
              end)
        (r_players room)
  end.

(** The ids in the order of their first occurrence. *)
Definition firstOccurrences (ids : list string) : list string :=
  reverse (remove_dups (reverse ids)).

(** The order of two array indices. *)
Definition indexLe (a b : string) : Prop :=
  (default 0 (arrayIndex a) ≤ default 0 (arrayIndex b))%N.

#[global] Instance indexLe_dec a b : Decision (indexLe a b).
Proof. unfold indexLe. apply _. Defined.

(** [Object.entries(scores)] for the object filled by
    [scores[p.id] = p.score]: one entry per id, holding the score written
    last; the ids that are array indices come first, in ascending order,
    the other ids follow in the order in which they were first written. *)
Definition scoreEntries (players : list Player) : list (string * Z) :=
  let scores := scoresOf players in
  let keys := firstOccurrences (p_id <$> players) in
  let indices :=
    merge_sort indexLe (filter (λ k, is_Some (arrayIndex k)) keys) in
  let names := filter (λ k, arrayIndex k = None) keys in
  omap (λ k, (λ s, (k, s)) <$> scores !! k) (indices ++ names).

(** [Math.max(...Object.values(scores))] and the ids of the entries that
    reach it.  (The handler runs after a move, so there is a player.) *)
Definition winnerIdsOf (players : list Player) : list string :=
  let entries := scoreEntries players in
  let best := foldl Z.max (default 0 (snd <$> head entries)) (snd <$> entries) in
  fst <$> filter (λ e, snd e = best) entries.

Record PlayMovePayload := {
  pm_roomId : string;
  pm_action : Action;
  pm_placements : option (list MovePlacement);
  pm_tileIdsToExchange : option (list string);
}.

Section HandlePlayMove.

Variable isWordValid : string → bool.
Variables (tMove tTurn : Z) (rnd : nat → nat).

(** The rooms after the handler returns, and what it emitted, in order. *)
Definition handlePlayMove (rooms : gmap string Room) (socketId : string)
    (payload : PlayMovePayload) : gmap string Room * list Emit :=
  let roomId := pm_roomId payload in
  match rooms !! roomId with
  | None => (rooms, [(ToSocket socketId, error "ROOM_NOT_FOUND" "Room not found")])
  | Some room =>
      match playerBySocket room socketId with
      | None => (rooms, [(ToSocket socketId, error "NOT_IN_ROOM" "Not in room")])
      | Some player =>
          match playMove isWordValid tMove tTurn rnd room (p_id player)
                  (pm_action payload) (pm_placements payload)
                  (pm_tileIdsToExchange payload) with
          | (room', inr (move, ended)) =>
              (<[roomId := room']> rooms,
               [(ToRoom roomId, moveAccepted roomId move)]
               ++ broadcastGameState room'
               ++ match r_game room' with
                  | Some g =>
                      [(ToRoom roomId,
                        turnUpdate roomId (g_activePlayerId g) (g_turnEndsAt g)
                          (g_version g))]
                  | None => []
                  end
               ++ (if ended
                   then [(ToRoom roomId,
                          gameEnded roomId (scoresOf (r_players room'))
                            (statsOf (r_players room'))
                            (winnerIdsOf (r_players room')))]
                   else []))
          | (room', inl e) =>
              (<[roomId := room']> rooms,
               [(ToSocket socketId, invalidMove roomId (reasonOf e))])
          end
      end
  end.

End HandlePlayMove.

End Server.

(** ** The specification's vocabulary

    The predicates of this module follow the text of the specification;
    the theorems below compare them with the functions above. *)

Module Spec.

Import Js.
Export Server.

(** *** Well-formed states *)

(** A board of 15 rows of 15 cells. *)
Definition wfBoard (board : Board) : Prop :=
  length board = 15%nat ∧ Forall (λ r, length r = 15%nat) board.

(** The tiles lying on the board. *)
Definition boardTiles (board : Board) : list Tile :=
  flat_map (λ r, flat_map (λ c, match c_tile c with
                                 | Some t => [tb_tile t]
                                 | None => []
                                 end) r) board.

(** Every tile of the room: bag, racks and board. *)
Definition tilesOfRoom (room : Room) : list Tile :=
  flat_map p_rack (r_players room)
  ++ match r_game room with
     | Some g => g_bag g ++ boardTiles (g_board g)
     | None => []
     end.

(** A joker has no letter and is worth nothing. *)
Definition jokerBlank (t : Tile) : Prop :=
  t_isJoker t = true → t_letter t = "" ∧ t_value t = 0.

(** The letter of a tile is none of the marks the engine writes itself. *)
Definition plainLetter (t : Tile) : Prop := includesChar "." (t_letter t) = false.

(** A room as the game keeps it: every tile is a tile of the letter
    distribution, and the board of a game is 15 by 15. *)
Definition wfRoom (room : Room) : Prop :=
  Forall (λ t, jokerBlank t ∧ plainLetter t) (tilesOfRoom room)
  ∧ ∀ g, r_game room = Some g → wfBoard (g_board g).

(** *** The eight legality checks, in the order of the specification *)

Section Legality.

Variable isWordValid : string → bool.
Variables (board : Board) (rack : list Tile) (placements : list MovePlacement).

Definition inBounds (p : MovePlacement) : Prop :=
  0 ≤ pl_x p < 15 ∧ 0 ≤ pl_y p < 15.

Definition targetsEmptyCell (p : MovePlacement) : Prop :=
  hasTile board (pl_x p) (pl_y p) = false.

(** 1. Placements non-empty. *)
Definition check1 : Prop := placements ≠ [].

(** 2. Every placement is in bounds and targets an empty cell. *)
Definition check2 : Prop :=
  Forall (λ p, inBounds p ∧ targetsEmptyCell p) placements.

(** 3. Every tile id belongs to the rack; no tile id is used twice. *)
Definition check3 : Prop :=
  Forall (λ p, pl_tileId p ∈ map t_id rack) placements
  ∧ NoDup (map pl_tileId placements).

(** 4. The placements share a single row or a single column. *)
Definition check4 : Prop :=
  (∃ y, Forall (λ p, pl_y p = y) placements)
  ∨ (∃ x, Forall (λ p, pl_x p = x) placements).

(** 5. The first move covers the centre. *)
Definition check5 : Prop :=
  boardIsEmpty board = true → Exists (λ p, pl_x p = 7 ∧ pl_y p = 7) placements.

(** The line of the play and the main span on it. *)
Definition direction : Direction := if sameRow placements then row else col.

Definition lineOf : Z := from_option (across direction) 0 (head placements).

Definition mainLow : Z :=
  lowEnd (hasTileOn board direction lineOf)
    (default 0 (head (merge_sort Z.le (map (along direction) placements)))).

Definition mainHigh : Z :=
  highEnd (hasTileOn board direction lineOf)
    (default 0 (last (merge_sort Z.le (map (along direction) placements)))).

Definition placedOn (xy : Z * Z) : Prop :=
  Exists (λ p, pl_x p = fst xy ∧ pl_y p = snd xy) placements.

(** The cell at index [k] of the line holds a tile or receives one. *)
Definition filled (dir : Direction) (f k : Z) : bool :=
  hasTileOn board dir f k
  || bool_decide (is_Some (findPlacement placements (fst (pos dir k f)) (snd (pos dir k f)))).

(** 6. The main span is a run without gap: each of its cells holds a
    tile or receives one. *)
Definition check6 : Prop :=
  ∀ k, mainLow ≤ k ≤ mainHigh →
       hasTileOn board direction lineOf k = true ∨ placedOn (pos direction k lineOf).

Definition orthogonallyAdjacent (p : MovePlacement) : Prop :=
  hasTile board (pl_x p - 1) (pl_y p) = true
  ∨ hasTile board (pl_x p + 1) (pl_y p) = true
  ∨ hasTile board (pl_x p) (pl_y p - 1) = true
  ∨ hasTile board (pl_x p) (pl_y p + 1) = true.

(** 7. An existing tile lies in the main span, or a placement is
    orthogonally adjacent to an existing tile; the first move is exempt. *)
Definition check7 : Prop :=
  boardIsEmpty board = true
  ∨ (∃ k, mainLow ≤ k ≤ mainHigh ∧ hasTileOn board direction lineOf k = true)
  ∨ Exists orthogonallyAdjacent placements.

(** The words formed: the main word and the cross words, of which those of
    length at least 2 go to the dictionary. *)
Definition wordsFormed : list string :=
  let info := default ∅ (buildPlacementInfo rack placements ∅) in
  mw_word (buildMainWord board placements info direction)
  :: map cw_word (buildCrossWords board placements info direction).

(** 8. Every word of length at least 2 passes the dictionary. *)
Definition check8 : Prop :=
  ∀ w, w ∈ wordsFormed → (2 ≤ String.length w)%nat →
       isWordValid (normalizeWord w) = true.

Definition legalityChecks : list Prop :=
  [check1; check2; check3; check4; check5; check6; check7; check8].

End Legality.

(** *** Scoring *)

Definition sumZ (l : list Z) : Z := foldr Z.add 0 l.

Definition prodZ (l : list Z) : Z := foldr Z.mul 1 l.

(** The tile a play puts on a cell: when several placements name the
    cell, the one the commit loop writes last. *)
Definition tilePlacedAt (rack : list Tile) (placements : list MovePlacement)
    (xy : Z * Z) : option Tile :=
  match last (filter (λ p, (pl_x p, pl_y p) = xy) placements) with
  | Some p => findTile rack (pl_tileId p)
  | None => None
  end.

Section Scoring.

Variables (board : Board) (placements : list MovePlacement).
Variable info : gmap (Z * Z) Info.

(** The premium of a cell that has not been consumed. *)
Definition premiumAt (xy : Z * Z) : option BonusType :=
  match cellAt board (fst xy) (snd xy) with
  | Some c => if c_bonusUsed c then None else c_bonus c
  | None => None
  end.

(** Multipliers apply only to newly placed tiles, and only on a premium
    that has not been consumed. *)
Definition letterMultiplier (xy : Z * Z) : Z :=
  if decide (placedOn placements xy)
  then match premiumAt xy with Some DL => 2 | Some TL => 3 | _ => 1 end
  else 1.

Definition wordMultiplier (xy : Z * Z) : Z :=
  if decide (placedOn placements xy)
  then match premiumAt xy with Some DW => 2 | Some TW => 3 | _ => 1 end
  else 1.

(** The value of the letter on a cell: of the tile placed there, or else
    of the tile that lies there. *)
Definition letterValue (xy : Z * Z) : Z :=
  if decide (placedOn placements xy)
  then getPlacementLetterValue info (fst xy) (snd xy)
  else tileValueAt board (fst xy) (snd xy).

(** [sum(letterValue_i × letterMultiplier_i) × product(wordMultipliers)] *)
Definition wordScore (cells : list (Z * Z)) : Z :=
  sumZ (map (λ xy, letterValue xy * letterMultiplier xy) cells)
  * prodZ (map wordMultiplier cells).

End Scoring.

(** *** The end of the game *)

(** The sum of the face values of the tiles of a rack. *)
Definition faceValue (rack : list Tile) : Z := sumZ (map t_value rack).

(** The bag is empty and some rack is empty, or the counter of
    consecutive passes has reached 6. *)
Definition endCondition (players : list Player) (g : GameState) : Prop :=
  (g_bag g = [] ∧ ∃ p, p ∈ players ∧ p_rack p = [])
  ∨ 6 ≤ g_consecutivePasses g.

(** Player [i] is the only one whose rack is empty. *)
Definition soleFinisher (players : list Player) (i : nat) : Prop :=
  ∀ j q, players !! j = Some q → (p_rack q = [] ↔ j = i).

(** The face values left on the racks of the players other than [i]. *)
Definition othersFaceValue (players : list Player) (i : nat) : Z :=
  sumZ (map (λ q, faceValue (p_rack q)) (delete i players)).

(** The final scores [players'] of [players]: everyone loses the face
    value of the rack; a sole finisher gains what the others hold. *)
Definition finalScoring (players players' : list Player) : Prop :=
  length players' = length players
  ∧ (∀ i p, players !! i = Some p →
       ∃ gain, players' !! i
               = Some (withScore p (p_score p - faceValue (p_rack p) + gain)))
  ∧ ((∀ q, q ∈ players → p_rack q ≠ []) →
       ∀ i p, players !! i = Some p →
         players' !! i = Some (withScore p (p_score p - faceValue (p_rack p))))
  ∧ (∀ i, soleFinisher players i →
       ∀ j p, players !! j = Some p →
         players' !! j
         = Some (withScore p
                   (if decide (j = i)
                    then p_score p - faceValue (p_rack p) + othersFaceValue players i
                    else p_score p - faceValue (p_rack p)))).

(** Check [k] (counted from 0) is the first that fails. *)
Definition firstFailing (checks : list Prop) (k : nat) : Prop :=
  (∃ c, checks !! k = Some c ∧ ¬ c)
  ∧ ∀ j c, (j < k)%nat → checks !! j = Some c → c.

(** The check (counted from 1, as in the specification) an error code
    belongs to. *)
Definition checkOf (e : Error) : option nat :=
  match e with
  | NO_PLACEMENTS => Some 1%nat
  | OUT_OF_BOUNDS | CELL_OCCUPIED => Some 2%nat
  | TILE_NOT_IN_RACK | DUPLICATE_TILE => Some 3%nat
  | NOT_ALIGNED => Some 4%nat
  | MUST_COVER_CENTER => Some 5%nat
  | NOT_CONTIGUOUS => Some 6%nat
  | NOT_CONNECTED => Some 7%nat
  | INVALID_WORD _ => Some 8%nat
  | _ => None
  end.

End Spec.

(** ** A small game used to run the definitions on concrete inputs *)

Module Examples.

Import Js.
Export Spec.

Definition tile (id letter : string) (value : Z) : Tile :=
  {| t_id := id; t_letter := letter; t_value := value; t_isJoker := false |}.

Definition blank (id : string) : Tile :=
  {| t_id := id; t_letter := ""; t_value := 0; t_isJoker := true |}.

Definition at_ (x y : Z) (tileId : string) : MovePlacement :=
  {| pl_x := x; pl_y := y; pl_tileId := tileId |}.

Definition seat (id nickname socket : string) (rack : list Tile) : Player :=
  {| p_id := id; p_nickname := nickname; p_connected := true; p_ready := true;
     p_score := 0; p_rack := rack; p_stats := initialStats;
     p_connectionId := Some socket |}.

Definition ann : Player :=
  seat "ann" "Ann" "s1"
    [ tile "a1" "A" 1; tile "a2" "S" 1; tile "a3" "Q" 10; tile "a4" "Z" 10;
      blank "a5"; tile "a6" "E" 1; tile "a7" "T" 1 ].

Definition bob : Player :=
  seat "bob" "Bob" "s2"
    [ tile "b1" "T" 1; tile "b2" "O" 1; tile "b3" "N" 1; tile "b4" "D" 2;
      tile "b5" "I" 1; tile "b6" "R" 1; tile "b7" "E" 1 ].

Definition smallBag : list Tile :=
  [ tile "g1" "L" 1; tile "g2" "U" 1; tile "g3" "K" 5 ].

(** The position after [startNewGame]: nothing on the board, Ann to move. *)
Definition openingGame : GameState :=
  {| g_board := initialBoard; g_bag := smallBag; g_turnIndex := 0;
     g_activePlayerId := "ann"; g_turnEndsAt := 120000;
     g_turnDurationMs := 120000; g_lastMove := None; g_log := [];
     g_consecutivePasses := 0; g_startedAt := 0; g_version := 1 |}.

Definition opening : Room :=
  {| r_id := "ABCD"; r_hostId := "ann"; r_status := playing; r_maxPlayers := 2;
     r_players := [ann; bob]; r_game := Some openingGame;
     r_lastActivityAt := 0 |}.

(** A word list read from a file. *)
Definition wordList : string :=
  "as" +:+ String "010" "at" +:+ String "010" "cat" +:+ String "010" "tas".

Definition dictionary : string → bool :=
  Dictionary.isWordValid (Dictionary.construct (Some wordList)).

(** The random source that always answers 0. *)
Definition rnd0 (_ : nat) : nat := O.

(** Ann opens with AS on the centre row. *)
Definition annPlaysAS : Outcome (MoveSummary * bool) :=
  playMove dictionary 1000 1001 rnd0 opening "ann" play
    (Some [at_ 7 7 "a1"; at_ 8 7 "a2"]) None.

Definition afterAS : Room := fst annPlaysAS.

(** Bob then puts his T under the A: one tile, at column 7 of row 8. *)
Definition bobPlaysT : Outcome (MoveSummary * bool) :=
  playMove dictionary 2000 2001 rnd0 afterAS "bob" play
    (Some [at_ 7 8 "b1"]) None.

(** Ann exchanges her A. *)
Definition annExchangesA : Outcome (MoveSummary * bool) :=
  playMove dictionary 1000 1001 rnd0 opening "ann" exchange None (Some ["a1"]).

(** Ann opens with her blank and her S. *)
Definition annPlaysBlankS : Outcome (MoveSummary * bool) :=
  playMove dictionary 1000 1001 rnd0 opening "ann" play
    (Some [at_ 7 7 "a5"; at_ 8 7 "a2"]) None.

(** An end game: the bag is empty, Ann holds one tile and is to move. *)
Definition endgame : Room :=
  {| r_id := "ABCD"; r_hostId := "ann"; r_status := playing; r_maxPlayers := 2;
     r_players :=
       [ withScore (withRack ann [tile "a7" "T" 1]) 4;
         withRack bob [tile "b2" "O" 1; tile "b3" "N" 1] ];
     r_game := Some
       {| g_board := default [] (g_board <$> r_game afterAS); g_bag := [];
          g_turnIndex := 0; g_activePlayerId := "ann"; g_turnEndsAt := 500000;
          g_turnDurationMs := 120000; g_lastMove := None; g_log := [];
          g_consecutivePasses := 0; g_startedAt := 0; g_version := 7 |};
     r_lastActivityAt := 0 |}.

(** Ann goes out with TAS. *)
Definition annGoesOut : Outcome (MoveSummary * bool) :=
  playMove dictionary 3000 3001 rnd0 endgame "ann" play (Some [at_ 6 7 "a7"]) None.

(** Ann's refused opening QZ, as the coordinator receives it. *)
Definition annPlaysQZ : PlayMovePayload :=
  {| pm_roomId := "ABCD"; pm_action := play;
     pm_placements := Some [at_ 7 7 "a3"; at_ 8 7 "a4"];
     pm_tileIdsToExchange := None |}.

(** A waiting room with one seat taken, by Alice. *)
Definition alice : Player := Rooms.newPlayer "p1" "Alice".

Definition lobby : Room :=
  {| r_id := "WXYZ"; r_hostId := "p1"; r_status := waiting; r_maxPlayers := 4;
     r_players := [alice]; r_game := None; r_lastActivityAt := 0 |}.

End Examples.

(** ** Identifiers: [utils/id.ts] *)

Module Ids.

Import Js.

Definition idAlphabet : string := "abcdefghijklmnopqrstuvwxyz0123456789".
Definition codeAlphabet : string := "ABCDEFGHJKLMNPQRSTUVWXYZ23456789".

(** [alphabet[Math.floor(Math.random() * alphabet.length)]] when the draw
    is [r]: the index is [r mod alphabet.length], any index of the
    alphabet.  (An empty alphabet gives [undefined], appended as text.) *)
Definition pick (alphabet : string) (r : nat) : string :=
  match String.get (r mod String.length alphabet) alphabet with
  | Some c => String c EmptyString
  | None => "undefined"
  end.

(** The loop [for (i = 0; i < len; i++) s += ...]; [rnd k] is the draw of
    the [k]-th call of [Math.random()], and the loop starts at call [k]. *)
Fixpoint draw (alphabet : string) (rnd : nat → nat) (k len : nat) : string :=
  match len with
  | O => ""
  | S n => pick alphabet (rnd k) +:+ draw alphabet rnd (S k) n
  end.

Definition randomId (rnd : nat → nat) (k len : nat) : string :=
  draw idAlphabet rnd k len.

Definition roomCode (rnd : nat → nat) (k len : nat) : string :=
  draw codeAlphabet rnd k len.

Definition tileId (rnd : nat → nat) (k : nat) : string :=
  "t_" +:+ randomId rnd k 10.

End Ids.

(** ** The room registry, continued: the other methods of
    [services/RoomStore.ts] *)

Module Store.

Import Js.
Export Rooms.

Inductive CreateError := ROOM_ID_GENERATION_FAILED.

Definition withHostId (r : Room) (hostId : string) : Room :=
  {| r_id := r_id r; r_hostId := hostId; r_status := r_status r;
     r_maxPlayers := r_maxPlayers r; r_players := r_players r;
     r_game := r_game r; r_lastActivityAt := r_lastActivityAt r |}.

(** One loop of [generateUniqueRoomId]: up to [tries] codes of [len]
    characters, drawn from call [k] of [Math.random()] on; the result
    comes with the number of the next call. *)
Fixpoint tryCodes (rooms : gmap string Room) (rnd : nat → nat) (len k tries : nat)
  : option string * nat :=
  match tries with
  | O => (None, k)
  | S t =>
      let id := Ids.roomCode rnd k len in
      if decide (is_Some (rooms !! id)) then tryCodes rooms rnd len (k + len) t
      else (Some id, (k + len)%nat)
  end.

Definition generateUniqueRoomId (rooms : gmap string Room) (rnd : nat → nat)
  : option string * nat :=
  match tryCodes rooms rnd 4 0 1000 with
  | (Some id, k) => (Some id, k)
  | (None, k) => tryCodes rooms rnd 6 k 1000
  end.

(** [createRoom]; [now] is the store's clock. *)
Definition createRoom (now : Z) (rnd : nat → nat) (rooms : gmap string Room)
    (maxPlayers : Z) (hostNickname : string) (playerId : option string)
  : gmap string Room * (CreateError + (Room * Player)) :=
  match generateUniqueRoomId rooms rnd with
  | (None, _) => (rooms, inl ROOM_ID_GENERATION_FAILED)
  | (Some id, k) =>
      let host :=
        newPlayer (default (Ids.randomId rnd k 16) (truthyId playerId)) hostNickname in
      let room :=
        {| r_id := id; r_hostId := p_id host; r_status := waiting;
           r_maxPlayers := Z.max 1 (Z.min 4 maxPlayers); r_players := [host];
           r_game := None; r_lastActivityAt := now |} in
      (<[id := room]> rooms, inr (room, host))
  end.

(** [removePlayerFromRoom]: [splice] takes out the first player with the
    id. *)
Definition removePlayerFromRoom (now : Z) (rooms : gmap string Room)
    (roomId playerId : string) : gmap string Room :=
  match rooms !! roomId with
  | None => rooms
  | Some room =>
      match list_find (λ p, p_id p = playerId) (r_players room) with
      | None => rooms
      | Some (idx, _) =>
          let players := delete idx (r_players room) in
          let room' := withLastActivityAt (withPlayers room players) now in
          match players with
          | [] => delete roomId rooms
          | p0 :: _ =>
              if decide (playerId = r_hostId room)
              then <[roomId := withHostId room' (p_id p0)]> rooms
              else <[roomId := room']> rooms
          end
      end
  end.

Definition setRoomStatus (now : Z) (rooms : gmap string Room) (roomId : string)
    (status : RoomStatus) : gmap string Room :=
  match rooms !! roomId with
  | None => rooms
  | Some room => <[roomId := withLastActivityAt (withStatus room status) now]> rooms
  end.

Definition deleteRoom (rooms : gmap string Room) (id : string) : gmap string Room :=
  delete id rooms.

(** A call of the store's interface, with the readings of the clock and
    of the random source made during the call. *)
Inductive StoreCall :=
  | callCreate (now : Z) (rnd : nat → nat) (maxPlayers : Z) (nickname : string)
      (playerId : option string)
  | callJoin (now : Z) (freshId roomId nickname : string) (playerId : option string)
  | callRemove (now : Z) (roomId playerId : string)
  | callSetStatus (now : Z) (roomId : string) (status : RoomStatus)
  | callDelete (roomId : string).

Definition call (rooms : gmap string Room) (c : StoreCall) : gmap string Room :=
  match c with
  | callCreate now rnd maxPlayers nickname playerId =>
      fst (createRoom now rnd rooms maxPlayers nickname playerId)
  | callJoin now freshId roomId nickname playerId =>
      fst (joinRoom now freshId rooms roomId nickname playerId)
  | callRemove now roomId playerId => removePlayerFromRoom now rooms roomId playerId
  | callSetStatus now roomId status => setRoomStatus now rooms roomId status
  | callDelete roomId => deleteRoom rooms roomId
  end.

(** The store after a sequence of calls on a new store. *)
Definition calls (cs : list StoreCall) : gmap string Room := foldl call ∅ cs.


End Store.

(** ** The HTTP validator of [services/WordValidator.ts] *)

Module Http.

Import Js.

(** How the [fetch] of a word ends: with a response, [ok] or not, or with
    an exception (time-out, network error). *)
Inductive Fetched := responded (ok : bool) | threw.

(** [WordValidatorHttp.isWordValid]; [fetched] is how the request ends
    should it be made.  The cache is returned as the call leaves it. *)
Definition isWordValid (fetched : Fetched) (cache : gmap string bool) (word : string)
  : gmap string bool * bool :=
  let key := toLowerCase word in
  match cache !! key with
  | Some v => (cache, v)
  | None =>
      let ok := match fetched with responded true => true | _ => false end in
      (<[key := ok]> cache, ok)
  end.

End Http.

(** ** The timers of [index.ts] *)

Module Timers.

Import Js.
Export Server.

Definition ROOM_IDLE_CLEANUP_MS : Z := 30 * 60000.

(** The body of the turn-timeout loop for one room: [now] is the reading
    of the clock at the start of the tick, [tMove] and [tTurn] those
    made by [playMove].  The pass is forced on the active player; an
    error is logged to the console and nothing is sent. *)
Definition enforceTurn (isWordValid : string → bool) (now tMove tTurn : Z)
    (room : Room) : Room * list Emit :=
  match r_game room with
  | None => (room, [])
  | Some g =>
      if negb (bool_decide (r_status room = playing)) then (room, [])
      else if negb (g_turnEndsAt g <? now) then (room, [])
      else
        match playMove isWordValid tMove tTurn (λ _, O) room (g_activePlayerId g)
                pass None None with
        | (room', inr _) =>
            match r_game room' with
            | Some g' =>
                (room',
                 (ToRoom (r_id room'),
                  turnUpdate (r_id room') (g_activePlayerId g') (g_turnEndsAt g')
                    (g_version g'))
                 :: broadcastGameState room')
            | None => (room', [])
            end
        | (room', inl _) => (room', [])
        end
  end.

(** The readings of the clock during one tick. *)
Record Tick := {
  tk_now : Z;
  tk_tMove : Z;
  tk_tTurn : Z;
}.

(** The room after the ticks, one after the other. *)
Definition enforceTurns (isWordValid : string → bool) (ticks : list Tick)
    (room : Room) : Room :=
  foldl (λ r t, fst (enforceTurn isWordValid (tk_now t) (tk_tMove t) (tk_tTurn t) r))
    room ticks.

(** Every tick of the list finds the turn overdue, the first one with
    respect to [deadline]. *)
Fixpoint overdue (deadline : Z) (ticks : list Tick) : Prop :=
  match ticks with
  | [] => True
  | t :: rest => deadline < tk_now t ∧ overdue (tk_tTurn t + TURN_DURATION_MS) rest
  end.

(** The test of the cleanup loop. *)
Definition idle (now : Z) (room : Room) : bool :=
  negb (existsb p_connected (r_players room))
  && (ROOM_IDLE_CLEANUP_MS <? now - r_lastActivityAt room).

(** The cleanup loop; [listed] is the array that [listRooms] returns. *)
Definition sweepRooms (now : Z) (listed : list Room) (rooms : gmap string Room)
  : gmap string Room :=
  foldl (λ m room, if idle now room then delete (r_id room) m else m) rooms listed.

End Timers.


(** ** Vocabulary for the properties of a game in progress *)

Module Progress.

Import Js.
Export Spec.

(** The cells a play names. *)
Definition cellsOf (placements : list MovePlacement) : list (Z * Z) :=
  map (λ p, (pl_x p, pl_y p)) placements.

(** The full set of tiles of a language: what [startNewGame] puts in the
    bag before it shuffles. *)
Definition fullBag (lang : Language) (ids : nat → string) : list Tile :=
  buildBag ids 0 (getLetterDistribution lang).

Definition sumScores (players : list Player) : Z := sumZ (map p_score players).

(** What the log credits to player [pid]. *)
Definition loggedScore (log : list MoveSummary) (pid : string) : Z :=
  sumZ (map ms_score (filter (λ m, ms_playerId m = pid) log)).

(** The score board agrees with the log. *)
Definition scoresMatchLog (room : Room) : Prop :=
  ∃ g, r_game room = Some g
       ∧ Forall (λ p, p_score p = loggedScore (g_log g) (p_id p)) (r_players room).

(** The number of entries of the log after its last play. *)
Definition trailingPasses (log : list MoveSummary) : nat :=
  match list_find (λ m, ms_action m = play) (reverse log) with
  | Some (i, _) => i
  | None => length log
  end.

(** A game played from version 1 by the players [seats], each in turn:
    the log numbers the accepted moves from 2 on, and entry [k] was made
    by the player at seat [k mod |seats|]. *)
Definition orderly (seats : list string) (room : Room) : Prop :=
  map p_id (r_players room) = seats
  ∧ ∃ g, r_game room = Some g
      ∧ wfBoard (g_board g)
      ∧ g_version g = 1 + Z.of_nat (length (g_log g))
      ∧ g_turnIndex g = Z.of_nat (length (g_log g) mod length seats)
      ∧ Some (g_activePlayerId g) = seats !! (length (g_log g) mod length seats)%nat
      ∧ g_lastMove g = last (g_log g)
      ∧ ∀ k m, g_log g !! k = Some m →
          ms_turnNumber m = Z.of_nat k + 2
          ∧ Some (ms_playerId m) = seats !! (k mod length seats)%nat.

(** A premium is marked as used exactly on the cells that carry a tile. *)
Definition premiumsTrackTiles (board : Board) : Prop :=
  ∀ x y c, cellAt board x y = Some c →
    (c_bonusUsed c = true ↔ is_Some (c_bonus c) ∧ is_Some (c_tile c)).

(** The premium squares of [board'] are those of [board]. *)
Definition sameLayout (board board' : Board) : Prop :=
  ∀ x y, (c_bonus <$> cellAt board' x y) = (c_bonus <$> cellAt board x y).

(** The log entries of player [pid], and the plays among them. *)
Definition movesOf (log : list MoveSummary) (pid : string) : list MoveSummary :=
  filter (λ m, ms_playerId m = pid) log.

Definition playsOf (log : list MoveSummary) (pid : string) : list MoveSummary :=
  filter (λ m, ms_action m = play) (movesOf log pid).

(** The statistics of player [p] are those of the moves the log records
    for the player. *)
Definition statsMatchLog (log : list MoveSummary) (p : Player) : Prop :=
  let st := p_stats p in
  let plays := playsOf log (p_id p) in
  wordsPlayed st = Z.of_nat (length plays)
  ∧ totalTurns st = Z.of_nat (length plays)
  ∧ passes st = Z.of_nat (length (movesOf log (p_id p))) - Z.of_nat (length plays)
  ∧ bestWordScore st = foldr Z.max 0 (map ms_score plays)
  ∧ (bestWord st = None ↔ bestWordScore st = 0).

(** A log entry as [playMove] writes it under the validator [isWordValid]:
    a play names its placements and at least one word, every word has two
    letters or more and was accepted; a pass or an exchange names nothing
    and scores nothing. *)
Definition entryOk (isWordValid : string → bool) (m : MoveSummary) : Prop :=
  match ms_action m with
  | play =>
      ms_placements m ≠ [] ∧ ms_words m ≠ []
      ∧ Forall (λ w, (2 ≤ String.length w)%nat
                     ∧ isWordValid (normalizeWord w) = true) (ms_words m)
  | _ => ms_placements m = [] ∧ ms_words m = [] ∧ ms_score m = 0
  end.

End Progress.

(** ** A table of two and the first rounds of their game *)

Module Rounds.

Import Js.
Export Progress Examples.

(** Tile ids handed out in sequence: t0, t1, ... *)
Definition tileIds (k : nat) : string := "t" +:+ pretty k.

Definition table : Room :=
  {| r_id := "ABCD"; r_hostId := "ann"; r_status := playing; r_maxPlayers := 2;
     r_players := [seat "ann" "Ann" "s1" []; seat "bob" "Bob" "s2" []];
     r_game := None; r_lastActivityAt := 0 |}.

(** The room after [startNewGame]: Ann holds A, two blanks, Z, Y, Y, X. *)
Definition started : Room := fst (startNewGame EN tileIds rnd0 0 table).

Definition request (pid : string) (action : Action)
    (pls : option (list MovePlacement)) (ids : option (list string))
  : MoveRequest :=
  {| mr_playerId := pid; mr_action := action; mr_placements := pls;
     mr_tileIdsToExchange := ids; mr_tMove := 1000; mr_tTurn := 1001;
     mr_rnd := rnd0 |}.

(** Ann opens with ZA on the centre. *)
Definition annOpens : MoveRequest :=
  request "ann" play (Some [at_ 7 7 "t97"; at_ 8 7 "t0"]) None.

(** Ann opens, tries to move again, Bob exchanges a tile, both pass. *)
Definition firstRounds : list MoveRequest :=
  [ annOpens;
    request "ann" pass None None;
    request "bob" exchange None (Some ["t93"]);
    request "ann" pass None None;
    request "bob" pass None None ].

(** Six ticks of the turn timer, 200 seconds apart. *)
Definition sixTicks : list Timers.Tick :=
  map (λ i : Z, {| Timers.tk_now := 200000 * i; Timers.tk_tMove := 200000 * i + 1;
                   Timers.tk_tTurn := 200000 * i + 2 |})
    [1; 2; 3; 4; 5; 6].

(** Ann creates a room, Bob joins it, Ann leaves. *)
Definition lobbyCalls : list Store.StoreCall :=
  [ Store.callCreate 0 rnd0 4 "Ann" (Some "ann");
    Store.callJoin 1 "x" "AAAA" "Bob" (Some "bob");
    Store.callRemove 2 "AAAA" "ann" ].

(** The players of the started game, Bob's rack taken away. *)
Definition withoutBobsRack : list Player :=
  map (λ p, if decide (p_id p = "bob") then withRack p [] else p) (r_players started).

End Rounds.

(** * Properties *)

(** ** The file dictionary *)

Section DictionaryFacts.

Import Js Dictionary.

(** The bucket of length [n] after indexing [ws] on top of [m]. *)
Lemma foldl_indexWord_lookup ws : ∀ (m : gmap nat (list string)) n,
  (is_Some (foldl indexWord m ws !! n)
     ↔ is_Some (m !! n) ∨ ∃ w, w ∈ ws ∧ String.length w = n)
  ∧ default [] (foldl indexWord m ws !! n)
    = default [] (m !! n) ++ filter (λ w, String.length w = n) ws.
Proof.
  induction ws as [|w ws IH]; intros m n; simpl.
  - split; [|now rewrite app_nil_r].
    split; [auto|]. intros [?|(w & Hw & _)]; [done|]. by apply elem_of_nil in Hw.
  - destruct (IH (indexWord m w) n) as [IHs IHd]. rewrite IHs, IHd. clear IHs IHd.
    unfold indexWord. destruct (decide (String.length w = n)) as [Heq|Hne]; [subst n|].
    + rewrite lookup_insert_eq. simpl. rewrite filter_cons_True by done.
      split; [|by rewrite <- app_assoc].
      split.
      * intros _. right. exists w. split; [apply list_elem_of_here|done].
      * intros _. left. eauto.
    + rewrite lookup_insert_ne by done. rewrite filter_cons_False by done.
      split; [|done].
      split.
      * intros [?|(v & Hv & Hl)]; [by left|].
        right. exists v. split; [by apply list_elem_of_further|done].
      * intros [?|(v & Hv & Hl)]; [by left|]. right. exists v. split; [|done].
        apply elem_of_cons in Hv as [->|Hv]; done.
Qed.

Lemma buildIndex_Some ws n pool :
  buildIndex ws !! n = Some pool → pool = filter (λ w, String.length w = n) ws.
Proof.
  intros H. destruct (foldl_indexWord_lookup ws ∅ n) as [_ Hd].
  unfold buildIndex in H. rewrite H, lookup_empty in Hd. exact Hd.
Qed.

Lemma buildIndex_None ws n :
  buildIndex ws !! n = None → ∀ w, w ∈ ws → String.length w ≠ n.
Proof.
  intros H w Hw Hl. destruct (foldl_indexWord_lookup ws ∅ n) as [Hs _].
  unfold buildIndex in H. rewrite H in Hs.
  assert (is_Some (@None (list string))) as [? ?]; [|done].
  apply Hs. right. eauto.
Qed.

Lemma wildMatch_spec W : ∀ v, wildMatch W v = true ↔ agreesOffWildcards W v.
Proof.
  unfold agreesOffWildcards.
  induction W as [|c W IH]; intros v; simpl.
  - split; [intros _ i c H; destruct i; discriminate | done].
  - destruct v as [|d v].
    + rewrite andb_true_iff, IH, Ascii.eqb_eq. split.
      * intros [-> Hr] [|i] c' Hg Hc; simpl in *; [congruence|].
        specialize (Hr i c' Hg Hc). destruct i; discriminate.
      * intros H. split.
        -- destruct (decide (c = "?"%char)) as [|Hc]; [done|].
           specialize (H 0%nat c eq_refl Hc). discriminate.
        -- intros i c' Hg Hc. specialize (H (S i) c' Hg Hc). discriminate.
    + rewrite andb_true_iff, orb_true_iff, IH, !Ascii.eqb_eq. split.
      * intros [Hc Hr] [|i] c' Hg Hc'; simpl in *.
        -- destruct Hc; congruence.
        -- by apply Hr.
      * intros H. split.
        -- destruct (decide (c = "?"%char)) as [|Hc]; [by left|right].
           specialize (H 0%nat c eq_refl Hc). simpl in H. congruence.
        -- intros i c' Hg Hc'. exact (H (S i) c' Hg Hc').
Qed.

Lemma wildMatch_exact W : ∀ v,
  includesChar "?" W = false → String.length v = String.length W →
  wildMatch W v = true → W = v.
Proof.
  induction W as [|c W IH]; intros [|d v] Hq Hl Hm; simpl in *; try done.
  apply orb_false_iff in Hq as [Hc Hq]. rewrite Hc in Hm. simpl in Hm.
  apply andb_true_iff in Hm as [Hd Hm]. apply Ascii.eqb_eq in Hd as ->.
  f_equal. apply IH; [done|lia|done].
Qed.

Lemma wildMatch_refl W : wildMatch W W = true.
Proof.
  induction W as [|c W IH]; simpl; [done|].
  rewrite Ascii.eqb_refl, orb_true_r. done.
Qed.

(** C10. A validator whose file could not be read rejects every word; a
    validator whose file was read accepts [w] exactly when some loaded
    word has the length of the uppercased query and carries the same
    character at every position of it that is not ['?']. *)
Theorem isWordValid_file_spec :
  (∀ w, isWordValid (construct None) w = false)
  ∧ (∀ raw w,
       isWordValid (construct (Some raw)) w = true
       ↔ ∃ v, v ∈ parseWords raw
              ∧ String.length v = String.length (toUpperCase w)
              ∧ ∀ i c, String.get i (toUpperCase w) = Some c →
                       c ≠ "?"%char → String.get i v = Some c).
Proof.
  split; [done|]. intros raw w. unfold isWordValid. simpl.
  set (W := toUpperCase w). set (ws := parseWords raw).
  destruct (buildIndex ws !! String.length W) as [pool|] eqn:Hpool.
  - apply buildIndex_Some in Hpool. subst pool.
    assert (∀ v, In v (filter (λ w0, String.length w0 = String.length W) ws)
                 ↔ v ∈ ws ∧ String.length v = String.length W) as Hin.
    { intros v. rewrite <- list_elem_of_In, list_elem_of_filter. tauto. }
    destruct (includesChar "?" W) eqn:Hq; simpl.
    + rewrite existsb_exists. split.
      * intros (v & Hv & Hm). apply Hin in Hv as [Hv Hl].
        exists v. split; [done|]. split; [done|]. by apply wildMatch_spec.
      * intros (v & Hv & Hl & Hm). exists v. split; [by apply Hin|].
        by apply wildMatch_spec.
    + rewrite existsb_exists. split.
      * intros (v & Hv & Hm). apply Hin in Hv as [Hv Hl].
        apply String.eqb_eq in Hm as <-.
        exists W. split; [done|]. split; [done|]. apply wildMatch_spec, wildMatch_refl.
      * intros (v & Hv & Hl & Hm). exists v. split; [by apply Hin|].
        apply String.eqb_eq. apply wildMatch_exact; [done..|]. by apply wildMatch_spec.
  - split; [done|]. intros (v & Hv & Hl & _).
    by destruct (buildIndex_None ws _ Hpool v Hv).
Qed.

End DictionaryFacts.

(** ** The room registry *)

Section JoinFacts.

Import Js Rooms.

(** C9 on the code.  A player who is in the room and joins again under the
    same id and nickname (in any letter case) is never re-attached: the
    call is refused, with [NICKNAME_TAKEN] when the room is waiting and
    has a free seat, and the registry is as before.  The nickname test
    runs before the lookup by id and counts the player's own seat. *)
Theorem joinRoom_refuses_returning_player
    now freshId (rooms : gmap string Room) roomId room nickname pid p :
  rooms !! roomId = Some room →
  p ∈ r_players room →
  p_id p = pid →
  toLowerCase (p_nickname p) = toLowerCase nickname →
  ∃ e, joinRoom now freshId rooms roomId nickname (Some pid) = (rooms, inl e)
       ∧ (Z.of_nat (length (r_players room)) < r_maxPlayers room →
          r_status room = waiting → e = NICKNAME_TAKEN).
Proof.
  intros Hroom Hp Hid Hnick. unfold joinRoom. rewrite Hroom.
  destruct (r_maxPlayers room <=? Z.of_nat (length (r_players room))) eqn:Hfull.
  { eexists. split; [done|]. apply Z.leb_le in Hfull. lia. }
  destruct (bool_decide (r_status room = waiting)) eqn:Hst; simpl.
  2:{ eexists. split; [done|]. apply bool_decide_eq_false in Hst. done. }
  rewrite bool_decide_eq_true_2.
  - eexists. split; done.
  - apply Exists_exists. exists p. done.
Qed.

End JoinFacts.

Section JoinExamples.

Import Js Rooms Examples.

(** Alice, seated in the lobby as p1, joins again as p1. *)
Lemma joinRoom_returning_player_witness :
  ∃ e, joinRoom 5 "fresh" {["WXYZ" := lobby]} "WXYZ" "alice" (Some "p1")
       = ({["WXYZ" := lobby]}, inl e)
       ∧ (Z.of_nat (length (r_players lobby)) < r_maxPlayers lobby →
          r_status lobby = waiting → e = NICKNAME_TAKEN).
Proof.
  apply (joinRoom_refuses_returning_player 5 "fresh" {["WXYZ" := lobby]} "WXYZ"
           lobby "alice" "p1" alice).
  - reflexivity.
  - apply list_elem_of_here.
  - reflexivity.
  - reflexivity.
Defined.

End JoinExamples.

(** ** The lifecycle: how a move ends *)

Section LifecycleFacts.

Import Game.

Lemma nthZ_Some {A} (l : list A) i x :
  nthZ l i = Some x → 0 ≤ i < Z.of_nat (length l) ∧ l !! Z.to_nat i = Some x.
Proof.
  unfold nthZ. destruct (0 <=? i) eqn:Hi; [|done]. intros H.
  apply Z.leb_le in Hi. split; [|done].
  apply lookup_lt_Some in H. lia.
Qed.

Lemma advanceTurn_inr now room room1 u :
  advanceTurn now room = (room1, inr u) →
  ∃ g p,
    r_game room = Some g
    ∧ nthZ (r_players room)
        (Z.rem (g_turnIndex g + 1) (Z.of_nat (length (r_players room)))) = Some p
    ∧ room1 = withGame room (Some
        (turnPassedTo g (Z.rem (g_turnIndex g + 1) (Z.of_nat (length (r_players room))))
           p now)).
Proof.
  unfold advanceTurn. intros H.
  destruct (r_game room) as [g|]; [|discriminate].
  destruct (nthZ _ _) as [p|] eqn:Hp; [|discriminate].
  exists g, p. by inversion H.
Qed.

Lemma advanceTurn_inl now room room1 e :
  advanceTurn now room = (room1, inl e) →
  e = TypeError
  ∧ r_players room1 = r_players room
  ∧ r_status room1 = r_status room
  ∧ (g_version <$> r_game room1) = (g_version <$> r_game room).
Proof.
  unfold advanceTurn. intros H.
  destruct (r_game room) as [g|] eqn:Hg.
  - destruct (nthZ _ _) as [p|]; [discriminate|]. by inversion H.
  - inversion H; subst. by rewrite Hg.
Qed.

Lemma checkAndFinalizeIfEnded_inr room room' ended :
  checkAndFinalizeIfEnded room = (room', inr ended) →
  ∃ g, r_game room = Some g
       ∧ ended = gameHasEnded (r_players room) g
       ∧ room' = if ended
                 then withStatus (withPlayers room (finalScores (r_players room))) finished
                 else room.
Proof.
  unfold checkAndFinalizeIfEnded. intros H.
  destruct (r_game room) as [g|]; [|discriminate].
  exists g. split; [done|]. destruct (gameHasEnded _ g); by inversion H.
Qed.

Lemma checkAndFinalizeIfEnded_inl room room' e :
  checkAndFinalizeIfEnded room = (room', inl e) → r_game room = None ∧ room' = room.
Proof.
  unfold checkAndFinalizeIfEnded. intros H.
  destruct (r_game room) as [g|]; [|by inversion H].
  destruct (gameHasEnded _ g); discriminate.
Qed.

(** A move that returns went through [advanceTurn] once and then through
    [checkAndFinalizeIfEnded]. *)
Lemma finishMove_inr tTurn m room room' move ended :
  finishMove tTurn m room = (room', inr (move, ended)) →
  ∃ g p mid,
    move = m
    ∧ r_game room = Some g
    ∧ nthZ (r_players room)
        (Z.rem (g_turnIndex g + 1) (Z.of_nat (length (r_players room)))) = Some p
    ∧ mid = withGame room (Some
        (turnPassedTo g (Z.rem (g_turnIndex g + 1) (Z.of_nat (length (r_players room))))
           p tTurn))
    ∧ checkAndFinalizeIfEnded mid = (room', inr ended).
Proof.
  unfold finishMove. intros H.
  destruct (advanceTurn tTurn room) as [room1 [e|u]] eqn:Ha; [discriminate|].
  apply advanceTurn_inr in Ha as (g & p & Hg & Hp & ->).
  destruct (checkAndFinalizeIfEnded _) as [room2 [e|en]] eqn:Hc; [discriminate|].
  inversion H; subst. exists g, p. eexists. repeat split; eauto.
Qed.

Lemma finishMove_inl tTurn m room room' e :
  finishMove tTurn m room = (room', inl e) →
  is_Some (r_game room) →
  e = TypeError
  ∧ r_players room' = r_players room
  ∧ r_status room' = r_status room
  ∧ (g_version <$> r_game room') = (g_version <$> r_game room).
Proof.
  unfold finishMove. intros H [g Hg].
  destruct (advanceTurn tTurn room) as [room1 [e1|u]] eqn:Ha.
  - inversion H; subst. by apply advanceTurn_inl in Ha.
  - apply advanceTurn_inr in Ha as (g' & p & Hg' & Hp & ->).
    destruct (checkAndFinalizeIfEnded _) as [room2 [e2|en]] eqn:Hc; [|discriminate].
    apply checkAndFinalizeIfEnded_inl in Hc as [Hc _]. discriminate.
Qed.

Section PlayMoveInversion.

Variable isWordValid : string → bool.
Variables (tMove tTurn : Z) (rnd : nat → nat).

Lemma playMove_inr room pid action pls ids room' move ended :
  playMove isWordValid tMove tTurn rnd room pid action pls ids
    = (room', inr (move, ended)) →
  ∃ g idx player m mid,
    r_game room = Some g
    ∧ list_find (λ p, p_id p = pid) (r_players room) = Some (idx, player)
    ∧ g_activePlayerId g = pid
    ∧ Applies isWordValid tMove rnd room pid g idx player action pls ids m mid
    ∧ finishMove tTurn m mid = (room', inr (move, ended)).
Proof.
  unfold playMove. intros H.
  destruct (r_game room) as [g|] eqn:Hg; [|discriminate].
  destruct (list_find _ _) as [[idx player]|] eqn:Hf; [|discriminate].
  destruct (bool_decide (g_activePlayerId g = pid)) eqn:Ha; [|discriminate].
  apply bool_decide_eq_true in Ha. simpl in H.
  exists g, idx, player.
  destruct action.
  - destruct (validatePlay _ _ _ _) as [e|plan] eqn:Hv; [discriminate|].
    destruct (placeTiles _ _ _ _ _) as [board' [e|]] eqn:Hp; [discriminate|].
    destruct (drawTiles _ _) as [drawn bag'] eqn:Hd.
    do 2 eexists. split; [done|]. split; [done|]. split; [done|].
    split; [|exact H]. by eapply applies_play.
  - do 2 eexists. split; [done|]. split; [done|]. split; [done|].
    split; [|exact H]. constructor.
  - destruct (decide (length (default [] ids) = 0%nat)); [discriminate|].
    destruct (decide (length (g_bag g) < length (default [] ids))%nat); [discriminate|].
    destruct (forallb _ _) eqn:Hown; [|discriminate]. simpl in H.
    destruct (drawTiles _ _) as [drawn bag'] eqn:Hd.
    do 2 eexists. split; [done|]. split; [done|]. split; [done|].
    split; [|exact H]. eapply applies_exchange; eauto; [lia|].
    intros i Hi. rewrite forallb_forall in Hown.
    apply list_elem_of_In, Hown, bool_decide_eq_true in Hi.
    unfold rackIdSet in Hi. by apply elem_of_list_to_set in Hi.
Qed.

End PlayMoveInversion.

End LifecycleFacts.

(** ** Turn pointer and version *)

Section TurnFacts.

Import Game.

Lemma finalScores_length players : length (finalScores players) = length players.
Proof.
  unfold finalScores. destruct (finisherIndex players);
    rewrite ?length_alter, length_map; done.
Qed.

Lemma finalScores_lookup_id players i :
  p_id <$> (finalScores players !! i) = p_id <$> (players !! i).
Proof.
  unfold finalScores.
  assert (p_id <$> (map (λ p, withScore p (p_score p - rackValue p)) players !! i)
          = p_id <$> (players !! i)) as Hm.
  { change (map ?f players) with (f <$> players). rewrite list_lookup_fmap.
    by destruct (players !! i). }
  destruct (finisherIndex players) as [j|]; [|done].
  destruct (decide (i = j)) as [->|Hne].
  - rewrite list_lookup_alter_eq, <- Hm.
    by destruct (map _ players !! j).
  - by rewrite list_lookup_alter_ne.
Qed.

Lemma rem_index_mod a n r :
  0 < n → Z.rem a n = r → 0 ≤ r → r = a mod n.
Proof.
  intros Hn <- Hr. destruct (Z_le_gt_dec 0 a) as [Ha|Ha].
  - by rewrite Z.rem_mod_nonneg by lia.
  - assert (Z.rem a n ≤ 0) by (apply Z.rem_nonpos; lia).
    assert (Z.rem a n = 0) as H0 by lia. rewrite H0.
    symmetry. apply Z.rem_mod_eq_0; [lia|done].
Qed.

Lemma placeTiles_error rack pid turn pls : ∀ board board' e,
  placeTiles rack pid turn pls board = (board', Some e) → e = TypeError.
Proof.
  induction pls as [|pl pls IH]; intros board board' e H; simpl in H; [discriminate|].
  destruct (findTile rack (pl_tileId pl)); [|by inversion H].
  destruct (cellAt board (pl_x pl) (pl_y pl)); [|by inversion H].
  by eapply IH.
Qed.

Section OneMove.

Variable isWordValid : string → bool.
Variables (tMove tTurn : Z) (rnd : nat → nat).

(** What a move that went through leaves in the turn fields. *)
Lemma playMove_turn room pid action pls ids room' move ended g :
  r_game room = Some g →
  playMove isWordValid tMove tTurn rnd room pid action pls ids
    = (room', inr (move, ended)) →
  ∃ g' p,
    r_game room' = Some g'
    ∧ length (r_players room') = length (r_players room)
    ∧ g_turnIndex g' = (g_turnIndex g + 1) mod Z.of_nat (length (r_players room))
    ∧ nthZ (r_players room') (g_turnIndex g') = Some p
    ∧ g_activePlayerId g' = p_id p
    ∧ g_turnDurationMs g' = g_turnDurationMs g
    ∧ g_turnEndsAt g' = tTurn + g_turnDurationMs g
    ∧ g_version g' = g_version g + 1.
Proof.
  intros Hg H.
  apply playMove_inr in H as (g0 & idx & player & m & mid & Hg0 & Hf & Ha & Happ & Hfin).
  assert (g0 = g) as -> by congruence.
  apply finishMove_inr in Hfin as (gm & p & mid' & -> & Hgm & Hp & -> & Hc).
  apply checkAndFinalizeIfEnded_inr in Hc as (g' & Hg' & Hend & ->).
  simpl in Hg'. inversion Hg'; subst g'. clear Hg'.
  assert (r_players mid = <[idx := (default player (r_players mid !! idx))]> (r_players room)
          ∧ g_turnIndex gm = g_turnIndex g
          ∧ g_turnDurationMs gm = g_turnDurationMs g
          ∧ g_version gm = g_version g) as (Hps & Hti & Hdur & Hver).
  { apply list_find_Some in Hf as (Hl & _).
    apply lookup_lt_Some in Hl.
    inversion Happ; subst; simpl in Hgm; inversion Hgm; subst gm; simpl;
      rewrite list_lookup_insert_eq by done; done. }
  assert (length (r_players mid) = length (r_players room)) as Hlen.
  { rewrite Hps. apply length_insert. }
  set (ti := Z.rem (g_turnIndex gm + 1) (Z.of_nat (length (r_players mid)))) in *.
  apply nthZ_Some in Hp as Hrange. destruct Hrange as [Hrange Hlook].
  assert (ti = (g_turnIndex g + 1) mod Z.of_nat (length (r_players room))) as Hmod.
  { rewrite <- Hti, <- Hlen. apply rem_index_mod; [lia|done|lia]. }
  destruct (gameHasEnded _ _) eqn:He; subst ended; simpl.
  - assert (∃ p', nthZ (finalScores (r_players mid)) ti = Some p' ∧ p_id p' = p_id p)
      as (p' & Hp' & Hid).
    { unfold nthZ. destruct (0 <=? ti) eqn:Hle; [|lia].
      pose proof (finalScores_lookup_id (r_players mid) (Z.to_nat ti)) as Hfs.
      rewrite Hlook in Hfs. simpl in Hfs.
      destruct (finalScores (r_players mid) !! Z.to_nat ti) as [p'|]; [|done].
      exists p'. split; [done|]. simpl in Hfs. congruence. }
    exists (turnPassedTo gm ti p tTurn), p'. simpl.
    rewrite finalScores_length, Hid, Hdur, Hver. done.
  - exists (turnPassedTo gm ti p tTurn), p. simpl.
    rewrite Hdur, Hver. done.
Qed.

(** A move that is refused leaves the version as it was, and the whole
    room unless the refusal is an engine [TypeError]. *)
Lemma playMove_inl room pid action pls ids room' e :
  playMove isWordValid tMove tTurn rnd room pid action pls ids = (room', inl e) →
  (e ≠ TypeError → room' = room)
  ∧ (g_version <$> r_game room') = (g_version <$> r_game room).
Proof.
  unfold playMove. intros H.
  destruct (r_game room) as [g|] eqn:Hg; [|inversion H; subst; by rewrite Hg].
  destruct (list_find _ _) as [[idx player]|] eqn:Hf;
    [|inversion H; subst; by rewrite Hg].
  destruct (bool_decide (g_activePlayerId g = pid)) eqn:Ha; simpl in H;
    [|inversion H; subst; by rewrite Hg].
  destruct action.
  - destruct (validatePlay _ _ _ _) as [e'|plan] eqn:Hv;
      [inversion H; subst; by rewrite Hg|].
    destruct (placeTiles _ _ _ _ _) as [board' [e'|]] eqn:Hp.
    + apply placeTiles_error in Hp as ->. inversion H; subst. simpl.
      split; [intros []|]; done.
    + destruct (drawTiles _ _) as [drawn bag'] eqn:Hd.
      apply finishMove_inl in H as (-> & _ & _ & Hv'); [|by eexists].
      split; [done|]. by rewrite Hv'.
  - apply finishMove_inl in H as (-> & _ & _ & Hv'); [|by eexists].
    split; [done|]. by rewrite Hv'.
  - destruct (decide (length (default [] ids) = 0%nat));
      [inversion H; subst; by rewrite Hg|].
    destruct (decide (length (g_bag g) < length (default [] ids))%nat);
      [inversion H; subst; by rewrite Hg|].
    destruct (forallb _ _) eqn:Hown; simpl in H;
      [|inversion H; subst; by rewrite Hg].
    destruct (drawTiles _ _) as [drawn bag'] eqn:Hd.
    apply finishMove_inl in H as (-> & _ & _ & Hv'); [|by eexists].
    split; [done|]. by rewrite Hv'.
Qed.

End OneMove.

Lemma runMoves_version isWordValid reqs : ∀ room g,
  r_game room = Some g →
  ∃ g', r_game (fst (runMoves isWordValid room reqs)) = Some g'
        ∧ g_version g'
          = g_version g + Z.of_nat (snd (runMoves isWordValid room reqs)).
Proof.
  induction reqs as [|rq reqs IH]; intros room g Hg; simpl.
  - exists g. split; [done|lia].
  - destruct (submit isWordValid room rq) as [room1 [e|[move ended]]] eqn:Hp;
      unfold submit in Hp.
    + apply playMove_inl in Hp as [_ Hv]. rewrite Hg in Hv. simpl in Hv.
      destruct (r_game room1) as [g1|] eqn:Hg1; [|done].
      simpl in Hv. destruct (IH room1 g1 Hg1) as (g' & Hg' & Hver).
      simpl. destruct (runMoves isWordValid room1 reqs) as [room2 n]. simpl in *.
      exists g'. split; [done|]. assert (g_version g1 = g_version g) by congruence.
      unfold succeeded. simpl. lia.
    + eapply playMove_turn in Hp as (g1 & p & Hg1 & _ & _ & _ & _ & _ & _ & Hver1); [|done].
      destruct (IH room1 g1 Hg1) as (g' & Hg' & Hver).
      simpl. destruct (runMoves isWordValid room1 reqs) as [room2 n]. simpl in *.
      exists g'. split; [done|]. unfold succeeded. simpl. lia.
Qed.

(** C8. A move that goes through (a play, a pass, an exchange; the timer's
    pass is the same call) moves the turn to index
    [(turnIndex + 1) mod players.size], makes the player at that index the
    active one, sets the deadline to the clock's reading plus the turn
    duration and adds one to the version; over any sequence of submissions
    the version grows by the number of those that went through. *)
Theorem successful_move_advances_turn_once isWordValid :
  (∀ tMove tTurn rnd room pid action pls ids room' move ended g,
     r_game room = Some g →
     playMove isWordValid tMove tTurn rnd room pid action pls ids
       = (room', inr (move, ended)) →
     ∃ g' p,
       r_game room' = Some g'
       ∧ length (r_players room') = length (r_players room)
       ∧ g_turnIndex g' = (g_turnIndex g + 1) mod Z.of_nat (length (r_players room))
       ∧ nthZ (r_players room') (g_turnIndex g') = Some p
       ∧ g_activePlayerId g' = p_id p
       ∧ g_turnEndsAt g' = tTurn + g_turnDurationMs g
       ∧ g_version g' = g_version g + 1)
  ∧ (∀ room reqs g,
       r_game room = Some g →
       ∃ g', r_game (fst (runMoves isWordValid room reqs)) = Some g'
             ∧ g_version g'
               = g_version g + Z.of_nat (snd (runMoves isWordValid room reqs))).
Proof.
  split.
  - intros tMove tTurn rnd room pid action pls ids room' move ended g Hg H.
    destruct (playMove_turn _ _ _ _ _ _ _ _ _ _ _ _ _ Hg H)
      as (g' & p & ? & ? & ? & ? & ? & ? & ? & ?).
    exists g', p. done.
  - intros room reqs g Hg. by apply runMoves_version.
Qed.

End TurnFacts.

Section TurnExamples.

Import Js Spec Examples.

(** Ann's opening AS passes the turn to Bob, at index 1, and makes the
    version 2. *)
Lemma turn_advance_witness :
  ∃ g' p,
    r_game afterAS = Some g'
    ∧ length (r_players afterAS) = length (r_players opening)
    ∧ g_turnIndex g'
      = (g_turnIndex openingGame + 1) mod Z.of_nat (length (r_players opening))
    ∧ nthZ (r_players afterAS) (g_turnIndex g') = Some p
    ∧ g_activePlayerId g' = p_id p
    ∧ g_turnEndsAt g' = 1001 + g_turnDurationMs openingGame
    ∧ g_version g' = g_version openingGame + 1.
Proof.
  apply (proj1 (successful_move_advances_turn_once dictionary) 1000 1001 rnd0
           opening "ann" play (Some [at_ 7 7 "a1"; at_ 8 7 "a2"]) None afterAS
           (buildMoveSummary 1000 play "ann" [at_ 7 7 "a1"; at_ 8 7 "a2"] 4
              openingGame ["AS"]) false openingGame).
  - reflexivity.
  - vm_compute. reflexivity.
Defined.

End TurnExamples.

(** ** The legality checks of a play *)

Section CheckFacts.

Import Js Spec.

Lemma nthZ_None_out {A} (l : list A) i :
  ¬ (0 ≤ i < Z.of_nat (length l)) → nthZ l i = None.
Proof.
  unfold nthZ. intros H. destruct (0 <=? i) eqn:Hi; [|done].
  apply Z.leb_le in Hi. apply lookup_ge_None. lia.
Qed.

Lemma hasTile_outside board x y :
  wfBoard board → ¬ (0 ≤ x < 15 ∧ 0 ≤ y < 15) → hasTile board x y = false.
Proof.
  intros [Hrows Hcols] Hout. unfold hasTile, tileAt, cellAt.
  destruct (nthZ board y) as [r|] eqn:Hr; [|done].
  unfold nthZ in Hr. destruct (0 <=? y) eqn:Hy; [|done]. apply Z.leb_le in Hy.
  assert (length r = 15%nat) as Hlen.
  { rewrite Forall_forall in Hcols. apply Hcols. by eapply list_elem_of_lookup_2. }
  apply lookup_lt_Some in Hr.
  rewrite nthZ_None_out; [done|]. lia.
Qed.

(** Check 2. *)
Lemma checkCells_None board pls : checkCells board pls = None ↔ check2 board pls.
Proof.
  unfold check2, inBounds, targetsEmptyCell.
  induction pls as [|p pls IH]; simpl; [by split; [constructor|]|].
  rewrite Forall_cons.
  destruct (pl_x p <? 0) eqn:H1; [split; [done|]; apply Z.ltb_lt in H1; lia|].
  destruct (15 <=? pl_x p) eqn:H2; [split; [done|]; apply Z.leb_le in H2; lia|].
  destruct (pl_y p <? 0) eqn:H3; [split; [done|]; apply Z.ltb_lt in H3; lia|].
  destruct (15 <=? pl_y p) eqn:H4; [split; [done|]; apply Z.leb_le in H4; lia|].
  simpl. apply Z.ltb_ge in H1, H3. apply Z.leb_gt in H2, H4.
  destruct (hasTile board (pl_x p) (pl_y p)); [split; [done|]; intros [[_ ?] _]; done|].
  rewrite IH. split; [intros ?; repeat split; auto; lia | tauto].
Qed.

Lemma checkCells_Some board pls e :
  checkCells board pls = Some e → checkOf e = Some 2%nat.
Proof.
  induction pls as [|p pls IH]; simpl; [done|].
  destruct (_ || _); [by intros [= <-]|].
  destruct (hasTile _ _ _); [by intros [= <-]|done].
Qed.

(** Check 3. *)
Lemma checkTiles_inr (rackIds : gset string) pls : ∀ used : gset string,
  (∃ u, checkTiles rackIds used pls = inr u)
  ↔ Forall (λ p, pl_tileId p ∈ rackIds) pls
    ∧ NoDup (map pl_tileId pls)
    ∧ Forall (λ p, pl_tileId p ∉ used) pls.
Proof.
  induction pls as [|p pls IH]; intros used; simpl.
  - split; [intros _; repeat split; constructor | eauto].
  - rewrite !Forall_cons, NoDup_cons.
    destruct (decide (pl_tileId p ∈ rackIds)) as [Hin|Hout].
    + rewrite bool_decide_eq_true_2 by done. simpl.
      destruct (decide (pl_tileId p ∈ used)) as [Hu|Hu].
      * rewrite bool_decide_eq_true_2 by done. split; [by intros [? ?]|tauto].
      * rewrite bool_decide_eq_false_2 by done. rewrite IH.
        rewrite !Forall_forall. split.
        -- intros (H1 & H2 & H3). repeat split; auto.
           ++ intros Hin'. apply list_elem_of_fmap in Hin' as (q & Hq & Hq').
              apply (H3 q Hq'). rewrite <- Hq.
              apply elem_of_union. left. by apply elem_of_singleton.
           ++ intros q Hq Hin'. apply (H3 q Hq). apply elem_of_union. by right.
        -- intros ((_ & H1) & (Hn & H2) & (_ & H3)). repeat split; auto.
           intros q Hq. specialize (H3 q Hq).
           assert (pl_tileId q ≠ pl_tileId p).
           { intros Heq. apply Hn. rewrite <- Heq.
             apply list_elem_of_fmap. eauto. }
           rewrite elem_of_union, elem_of_singleton. tauto.
    + rewrite bool_decide_eq_false_2 by done. simpl. split; [by intros [? ?]|tauto].
Qed.

Lemma checkTiles_inl (rackIds : gset string) pls : ∀ (used : gset string) e,
  checkTiles rackIds used pls = inl e → checkOf e = Some 3%nat.
Proof.
  induction pls as [|p pls IH]; intros used e; simpl; [done|].
  destruct (negb _); [by intros [= <-]|].
  destruct (bool_decide _); [by intros [= <-]|]. apply IH.
Qed.

Lemma elem_of_rackIdSet rack i : i ∈ rackIdSet rack ↔ i ∈ map t_id rack.
Proof. unfold rackIdSet. apply elem_of_list_to_set. Qed.

Lemma checkTiles_check3 rack pls :
  (∃ u, checkTiles (rackIdSet rack) ∅ pls = inr u) ↔ check3 rack pls.
Proof.
  rewrite checkTiles_inr. unfold check3. rewrite !Forall_forall.
  setoid_rewrite elem_of_rackIdSet. split; [tauto|].
  intros [? ?]. repeat split; auto. intros q _. apply not_elem_of_empty.
Qed.

(** Check 4. *)
Lemma sameRow_spec pls : sameRow pls = true ↔ ∃ y, Forall (λ p, pl_y p = y) pls.
Proof.
  unfold sameRow. destruct pls as [|p0 pls]; simpl.
  - split; [exists 0; constructor|done].
  - rewrite Z.eqb_refl. simpl. rewrite forallb_forall. split.
    + intros H. exists (pl_y p0). constructor; [done|].
      apply Forall_forall. intros q Hq. apply Z.eqb_eq, H. by apply list_elem_of_In.
    + intros [y Hy]. apply Forall_cons in Hy as [<- Hy].
      rewrite Forall_forall in Hy. intros q Hq. apply Z.eqb_eq, Hy.
      by apply list_elem_of_In.
Qed.

Lemma sameCol_spec pls : sameCol pls = true ↔ ∃ x, Forall (λ p, pl_x p = x) pls.
Proof.
  unfold sameCol. destruct pls as [|p0 pls]; simpl.
  - split; [exists 0; constructor|done].
  - rewrite Z.eqb_refl. simpl. rewrite forallb_forall. split.
    + intros H. exists (pl_x p0). constructor; [done|].
      apply Forall_forall. intros q Hq. apply Z.eqb_eq, H. by apply list_elem_of_In.
    + intros [x Hx]. apply Forall_cons in Hx as [<- Hx].
      rewrite Forall_forall in Hx. intros q Hq. apply Z.eqb_eq, Hx.
      by apply list_elem_of_In.
Qed.

Lemma aligned_check4 pls :
  negb (sameRow pls) && negb (sameCol pls) = false ↔ check4 pls.
Proof.
  unfold check4. rewrite <- sameRow_spec, <- sameCol_spec.
  destruct (sameRow pls), (sameCol pls); simpl; intuition discriminate.
Qed.

(** Check 5. *)
Lemma coversCenter_spec pls :
  coversCenter pls = true ↔ Exists (λ p, pl_x p = 7 ∧ pl_y p = 7) pls.
Proof.
  unfold coversCenter. rewrite existsb_exists, Exists_exists. split.
  - intros (p & Hp & Hc). exists p. apply list_elem_of_In in Hp.
    apply andb_true_iff in Hc as [?%Z.eqb_eq ?%Z.eqb_eq]. done.
  - intros (p & Hp & Hx & Hy). exists p. rewrite <- list_elem_of_In.
    split; [done|]. rewrite Hx, Hy. done.
Qed.

Lemma center_check5 board pls :
  boardIsEmpty board && negb (coversCenter pls) = false ↔ check5 board pls.
Proof.
  unfold check5. rewrite <- coversCenter_spec.
  destruct (boardIsEmpty board), (coversCenter pls); simpl; intuition discriminate.
Qed.

(** The placement info exists as soon as the tiles are on the rack. *)
Lemma findTile_is_Some rack i : i ∈ map t_id rack → is_Some (findTile rack i).
Proof.
  intros Hin. apply list_elem_of_fmap in Hin as (t & -> & Ht).
  unfold findTile.
  destruct (list_find_elem_of (λ t', t_id t' = t_id t) rack t Ht eq_refl) as [[j t'] Hf].
  rewrite Hf. by eexists.
Qed.

Lemma findTile_Some rack i t : findTile rack i = Some t → t ∈ rack ∧ t_id t = i.
Proof.
  unfold findTile. destruct (list_find _ rack) as [[j t']|] eqn:Hf; [|done].
  intros [= <-]. apply list_find_Some in Hf as (Hl & Hid & _).
  split; [by eapply list_elem_of_lookup_2|done].
Qed.

Lemma buildPlacementInfo_is_Some rack pls : ∀ info,
  Forall (λ p, pl_tileId p ∈ map t_id rack) pls →
  is_Some (buildPlacementInfo rack pls info).
Proof.
  induction pls as [|p pls IH]; intros info H; simpl; [by eexists|].
  apply Forall_cons in H as [Hp H].
  destruct (findTile_is_Some rack _ Hp) as [t ->]. by apply IH.
Qed.

End CheckFacts.

(** ** The main word: contiguity and connection *)

Section MainWordFacts.

Import Js Spec.

Lemma includesChar_app c s1 s2 :
  includesChar c (s1 +:+ s2) = includesChar c s1 || includesChar c s2.
Proof.
  induction s1 as [|d s1 IH]; simpl; [done|]. rewrite IH. by rewrite orb_assoc.
Qed.

Lemma orString_empty_r s : orString s "" = s.
Proof. by destruct s. Qed.

Lemma findPlacement_is_Some pls x y :
  is_Some (findPlacement pls x y) ↔ placedOn pls (x, y).
Proof.
  unfold findPlacement, placedOn. rewrite Exists_exists. simpl. split.
  - intros [p Hp]. destruct (list_find _ pls) as [[j q]|] eqn:Hf; [|done].
    apply list_find_Some in Hf as (Hl & Hq & _). exists q.
    split; [by eapply list_elem_of_lookup_2|done].
  - intros (p & Hp & Hx & Hy).
    destruct (list_find_elem_of (λ q, pl_x q = x ∧ pl_y q = y) pls p Hp) as [[j q] Hf];
      [done|]. rewrite Hf. by eexists.
Qed.

Lemma range_elem lo hi k : k ∈ range lo hi ↔ lo ≤ k ≤ hi.
Proof. unfold range. rewrite elem_of_seqZ. lia. Qed.

Lemma forallb_range (P : Z → bool) lo hi :
  forallb P (range lo hi) = true ↔ ∀ k, lo ≤ k ≤ hi → P k = true.
Proof.
  rewrite forallb_forall. split.
  - intros H k Hk. apply H, list_elem_of_In, range_elem, Hk.
  - intros H k Hk. apply H, range_elem, list_elem_of_In, Hk.
Qed.

Lemma existsb_range (P : Z → bool) lo hi :
  existsb P (range lo hi) = true ↔ ∃ k, lo ≤ k ≤ hi ∧ P k = true.
Proof.
  rewrite existsb_exists. split.
  - intros (k & Hk & HP). exists k. split; [|done]. by apply range_elem, list_elem_of_In.
  - intros (k & Hk & HP). exists k. split; [|done]. by apply list_elem_of_In, range_elem.
Qed.

(** The two expansion loops stop where the source's [while] stops: the
    bound on the number of iterations is never what ends them. *)
Lemma expandDown_exact occupied fuel : ∀ k,
  (Z.to_nat k ≤ fuel)%nat →
  let lo := expandDown occupied fuel k in
  lo ≤ k
  ∧ (∀ j, lo ≤ j < k → 0 ≤ j ∧ occupied j = true)
  ∧ ((0 <=? lo - 1) && occupied (lo - 1) = false).
Proof.
  induction fuel as [|fuel IH]; intros k Hfuel; simpl.
  - split; [lia|]. split; [lia|].
    apply andb_false_iff. left. apply Z.leb_gt. lia.
  - destruct ((0 <=? k - 1) && occupied (k - 1)) eqn:Hc; [|by (split; [lia|split; [lia|]])].
    apply andb_true_iff in Hc as [Hk Ho]. apply Z.leb_le in Hk.
    destruct (IH (k - 1) ltac:(lia)) as (Hle & Hbetween & Hexit).
    split; [lia|]. split; [|done].
    intros j Hj. destruct (decide (j = k - 1)) as [->|]; [by split; [lia|]|].
    apply Hbetween. lia.
Qed.

Lemma expandUp_exact occupied fuel : ∀ k,
  (Z.to_nat (14 - k) ≤ fuel)%nat →
  let hi := expandUp occupied fuel k in
  k ≤ hi
  ∧ (∀ j, k < j ≤ hi → j < 15 ∧ occupied j = true)
  ∧ ((hi + 1 <? 15) && occupied (hi + 1) = false).
Proof.
  induction fuel as [|fuel IH]; intros k Hfuel; simpl.
  - split; [lia|]. split; [lia|].
    apply andb_false_iff. left. apply Z.ltb_ge. lia.
  - destruct ((k + 1 <? 15) && occupied (k + 1)) eqn:Hc; [|by (split; [lia|split; [lia|]])].
    apply andb_true_iff in Hc as [Hk Ho]. apply Z.ltb_lt in Hk.
    destruct (IH (k + 1) ltac:(lia)) as (Hle & Hbetween & Hexit).
    split; [lia|]. split; [|done].
    intros j Hj. destruct (decide (j = k + 1)) as [->|]; [by split; [lia|]|].
    apply Hbetween. lia.
Qed.

Lemma lowEnd_exact occupied k :
  lowEnd occupied k ≤ k
  ∧ (∀ j, lowEnd occupied k ≤ j < k → 0 ≤ j ∧ occupied j = true)
  ∧ ((0 <=? lowEnd occupied k - 1) && occupied (lowEnd occupied k - 1) = false).
Proof. by apply expandDown_exact. Qed.

Lemma highEnd_exact occupied k :
  k ≤ highEnd occupied k
  ∧ (∀ j, k < j ≤ highEnd occupied k → j < 15 ∧ occupied j = true)
  ∧ ((highEnd occupied k + 1 <? 15) && occupied (highEnd occupied k + 1) = false).
Proof. by apply expandUp_exact. Qed.

Section Scan.

Variables (board : Board) (pls : list MovePlacement) (info : gmap (Z * Z) Info).
Variables (dir : Direction) (f : Z).

(** The letters the scan reads carry no gap mark. *)
Hypothesis board_plain :
  ∀ x y t, tileAt board x y = Some t → plainLetter (tb_tile t).
Hypothesis info_plain :
  ∀ xy i, info !! xy = Some i → includesChar "." (i_letter i) = false.

Lemma boardLetter_plain x y t :
  tileAt board x y = Some t → includesChar "." (boardLetter t) = false.
Proof.
  intros Ht. unfold boardLetter. destruct (t_isJoker _); [done|].
  rewrite orString_empty_r. by apply (board_plain x y).
Qed.

Lemma placedLetter_plain x y : includesChar "." (placedLetter info x y) = false.
Proof.
  unfold placedLetter. destruct (info !! (x, y)) as [i|] eqn:Hi; [|done].
  destruct (decide _); [done|].
  pose proof (info_plain _ _ Hi). by destruct (i_letter i).
Qed.

Lemma scanStep_result w cn ct k :
  ∃ s, scanStep board pls info dir f (w, cn, ct) k
       = (w +:+ s, cn || hasTileOn board dir f k, ct && filled board pls dir f k)
       ∧ includesChar "." s = negb (filled board pls dir f k).
Proof.
  unfold scanStep, filled, hasTileOn, hasTile.
  destruct (pos dir k f) as [x y] eqn:Hpos. simpl.
  destruct (tileAt board x y) as [t|] eqn:Ht; simpl.
  - exists (boardLetter t). rewrite orb_true_r, andb_true_r.
    split; [done|]. by apply (boardLetter_plain x y).
  - destruct (findPlacement pls x y) as [q|] eqn:Hq; simpl.
    + exists (placedLetter info x y).
      rewrite orb_false_r, andb_true_r. split; [done|]. apply placedLetter_plain.
    + exists ".". by rewrite orb_false_r, andb_false_r.
Qed.

Lemma scan_result ks : ∀ w cn ct,
  ∃ w', foldl (scanStep board pls info dir f) (w, cn, ct) ks
        = (w', cn || existsb (hasTileOn board dir f) ks,
           ct && forallb (filled board pls dir f) ks)
        ∧ includesChar "." w'
          = includesChar "." w || negb (forallb (filled board pls dir f) ks).
Proof.
  induction ks as [|k ks IH]; intros w cn ct; cbn [foldl existsb forallb].
  - exists w. by rewrite !orb_false_r, andb_true_r.
  - destruct (scanStep_result w cn ct k) as (s & -> & Hs).
    destruct (IH (w +:+ s) (cn || hasTileOn board dir f k)
                (ct && filled board pls dir f k)) as (w' & -> & Hw').
    exists w'. rewrite Hw', includesChar_app, Hs.
    rewrite <- !orb_assoc, <- !andb_assoc. split; [done|].
    by rewrite negb_andb.
Qed.

End Scan.

Lemma buildMainWord_flags board pls info dir :
  (∀ x y t, tileAt board x y = Some t → plainLetter (tb_tile t)) →
  (∀ xy i, info !! xy = Some i → includesChar "." (i_letter i) = false) →
  let main := buildMainWord board pls info dir in
  mw_contiguous main
    = forallb (filled board pls dir (mw_fixed main)) (range (mw_lo main) (mw_hi main))
  ∧ mw_connected main
    = existsb (hasTileOn board dir (mw_fixed main)) (range (mw_lo main) (mw_hi main))
      || existsb (adjacentToTile board dir (mw_fixed main)) pls.
Proof.
  intros Hb Hi. unfold buildMainWord.
  set (f := from_option (across dir) 0 (head pls)).
  set (lo := lowEnd _ _). set (hi := highEnd _ _).
  destruct (scan_result board pls info dir f Hb Hi (range lo hi) "" false true)
    as (w & -> & Hw).
  simpl in *. rewrite Hw.
  destruct (forallb _ _), (existsb (hasTileOn board dir f) _); done.
Qed.

Lemma hasTile_inside board x y :
  wfBoard board → hasTile board x y = true → 0 ≤ x < 15 ∧ 0 ≤ y < 15.
Proof.
  intros Hwf Ht.
  destruct (decide (0 ≤ x < 15 ∧ 0 ≤ y < 15)) as [|Hout]; [done|].
  rewrite (hasTile_outside _ _ _ Hwf Hout) in Ht. discriminate.
Qed.

Lemma adjacentToTile_spec board dir f p :
  wfBoard board → across dir p = f →
  adjacentToTile board dir f p = true ↔ orthogonallyAdjacent board p.
Proof.
  intros Hwf <-. unfold adjacentToTile, orthogonallyAdjacent.
  destruct dir; simpl; rewrite !orb_true_iff, !andb_true_iff, !Z.ltb_lt; split.
  - intros [[[[_ ?]|[_ ?]]|[_ ?]]|[_ ?]]; auto.
  - intros [H|[H|[H|H]]]; pose proof (hasTile_inside _ _ _ Hwf H);
      [left; left; left|left; left; right|left; right|right]; split; (lia || done).
  - intros [[[[_ ?]|[_ ?]]|[_ ?]]|[_ ?]]; auto.
  - intros [H|[H|[H|H]]]; pose proof (hasTile_inside _ _ _ Hwf H);
      [left; left; left|left; left; right|left; right|right]; split; (lia || done).
Qed.

(** Collinear placements lie on the line the engine works on. *)
Lemma placements_on_line pls :
  check4 pls → Forall (λ p, across (direction pls) p = lineOf pls) pls.
Proof.
  intros H4. unfold lineOf, direction.
  destruct (sameRow pls) eqn:Hr.
  - apply sameRow_spec in Hr as [y Hy]. destruct pls as [|p0 pls]; [constructor|].
    simpl. apply Forall_cons in Hy as Hy'. destruct Hy' as [<- _].
    eapply Forall_impl; [exact Hy|]. done.
  - destruct H4 as [Hy|[x Hx]].
    + apply sameRow_spec in Hy. congruence.
    + destruct pls as [|p0 pls]; [constructor|].
      simpl. apply Forall_cons in Hx as Hx'. destruct Hx' as [<- _].
      eapply Forall_impl; [exact Hx|]. done.
Qed.

Lemma filled_spec board pls dir f k :
  filled board pls dir f k = true
  ↔ hasTileOn board dir f k = true ∨ placedOn pls (pos dir k f).
Proof.
  unfold filled. rewrite orb_true_iff, bool_decide_eq_true, findPlacement_is_Some.
  by destruct (pos dir k f).
Qed.

Lemma buildMainWord_extent board pls info :
  let main := buildMainWord board pls info (direction pls) in
  mw_lo main = mainLow board pls
  ∧ mw_hi main = mainHigh board pls
  ∧ mw_fixed main = lineOf pls.
Proof.
  unfold buildMainWord, mainLow, mainHigh, lineOf.
  destruct (foldl _ _ _) as [[w cn] ct]. done.
Qed.

(** Check 6, as the engine decides it. *)
Lemma contiguous_check6 board pls info :
  (∀ x y t, tileAt board x y = Some t → plainLetter (tb_tile t)) →
  (∀ xy i, info !! xy = Some i → includesChar "." (i_letter i) = false) →
  mw_contiguous (buildMainWord board pls info (direction pls)) = true
  ↔ check6 board pls.
Proof.
  intros Hb Hi.
  destruct (buildMainWord_flags board pls info (direction pls) Hb Hi) as [-> _].
  destruct (buildMainWord_extent board pls info) as (-> & -> & ->).
  rewrite forallb_range. unfold check6.
  split; intros H k Hk; apply filled_spec, H, Hk.
Qed.

(** Check 7, as the engine decides it. *)
Lemma connected_check7 board pls info :
  wfBoard board →
  (∀ x y t, tileAt board x y = Some t → plainLetter (tb_tile t)) →
  (∀ xy i, info !! xy = Some i → includesChar "." (i_letter i) = false) →
  check4 pls →
  negb (boardIsEmpty board)
    && negb (mw_connected (buildMainWord board pls info (direction pls))) = false
  ↔ check7 board pls.
Proof.
  intros Hwf Hb Hi H4.
  destruct (buildMainWord_flags board pls info (direction pls) Hb Hi) as [_ ->].
  destruct (buildMainWord_extent board pls info) as (-> & -> & ->).
  unfold check7.
  assert (existsb (adjacentToTile board (direction pls) (lineOf pls)) pls = true
          ↔ Exists (orthogonallyAdjacent board) pls) as Hadj.
  { pose proof (placements_on_line pls H4) as Hline. rewrite Forall_forall in Hline.
    rewrite existsb_exists, Exists_exists. split.
    - intros (p & Hp & Ha). apply list_elem_of_In in Hp. exists p. split; [done|].
      by apply (adjacentToTile_spec board _ _ p Hwf (Hline p Hp)).
    - intros (p & Hp & Ha). exists p. split; [by apply list_elem_of_In|].
      by apply (adjacentToTile_spec board _ _ p Hwf (Hline p Hp)). }
  rewrite <- Hadj, <- existsb_range.
  destruct (boardIsEmpty board), (existsb (hasTileOn _ _ _) _), (existsb (adjacentToTile _ _ _) _);
    simpl; intuition discriminate.
Qed.

End MainWordFacts.

(** ** The order of the legality checks *)

Section CheckOrder.

Import Js Spec.

Lemma buildPlacementInfo_lookup rack pls : ∀ info0 info xy i,
  buildPlacementInfo rack pls info0 = Some info →
  info !! xy = Some i →
  info0 !! xy = Some i
  ∨ ∃ p t, p ∈ pls ∧ (pl_x p, pl_y p) = xy
           ∧ findTile rack (pl_tileId p) = Some t
           ∧ i = infoOf t.
Proof.
  induction pls as [|p pls IH]; intros info0 info xy i H Hl; simpl in H.
  - left. congruence.
  - destruct (findTile rack (pl_tileId p)) as [t|] eqn:Ht; [|discriminate].
    destruct (IH _ _ xy i H Hl) as [H0|(q & t' & Hq & Hxy & Hf & Hi)].
    + destruct (decide ((pl_x p, pl_y p) = xy)) as [Heq|Hne].
      * rewrite Heq, lookup_insert_eq in H0. right. exists p, t.
        split; [apply list_elem_of_here|]. split; [done|]. split; [done|]. congruence.
      * rewrite lookup_insert_ne in H0 by done. by left.
    + right. exists q, t'. split; [by apply list_elem_of_further|done].
Qed.

Lemma buildPlacementInfo_plain rack pls info :
  Forall plainLetter rack →
  buildPlacementInfo rack pls ∅ = Some info →
  ∀ xy i, info !! xy = Some i → includesChar "." (i_letter i) = false.
Proof.
  intros Hr H xy i Hi.
  destruct (buildPlacementInfo_lookup _ _ _ _ _ _ H Hi)
    as [H0|(p & t & _ & _ & Hf & ->)]; [by rewrite lookup_empty in H0|].
  simpl. rewrite orString_empty_r. apply findTile_Some in Hf as [Ht _].
  rewrite Forall_forall in Hr. by apply Hr.
Qed.

Lemma tileAt_boardTiles board x y t :
  tileAt board x y = Some t → tb_tile t ∈ boardTiles board.
Proof.
  unfold tileAt, cellAt, boardTiles. intros H.
  destruct (nthZ board y) as [r|] eqn:Hr; [|done].
  destruct (nthZ r x) as [c|] eqn:Hc; [|done].
  apply nthZ_Some in Hr as [_ Hr]. apply nthZ_Some in Hc as [_ Hc].
  apply list_elem_of_In, in_flat_map. exists r.
  split; [by eapply list_elem_of_In, list_elem_of_lookup_2|].
  apply in_flat_map. exists c.
  split; [by eapply list_elem_of_In, list_elem_of_lookup_2|].
  rewrite H. by left.
Qed.

Lemma firstFailing_is (checks : list Prop) k i c :
  firstFailing checks k →
  checks !! i = Some c → ¬ c →
  (∀ j c', (j < i)%nat → checks !! j = Some c' → c') →
  k = i.
Proof.
  intros [(ck & Hk & Hnk) Hprev] Hi Hni Hbefore.
  destruct (lt_eq_lt_dec k i) as [[Hlt| ->]|Hgt]; [|done|].
  - destruct Hnk. by apply (Hbefore k).
  - destruct Hni. by apply (Hprev i).
Qed.

Lemma firstFailing_some (checks : list Prop) k :
  firstFailing checks k → ¬ ∀ j c, checks !! j = Some c → c.
Proof. intros [(ck & Hk & Hnk) _] Hall. apply Hnk. by apply (Hall k). Qed.

Ltac earlier_checks :=
  let j := fresh "j" in
  let c := fresh "c" in
  let Hj := fresh "Hj" in
  let Hl := fresh "Hl" in
  intros j c Hj Hl;
  repeat (destruct j as [|j];
          [simpl in Hl; injection Hl as <-; assumption|]);
  (lia || (simpl in Hl; discriminate)).

Ltac this_check ff i :=
  rewrite (firstFailing_is _ _ i _ ff eq_refl); [done|assumption|earlier_checks].

(** The error of a refused play belongs to the first check that fails. *)
Lemma validatePlay_first_failing isWordValid g player pls k :
  wfBoard (g_board g) →
  Forall plainLetter (boardTiles (g_board g) ++ p_rack player) →
  firstFailing (legalityChecks isWordValid (g_board g) (p_rack player) pls) k →
  ∃ e, validatePlay isWordValid g player pls = inl e ∧ checkOf e = Some (S k).
Proof.
  intros Hwf Hplain Hff. apply Forall_app in Hplain as [Hpb Hpr].
  assert (∀ x y t, tileAt (g_board g) x y = Some t → plainLetter (tb_tile t)) as Hb.
  { intros x y t Ht. rewrite Forall_forall in Hpb.
    by apply Hpb, (tileAt_boardTiles _ x y). }
  unfold legalityChecks in Hff. unfold validatePlay.
  (* 1 *)
  destruct (decide (length pls = 0%nat)) as [Hlen|Hlen].
  { assert (¬ check1 pls) as H1 by (intros H; apply H; by destruct pls).
    eexists. split; [done|]. simpl. this_check Hff 0%nat. }
  assert (check1 pls) as H1 by (intros ->; done).
  (* 2 *)
  destruct (checkCells (g_board g) pls) as [e|] eqn:Hc.
  { assert (¬ check2 (g_board g) pls) as H2
      by (rewrite <- checkCells_None; congruence).
    exists e. split; [done|]. rewrite (checkCells_Some _ _ _ Hc).
    this_check Hff 1%nat. }
  apply checkCells_None in Hc as H2.
  (* 3 *)
  destruct (checkTiles _ ∅ pls) as [e|used] eqn:Ht.
  { assert (¬ check3 (p_rack player) pls) as H3.
    { rewrite <- checkTiles_check3. intros [u Hu]. congruence. }
    exists e. split; [done|]. rewrite (checkTiles_inl _ _ _ _ Ht).
    this_check Hff 2%nat. }
  assert (check3 (p_rack player) pls) as H3 by (apply checkTiles_check3; eauto).
  (* 4 *)
  destruct (negb (sameRow pls) && negb (sameCol pls)) eqn:Ha.
  { assert (¬ check4 pls) as H4 by (rewrite <- aligned_check4; congruence).
    eexists. split; [done|]. simpl. this_check Hff 3%nat. }
  apply aligned_check4 in Ha as H4.
  (* 5 *)
  destruct (boardIsEmpty (g_board g) && negb (coversCenter pls)) eqn:Hcen.
  { assert (¬ check5 (g_board g) pls) as H5 by (rewrite <- center_check5; congruence).
    eexists. split; [done|]. simpl. this_check Hff 4%nat. }
  apply center_check5 in Hcen as H5.
  destruct (buildPlacementInfo_is_Some (p_rack player) pls ∅ (proj1 H3)) as [info Hinfo].
  rewrite Hinfo.
  pose proof (buildPlacementInfo_plain _ _ _ Hpr Hinfo) as Hi.
  fold (direction pls).
  (* 6 *)
  destruct (mw_contiguous _) eqn:Hcont; cbn [negb].
  2:{ assert (¬ check6 (g_board g) pls) as H6
        by (rewrite <- (contiguous_check6 _ _ info Hb Hi); congruence).
      eexists. split; [done|]. simpl. this_check Hff 5%nat. }
  apply (contiguous_check6 _ _ info Hb Hi) in Hcont as H6.
  (* 7 *)
  destruct (negb (boardIsEmpty (g_board g)) && negb (mw_connected _)) eqn:Hconn.
  { assert (¬ check7 (g_board g) pls) as H7
      by (rewrite <- (connected_check7 _ _ info Hwf Hb Hi H4); congruence).
    eexists. split; [done|]. simpl. this_check Hff 6%nat. }
  apply (connected_check7 _ _ info Hwf Hb Hi H4) in Hconn as H7.
  (* 8 *)
  set (allWords := List.filter _ _).
  assert (list_find (λ w, isWordValid (normalizeWord w) = false) allWords = None
          → check8 isWordValid (g_board g) (p_rack player) pls) as H8.
  { intros Hnone w Hw Hlen2. apply list_find_None in Hnone.
    rewrite Forall_forall in Hnone.
    assert (w ∈ allWords) as Hin.
    { apply list_elem_of_In, filter_In. split.
      - apply list_elem_of_In. unfold wordsFormed in Hw. by rewrite Hinfo in Hw.
      - apply Nat.ltb_lt. lia. }
    specialize (Hnone w Hin). by destruct (isWordValid (normalizeWord w)). }
  destruct (list_find _ allWords) as [[j w]|] eqn:Hfind.
  2:{ exfalso. apply (firstFailing_some _ _ Hff). specialize (H8 eq_refl).
      intros j c Hl.
      do 8 (destruct j as [|j]; [simpl in Hl; injection Hl as <-; assumption|]).
      simpl in Hl. discriminate. }
  clear H8.
  assert (¬ check8 isWordValid (g_board g) (p_rack player) pls) as H8.
  { intros H8. apply list_find_Some in Hfind as (Hl & Hbad & _).
    apply list_elem_of_lookup_2, list_elem_of_In, filter_In in Hl as [Hw Hlen2].
    rewrite (H8 w) in Hbad; [done| |].
    - unfold wordsFormed. rewrite Hinfo. by apply list_elem_of_In.
    - apply Nat.ltb_lt in Hlen2. lia. }
  destruct (decide (length allWords = 0%nat)) as [Hnil|_].
  { apply list_find_Some in Hfind as (Hl & _). apply lookup_lt_Some in Hl. lia. }
  eexists. split; [done|]. simpl. this_check Hff 7%nat.
Qed.

End CheckOrder.

(** ** Refused moves *)

Section RefusalFacts.

Import Js Spec.

Lemma validatePlay_INVALID_WORD isWordValid g player pls w :
  validatePlay isWordValid g player pls = inl (INVALID_WORD w) →
  (1 < String.length w)%nat.
Proof.
  unfold validatePlay. intros H.
  destruct (decide _); [discriminate|].
  destruct (checkCells _ _) as [e|] eqn:Hc.
  { injection H as ->. by apply checkCells_Some in Hc. }
  destruct (checkTiles _ _ _) as [e|used] eqn:Ht.
  { injection H as ->. by apply checkTiles_inl in Ht. }
  destruct (_ && _); [discriminate|].
  destruct (_ && _); [discriminate|].
  destruct (buildPlacementInfo _ _ _); [|discriminate].
  destruct (negb _); [discriminate|].
  destruct (_ && _); [discriminate|].
  destruct (decide _); [discriminate|].
  destruct (list_find _ _) as [[j w']|] eqn:Hf; [|discriminate].
  injection H as ->.
  apply list_find_Some in Hf as (Hl & _).
  apply list_elem_of_lookup_2, list_elem_of_In, filter_In in Hl as [_ Hl].
  by apply Nat.ltb_lt in Hl.
Qed.

Lemma playMove_INVALID_WORD isWordValid tMove tTurn rnd room pid action pls ids room' w :
  playMove isWordValid tMove tTurn rnd room pid action pls ids
    = (room', inl (INVALID_WORD w)) →
  (1 < String.length w)%nat.
Proof.
  unfold playMove. intros H.
  destruct (r_game room) as [g|]; [|discriminate].
  destruct (list_find _ _) as [[idx player]|]; [|discriminate].
  destruct (negb _); [discriminate|].
  destruct action.
  - destruct (validatePlay _ _ _ _) as [e|plan] eqn:Hv.
    + injection H as _ ->. by apply validatePlay_INVALID_WORD in Hv.
    + destruct (placeTiles _ _ _ _ _) as [board' [e|]] eqn:Hp.
      * apply placeTiles_error in Hp as ->. discriminate.
      * destruct (drawTiles _ _).
        apply finishMove_inl in H as [? _]; [discriminate|by eexists].
  - apply finishMove_inl in H as [? _]; [discriminate|by eexists].
  - destruct (decide _); [discriminate|]. destruct (decide _); [discriminate|].
    destruct (negb _); [discriminate|]. destruct (drawTiles _ _).
    apply finishMove_inl in H as [? _]; [discriminate|by eexists].
Qed.

(** The reason sent for an error: its code, except for an invalid word,
    where it is the word. *)
Lemma reasonOf_spec e :
  (∀ w, e = INVALID_WORD w → w ≠ "") →
  reasonOf e = match e with INVALID_WORD w => w | _ => errMessage e end.
Proof.
  intros Hw. destruct e; try done.
  unfold reasonOf. simpl. specialize (Hw _ eq_refl). by destruct reason.
Qed.

(** C7 (amended). When [playMove] refuses a move with one of its own
    errors (anything but an engine [TypeError]), the room is exactly as
    before the call, the registry is unchanged, and the submitter alone
    receives one [invalidMove] whose reason is the error code, or the
    offending word when the error is [INVALID_WORD]. *)
Theorem refused_move_changes_nothing
    isWordValid tMove tTurn rnd rooms socketId payload room player room' e :
  rooms !! pm_roomId payload = Some room →
  playerBySocket room socketId = Some player →
  playMove isWordValid tMove tTurn rnd room (p_id player) (pm_action payload)
    (pm_placements payload) (pm_tileIdsToExchange payload) = (room', inl e) →
  e ≠ TypeError →
  room' = room
  ∧ handlePlayMove isWordValid tMove tTurn rnd rooms socketId payload
    = (rooms,
       [(ToSocket socketId,
         invalidMove (pm_roomId payload)
           (match e with INVALID_WORD w => w | _ => errMessage e end))]).
Proof.
  intros Hroom Hplayer Hmove Hrule.
  destruct (playMove_inl _ _ _ _ _ _ _ _ _ _ _ Hmove) as [Hsame _].
  specialize (Hsame Hrule). subst room'. split; [done|].
  unfold handlePlayMove. rewrite Hroom, Hplayer, Hmove.
  rewrite insert_id by done. rewrite reasonOf_spec; [done|].
  intros w ->. apply playMove_INVALID_WORD in Hmove.
  destruct w; [simpl in Hmove; lia|done].
Qed.

End RefusalFacts.

Section RefusalExamples.

Import Js Spec Examples.

(** Ann plays QZ: the move is refused with [INVALID_WORD], and the reason
    she receives is the word, not the code. *)
Lemma invalid_word_reason_is_not_the_code :
  snd (playMove dictionary 1000 1001 rnd0 opening "ann" play
         (pm_placements annPlaysQZ) None) = inl (INVALID_WORD "QZ")
  ∧ snd (handlePlayMove dictionary 1000 1001 rnd0 {["ABCD" := opening]} "s1" annPlaysQZ)
    = [(ToSocket "s1", invalidMove "ABCD" "QZ")]
  ∧ errMessage (INVALID_WORD "QZ") = "INVALID_WORD"
  ∧ invalidMove "ABCD" "QZ" ≠ invalidMove "ABCD" (errMessage (INVALID_WORD "QZ")).
Proof. vm_compute. repeat split; done. Qed.

(** The same refusal: the room and the registry are as before. *)
Lemma refused_move_witness :
  fst (playMove dictionary 1000 1001 rnd0 opening "ann" play
         (pm_placements annPlaysQZ) None) = opening
  ∧ handlePlayMove dictionary 1000 1001 rnd0 {["ABCD" := opening]} "s1" annPlaysQZ
    = ({["ABCD" := opening]}, [(ToSocket "s1", invalidMove "ABCD" "QZ")]).
Proof.
  destruct (refused_move_changes_nothing dictionary 1000 1001 rnd0
              {["ABCD" := opening]} "s1" annPlaysQZ opening ann opening
              (INVALID_WORD "QZ")) as [H1 H2].
  - reflexivity.
  - reflexivity.
  - vm_compute. reflexivity.
  - discriminate.
  - split; [vm_compute; reflexivity|exact H2].
Defined.

End RefusalExamples.

(** ** The end of the game *)

Section EndFacts.

Import Js Spec.

Lemma foldl_add_sumZ l : ∀ a, foldl Z.add a l = a + sumZ l.
Proof.
  induction l as [|x l IH]; intros a; simpl; [lia|]. rewrite IH. lia.
Qed.

Lemma rackValue_faceValue p : rackValue p = faceValue (p_rack p).
Proof.
  unfold rackValue, faceValue.
  assert (∀ l a, foldl (λ acc t, acc + t_value t) a l = a + sumZ (map t_value l)) as H.
  { induction l as [|t l IH]; intros a; simpl; [lia|]. rewrite IH. lia. }
  by rewrite H.
Qed.

Lemma sumZ_imap_others (rv : Player → Z) players : ∀ i,
  sumZ (imap (λ j p, if decide (Some i = Some j) then 0 else rv p) players)
  = sumZ (map rv (delete i players)).
Proof.
  induction players as [|q players IH]; intros i; [done|].
  rewrite imap_cons. destruct i as [|i]; simpl.
  - rewrite (imap_ext _ (const rv)); [by rewrite imap_const|].
    intros j p _. simpl. by destruct (decide (Some 0%nat = Some (S j))).
  - destruct (decide (Some (S i) = Some 0%nat)); [done|].
    rewrite <- IH. do 2 f_equal. apply imap_ext. intros j p _. simpl.
    destruct (decide (i = j)) as [->|Hne].
    + by rewrite !decide_True.
    + rewrite !decide_False by congruence. done.
Qed.

Lemma sumOthers_spec players i :
  finisherIndex players = Some i →
  sumOthers players = othersFaceValue players i.
Proof.
  intros Hf. unfold sumOthers, othersFaceValue. rewrite foldl_add_sumZ, Hf. simpl.
  rewrite (sumZ_imap_others rackValue players i).
  rewrite Z.add_0_l. f_equal. apply map_ext. intros q. apply rackValue_faceValue.
Qed.

Lemma finalScores_lookup players i p :
  players !! i = Some p →
  finalScores players !! i
  = Some (withScore p
            (p_score p - faceValue (p_rack p)
             + match finisherIndex players with
               | Some j => if decide (i = j) then othersFaceValue players j else 0
               | None => 0
               end)).
Proof.
  intros Hp. unfold finalScores.
  assert (map (λ p, withScore p (p_score p - rackValue p)) players !! i
          = Some (withScore p (p_score p - faceValue (p_rack p)))) as Hm.
  { change (map ?f players) with (f <$> players).
    by rewrite list_lookup_fmap, Hp, <- rackValue_faceValue. }
  destruct (finisherIndex players) as [j|] eqn:Hf.
  - destruct (decide (i = j)) as [->|Hne].
    + rewrite list_lookup_alter_eq, Hm. simpl.
      by rewrite (sumOthers_spec _ _ Hf).
    + rewrite list_lookup_alter_ne by done. rewrite Hm. by rewrite Z.add_0_r.
  - rewrite Hm. by rewrite Z.add_0_r.
Qed.

Lemma empty_rack p : hasEmptyRack p ↔ p_rack p = [].
Proof. unfold hasEmptyRack. by destruct (p_rack p). Qed.

Lemma finisherIndex_None players :
  (∀ q, q ∈ players → p_rack q ≠ []) → finisherIndex players = None.
Proof.
  intros H. unfold finisherIndex.
  destruct (list_find hasEmptyRack players) as [[j q]|] eqn:Hf; [|done].
  apply list_find_Some in Hf as (Hl & He & _).
  apply empty_rack in He. by destruct (H q (list_elem_of_lookup_2 _ _ _ Hl)).
Qed.

Lemma finisherIndex_sole players i :
  soleFinisher players i →
  finisherIndex players = if decide (i < length players)%nat then Some i else None.
Proof.
  intros Hsole. unfold finisherIndex. destruct (decide _) as [Hlt|Hge].
  - destruct (lookup_lt_is_Some_2 players i Hlt) as [q Hq].
    assert (hasEmptyRack q) as He by (by apply empty_rack, (Hsole i q Hq)).
    destruct (list_find hasEmptyRack players) as [[j q']|] eqn:Hf.
    + apply list_find_Some in Hf as (Hl & He' & _). apply empty_rack in He'.
      apply (Hsole j q' Hl) in He'. by subst.
    + apply list_find_None in Hf. rewrite Forall_forall in Hf.
      by destruct (Hf q (list_elem_of_lookup_2 _ _ _ Hq)).
  - destruct (list_find hasEmptyRack players) as [[j q']|] eqn:Hf; [|done].
    apply list_find_Some in Hf as (Hl & He' & _). apply empty_rack in He'.
    apply (Hsole j q' Hl) in He'. subst. apply lookup_lt_Some in Hl. lia.
Qed.

Lemma finalScores_finalScoring players : finalScoring players (finalScores players).
Proof.
  split; [apply finalScores_length|]. split; [|split].
  - intros i p Hp. eexists. by apply finalScores_lookup.
  - intros Hnone i p Hp. rewrite (finalScores_lookup _ _ _ Hp).
    rewrite (finisherIndex_None _ Hnone). by rewrite Z.add_0_r.
  - intros i Hsole j p Hp. rewrite (finalScores_lookup _ _ _ Hp).
    rewrite (finisherIndex_sole _ _ Hsole).
    destruct (decide (i < length players)%nat) as [Hlt|Hge].
    + destruct (decide (j = i)); [done|by rewrite Z.add_0_r].
    + destruct (decide (j = i)) as [->|]; [|by rewrite Z.add_0_r].
      apply lookup_lt_Some in Hp. lia.
Qed.

Lemma gameHasEnded_spec players g :
  gameHasEnded players g = true ↔ endCondition players g.
Proof.
  unfold gameHasEnded, endCondition, MAX_CONSECUTIVE_PASSES.
  rewrite orb_true_iff, andb_true_iff, !bool_decide_eq_true, Z.leb_le.
  rewrite Exists_exists. setoid_rewrite empty_rack.
  split; (intros [[Hb He]|Hp]; [left; split; [|done]|by right]).
  - by destruct (g_bag g).
  - by rewrite Hb.
Qed.

End EndFacts.

(** ** Bag and racks: shuffling, drawing, exchanging *)

Section BagFacts.

Import Js Spec.

Lemma swap_Permutation {A} (arr : list A) i j : swap arr i j ≡ₚ arr.
Proof.
  unfold swap. destruct (arr !! i) as [a|] eqn:Hi; [|done].
  destruct (arr !! j) as [b|] eqn:Hj; [|done].
  by apply Permutation_insert_swap.
Qed.

Lemma shuffle_go_Permutation {A} rnd i : ∀ arr : list A, shuffle_go rnd i arr ≡ₚ arr.
Proof.
  induction i as [|i IH]; intros arr; simpl; [done|].
  rewrite IH. apply swap_Permutation.
Qed.

Lemma shuffle_Permutation {A} rnd (arr : list A) : shuffle rnd arr ≡ₚ arr.
Proof. apply shuffle_go_Permutation. Qed.

Lemma pop_Some {A} (arr : list A) a r : pop arr = Some (a, r) → arr = r ++ [a].
Proof.
  unfold pop. destruct (reverse arr) as [|b l] eqn:Hr; [done|].
  intros [= -> <-]. rewrite <- (reverse_involutive arr), Hr.
  by rewrite reverse_cons.
Qed.

Lemma pop_None {A} (arr : list A) : pop arr = None → arr = [].
Proof.
  unfold pop. destruct (reverse arr) as [|b l] eqn:Hr; [|done].
  intros _. rewrite <- (reverse_involutive arr), Hr. done.
Qed.

(** Drawing moves tiles from the bag to the hand: nothing is lost, and
    [n] tiles are drawn when the bag holds that many. *)
Lemma drawTiles_spec n : ∀ bag out bag',
  drawTiles bag n = (out, bag') →
  out ++ bag' ≡ₚ bag
  ∧ length out = (n `min` length bag)%nat.
Proof.
  induction n as [|n IH]; intros bag out bag' H; simpl in H.
  - injection H as <- <-. split; [done|]. cbn [length]. lia.
  - destruct (pop bag) as [[t rest]|] eqn:Hp.
    + destruct (drawTiles rest n) as [out1 bag1] eqn:Hd. injection H as <- <-.
      apply pop_Some in Hp as ->. destruct (IH _ _ _ Hd) as [Hperm Hlen].
      split.
      * simpl. rewrite Hperm. by rewrite (comm (++)).
      * rewrite length_app. cbn [length]. rewrite Hlen. lia.
    + injection H as <- <-. apply pop_None in Hp as ->. split; [done|]. cbn [length]. lia.
Qed.

(** The tiles named by a duplicate-free list of ids of a rack whose ids
    are distinct are as many as the ids. *)
Lemma exchanged_count rack (ids : list string) :
  NoDup ids → NoDup (map t_id rack) →
  (∀ i, i ∈ ids → i ∈ map t_id rack) →
  length (filter (λ t, t_id t ∈ ids) rack) = length ids.
Proof.
  intros Hids Hrack Hsub.
  rewrite <- (length_fmap t_id). apply Permutation_length.
  apply NoDup_Permutation; [|done|].
  - eapply sublist_NoDup; [exact Hrack|].
    apply (fmap_sublist t_id), sublist_filter.
  - intros i. rewrite list_elem_of_fmap. split.
    + intros (t & -> & Ht). by apply list_elem_of_filter in Ht as [? _].
    + intros Hi. destruct (proj1 (list_elem_of_fmap _ _ _) (Hsub i Hi)) as (t & -> & Ht).
      exists t. split; [done|]. by apply list_elem_of_filter.
Qed.

(** What [advanceTurn] and the final scoring leave alone: bag, board, and
    the rack and identity of every player. *)
Lemma finishMove_keeps tTurn m R room' move ended gm :
  finishMove tTurn m R = (room', inr (move, ended)) →
  r_game R = Some gm →
  move = m
  ∧ (∃ g', r_game room' = Some g' ∧ g_bag g' = g_bag gm ∧ g_board g' = g_board gm)
  ∧ ∀ i p, r_players R !! i = Some p →
      ∃ p', r_players room' !! i = Some p'
            ∧ p_rack p' = p_rack p ∧ p_id p' = p_id p
            ∧ p_stats p' = p_stats p
            ∧ (ended = false → p' = p).
Proof.
  intros H Hgm.
  apply finishMove_inr in H as (g0 & q & mid & -> & Hg0 & Hq & -> & Hc).
  assert (g0 = gm) as -> by congruence.
  apply checkAndFinalizeIfEnded_inr in Hc as (g' & Hg' & Hend & ->).
  simpl in Hg'. injection Hg' as <-. split; [done|].
  destruct ended; simpl.
  - split; [eexists; split; [done|]; done|].
    intros i p Hp. rewrite (finalScores_lookup _ _ _ Hp). eexists. split; [done|]. done.
  - split; [eexists; split; [done|]; done|].
    intros i p Hp. exists p. done.
Qed.

(** C6 (amended). An exchange of [k] distinct tile ids, on a rack whose
    tiles have pairwise distinct ids, that goes through (the bag then held
    at least [k] tiles and every id was in the rack of the active player)
    leaves the size of the rack and the size of the bag as they were, and
    the tiles of bag and rack together are the same multiset as before. *)
Theorem exchange_keeps_sizes_and_tiles
    isWordValid tMove tTurn rnd room pid g idx player pls ids room' move ended :
  r_game room = Some g →
  list_find (λ p, p_id p = pid) (r_players room) = Some (idx, player) →
  playMove isWordValid tMove tTurn rnd room pid exchange pls (Some ids)
    = (room', inr (move, ended)) →
  NoDup ids →
  NoDup (map t_id (p_rack player)) →
  (length ids ≤ length (g_bag g))%nat
  ∧ (∀ i, i ∈ ids → i ∈ map t_id (p_rack player))
  ∧ ∃ g' player',
      r_game room' = Some g'
      ∧ r_players room' !! idx = Some player'
      ∧ p_id player' = pid
      ∧ length (p_rack player') = length (p_rack player)
      ∧ length (g_bag g') = length (g_bag g)
      ∧ g_bag g' ++ p_rack player' ≡ₚ g_bag g ++ p_rack player.
Proof.
  intros Hg Hf H Hids Hrack.
  apply playMove_inr in H as (g0 & idx0 & player0 & m & mid & Hg0 & Hf0 & Ha & Happ & Hfin).
  assert (g0 = g) as -> by congruence.
  assert (idx0 = idx ∧ player0 = player) as [-> ->] by (split; congruence).
  apply list_find_Some in Hf as (Hl & Hid & _).
  inversion Happ as [| ? ? drawn bag' Hn Hle Hsub Hdraw |]; subst. simpl in *.
  split; [done|]. split; [done|].
  set (returned := filter (λ t, t_id t ∈ ids) (p_rack player)) in *.
  set (kept := filter (λ t, t_id t ∉ ids) (p_rack player)) in *.
  assert (length returned = length ids) as Hret by (by apply exchanged_count).
  assert (returned ++ kept ≡ₚ p_rack player) as Hpart
    by apply filter_app_complement.
  apply drawTiles_spec in Hdraw as [Hperm Hlen].
  rewrite shuffle_Permutation in Hperm.
  assert (length (shuffle rnd (g_bag g ++ returned)) = length (g_bag g ++ returned))
    as Hshuf by apply Permutation_length, shuffle_Permutation.
  rewrite Hshuf, length_app, Hret in Hlen.
  apply Permutation_length in Hperm as Hlen2. rewrite !length_app, Hret in Hlen2.
  apply Permutation_length in Hpart as Hlen3. rewrite length_app, Hret in Hlen3.
  eapply finishMove_keeps in Hfin as (_ & (g' & Hg' & Hbag & _) & Hplayers); [|done].
  destruct (Hplayers idx _ (list_lookup_insert_eq _ _ _ ltac:(by eapply lookup_lt_Some)))
    as (p' & Hp' & Hrack' & Hid' & _).
  exists g', p'. simpl in *.
  split; [done|]. split; [done|]. split; [congruence|].
  rewrite Hrack', Hbag, length_app.
  split; [lia|]. split; [lia|].
  rewrite <- Hpart, (comm (++) kept), (assoc (++)), (comm (++) bag'), Hperm.
  by rewrite <- (assoc (++)).
Qed.

End BagFacts.

Section BagExamples.

Import Js Spec Examples.

(** Ann exchanges her A: the exchange goes through, the bag held L, U, K
    before and holds U, K, A after. *)
Lemma exchange_changes_the_bag :
  succeeded annExchangesA = true
  ∧ (g_bag <$> r_game opening)
    = Some [tile "g1" "L" 1; tile "g2" "U" 1; tile "g3" "K" 5]
  ∧ (g_bag <$> r_game (fst annExchangesA))
    = Some [tile "g2" "U" 1; tile "g3" "K" 5; tile "a1" "A" 1]
  ∧ ¬ ([tile "g2" "U" 1; tile "g3" "K" 5; tile "a1" "A" 1]
       ≡ₚ [tile "g1" "L" 1; tile "g2" "U" 1; tile "g3" "K" 5]).
Proof.
  split; [vm_compute; reflexivity|]. split; [vm_compute; reflexivity|].
  split; [vm_compute; reflexivity|].
  intros Hperm.
  assert (tile "g1" "L" 1 ∈ [tile "g2" "U" 1; tile "g3" "K" 5; tile "a1" "A" 1]) as Hin.
  { rewrite Hperm. apply list_elem_of_here. }
  repeat (apply elem_of_cons in Hin as [Hin|Hin]; [discriminate|]).
  by apply elem_of_nil in Hin.
Qed.

Lemma exchange_witness :
  (1 ≤ length smallBag)%nat
  ∧ (∀ i, i ∈ ["a1"] → i ∈ map t_id (p_rack ann))
  ∧ ∃ g' player',
      r_game (fst annExchangesA) = Some g'
      ∧ r_players (fst annExchangesA) !! 0%nat = Some player'
      ∧ p_id player' = "ann"
      ∧ length (p_rack player') = length (p_rack ann)
      ∧ length (g_bag g') = length smallBag
      ∧ g_bag g' ++ p_rack player' ≡ₚ smallBag ++ p_rack ann.
Proof.
  apply (exchange_keeps_sizes_and_tiles dictionary 1000 1001 rnd0 opening "ann"
           openingGame 0%nat ann None ["a1"] (fst annExchangesA)
           (buildMoveSummary 1000 exchange "ann" [] 0 openingGame []) false).
  - reflexivity.
  - reflexivity.
  - vm_compute. reflexivity.
  - repeat constructor. intros H. by apply elem_of_nil in H.
  - vm_compute. repeat constructor;
      intros H; repeat (apply elem_of_cons in H as [H|H]; [discriminate|]);
      by apply elem_of_nil in H.
Defined.

(** Why the tiles of the rack must have distinct ids: on a rack that holds
    two tiles under the id a1, the exchange of a1 returns both to the bag
    and draws one, so the rack goes from 3 tiles to 2 and the bag from 3
    to 4. *)
Example exchange_on_a_rack_with_a_repeated_id :
  let rack := [tile "a1" "A" 1; tile "a1" "S" 1; tile "a3" "Q" 10] in
  let room := withPlayers opening [withRack ann rack; bob] in
  let after :=
    fst (playMove dictionary 1000 1001 rnd0 room "ann" exchange None (Some ["a1"])) in
  length rack = 3%nat
  ∧ (length ∘ g_bag <$> r_game room) = Some 3%nat
  ∧ (length ∘ p_rack <$> head (r_players after)) = Some 2%nat
  ∧ (length ∘ g_bag <$> r_game after) = Some 4%nat.
Proof. vm_compute. repeat split; reflexivity. Qed.

End BagExamples.

(** ** Scoring *)

Section ScoreFacts.

Import Js Spec.

Lemma findPlacement_decide pls x y :
  match findPlacement pls x y with Some _ => true | None => false end
  = bool_decide (placedOn pls (x, y)).
Proof.
  destruct (findPlacement pls x y) as [p|] eqn:Hf.
  - symmetry. apply bool_decide_eq_true. apply findPlacement_is_Some. by eexists.
  - symmetry. apply bool_decide_eq_false. intros H.
    apply findPlacement_is_Some in H as [? ?]. congruence.
Qed.

Lemma multipliersAt_spec board x y :
  multipliersAt board x y
  = (match premiumAt board (x, y) with Some DL => 2 | Some TL => 3 | _ => 1 end,
     match premiumAt board (x, y) with Some DW => 2 | Some TW => 3 | _ => 1 end).
Proof.
  unfold multipliersAt, premiumAt, letterAndWordMultipliers. simpl.
  destruct (cellAt board x y) as [c|]; [|done].
  destruct (c_bonus c) as [[]|], (c_bonusUsed c); done.
Qed.

Lemma scoreStep_spec board pls info s m xy :
  scoreStep board pls info (s, m) xy
  = (s + letterValue board pls info xy * letterMultiplier board pls xy,
     m * wordMultiplier board pls xy).
Proof.
  destruct xy as [x y]. unfold scoreStep, letterValue, letterMultiplier, wordMultiplier.
  pose proof (findPlacement_decide pls x y) as Hd. simpl.
  rewrite multipliersAt_spec.
  destruct (findPlacement pls x y).
  - symmetry in Hd. apply bool_decide_eq_true in Hd. by rewrite !decide_True.
  - symmetry in Hd. apply bool_decide_eq_false in Hd. rewrite !decide_False by done.
    f_equal; lia.
Qed.

Lemma foldl_scoreStep board pls info cells : ∀ s m,
  foldl (scoreStep board pls info) (s, m) cells
  = (s + sumZ (map (λ xy, letterValue board pls info xy * letterMultiplier board pls xy)
                 cells),
     m * prodZ (map (wordMultiplier board pls) cells)).
Proof.
  induction cells as [|xy cells IH]; intros s m; cbn [foldl map sumZ prodZ foldr].
  - f_equal; lia.
  - rewrite scoreStep_spec, IH. unfold sumZ, prodZ. f_equal; lia.
Qed.

(** The score of a run of cells is the sum of the letter values, each
    times its letter multiplier, times the product of the word
    multipliers. *)
Lemma scoreCells_wordScore board pls info cells :
  scoreCells board pls info cells = wordScore board pls info cells.
Proof.
  unfold scoreCells, wordScore. rewrite foldl_scoreStep. f_equal; lia.
Qed.

Lemma foldl_add_map {A} (f : A → Z) l : ∀ a,
  foldl (λ total x, total + f x) a l = a + sumZ (map f l).
Proof.
  induction l as [|x l IH]; intros a; simpl; [lia|]. rewrite IH. lia.
Qed.

(** What a validated play was checked against and what it is worth. *)
Lemma validatePlay_inr isWordValid g player pls plan :
  validatePlay isWordValid g player pls = inr plan →
  ∃ info,
    buildPlacementInfo (p_rack player) pls ∅ = Some info
    ∧ checkCells (g_board g) pls = None
    ∧ checkTiles (rackIdSet (p_rack player)) ∅ pls = inr (pp_used plan)
    ∧ pp_info plan = info
    ∧ pp_direction plan = direction pls
    ∧ pp_main plan = buildMainWord (g_board g) pls info (direction pls)
    ∧ pp_cross plan = buildCrossWords (g_board g) pls info (direction pls)
    ∧ pp_total plan
      = scoreWord (g_board g) pls info (direction pls) (pp_main plan)
        + sumZ (map (scoreCrossWord (g_board g) pls info) (pp_cross plan))
        + bingoBonus pls.
Proof.
  unfold validatePlay. intros H.
  destruct (decide _); [discriminate|].
  destruct (checkCells _ _) as [e|] eqn:Hc; [discriminate|].
  destruct (checkTiles _ _ _) as [e|used] eqn:Ht; [discriminate|].
  destruct (_ && _); [discriminate|].
  destruct (_ && _); [discriminate|].
  destruct (buildPlacementInfo _ _ _) as [info|]; [|discriminate].
  destruct (negb _); [discriminate|].
  destruct (_ && _); [discriminate|].
  destruct (decide _); [discriminate|].
  destruct (list_find _ _) as [[j w']|] eqn:Hf; [discriminate|].
  injection H as <-. exists info. simpl.
  repeat (split; [done|]). by rewrite foldl_add_map.
Qed.

Lemma buildPlacementInfo_finds rack pls : ∀ info0 info,
  buildPlacementInfo rack pls info0 = Some info →
  ∀ p, p ∈ pls → is_Some (findTile rack (pl_tileId p)).
Proof.
  induction pls as [|q pls IH]; intros info0 info H p Hp; simpl in H.
  - by apply elem_of_nil in Hp.
  - destruct (findTile rack (pl_tileId q)) as [t|] eqn:Ht; [|discriminate].
    apply elem_of_cons in Hp as [->|Hp]; [by rewrite Ht|by eapply IH].
Qed.

(** The placement info of a cell is that of the tile the play puts there. *)
Lemma buildPlacementInfo_tilePlacedAt rack pls : ∀ info0 info xy,
  buildPlacementInfo rack pls info0 = Some info →
  info !! xy = match tilePlacedAt rack pls xy with
               | Some t => Some (infoOf t)
               | None => info0 !! xy
               end.
Proof.
  induction pls as [|p pls IH]; intros info0 info xy H.
  - simpl in H. by injection H as <-.
  - pose proof (buildPlacementInfo_finds _ _ _ _ H) as Hfinds. simpl in H.
    destruct (findTile rack (pl_tileId p)) as [t|] eqn:Ht; [|discriminate].
    rewrite (IH _ _ xy H). unfold tilePlacedAt.
    rewrite filter_cons.
    destruct (last (filter (λ q, (pl_x q, pl_y q) = xy) pls)) as [q|] eqn:Hlast.
    + assert (q ∈ p :: pls) as Hq.
      { apply list_elem_of_further. apply last_Some_elem_of in Hlast.
        by apply list_elem_of_filter in Hlast as [_ ?]. }
      destruct (Hfinds q Hq) as [tq Htq]. rewrite Htq.
      destruct (decide ((pl_x p, pl_y p) = xy)); [|by rewrite Hlast, Htq].
      rewrite last_cons, Hlast, Htq. done.
    + destruct (decide ((pl_x p, pl_y p) = xy)) as [Heq|Hne].
      * rewrite last_cons, Hlast, Ht. by rewrite Heq, lookup_insert_eq.
      * rewrite Hlast. by rewrite lookup_insert_ne.
Qed.

Lemma tilePlacedAt_elem rack pls xy t :
  tilePlacedAt rack pls xy = Some t → t ∈ rack ∧ placedOn pls xy.
Proof.
  unfold tilePlacedAt.
  destruct (last _) as [p|] eqn:Hl; [|done]. intros Hf.
  apply findTile_Some in Hf as [Ht _]. split; [done|].
  apply last_Some_elem_of, list_elem_of_filter in Hl as [Hxy Hp].
  apply Exists_exists. exists p. split; [done|]. by rewrite <- Hxy.
Qed.

(** The scores of a play that goes through, on a board and a rack whose
    jokers are blank. *)
Lemma play_score
    isWordValid tMove tTurn rnd room pid g idx player pls ids room' move ended :
  r_game room = Some g →
  list_find (λ p, p_id p = pid) (r_players room) = Some (idx, player) →
  playMove isWordValid tMove tTurn rnd room pid play (Some pls) ids
    = (room', inr (move, ended)) →
  Forall jokerBlank (boardTiles (g_board g) ++ p_rack player) →
  let board := g_board g in
  let info := default ∅ (buildPlacementInfo (p_rack player) pls ∅) in
  let main := buildMainWord board pls info (direction pls) in
  let cross := buildCrossWords board pls info (direction pls) in
  scoreWord board pls info (direction pls) main
    = wordScore board pls info
        (spanCells (direction pls) (mw_lo main) (mw_hi main) (mw_fixed main))
  ∧ Forall (λ cw, scoreCrossWord board pls info cw
                  = wordScore board pls info (crossCells cw)) cross
  ∧ ms_score move
    = scoreWord board pls info (direction pls) main
      + sumZ (map (scoreCrossWord board pls info) cross)
      + (if decide (length pls = 7%nat) then 50 else 0)
  ∧ (∀ xy t, tilePlacedAt (p_rack player) pls xy = Some t →
             t_isJoker t = true → letterValue board pls info xy = 0)
  ∧ (∀ xy t, ¬ placedOn pls xy → tileAt board (fst xy) (snd xy) = Some t →
             t_isJoker (tb_tile t) = true → letterValue board pls info xy = 0).
Proof.
  intros Hg Hf H Hjok board info main cross.
  apply Forall_app in Hjok as [Hjb Hjr]. rewrite Forall_forall in Hjb, Hjr.
  apply playMove_inr in H as (g0 & idx0 & player0 & m & mid & Hg0 & Hf0 & Ha & Happ & Hfin).
  assert (g0 = g) as -> by congruence.
  assert (idx0 = idx ∧ player0 = player) as [-> ->] by (split; congruence).
  apply finishMove_inr in Hfin as (_ & _ & _ & -> & _).
  inversion Happ as [| | ? ? plan board' drawn bag' Hv Hp Hd]; subst. simpl in Hv.
  apply validatePlay_inr in Hv as (info' & Hinfo & _ & _ & _ & _ & Hmain & Hcross & Htotal).
  assert (info = info') as Hi by (unfold info; by rewrite Hinfo).
  split; [apply scoreCells_wordScore|].
  split; [apply Forall_forall; intros cw _; apply scoreCells_wordScore|].
  split.
  { simpl. rewrite Htotal, Hmain, Hcross, <- Hi. unfold bingoBonus. done. }
  split.
  - intros xy t Ht Hj. destruct (tilePlacedAt_elem _ _ _ _ Ht) as [Hin Hpl].
    unfold letterValue. rewrite decide_True by done.
    unfold getPlacementLetterValue. rewrite Hi. destruct xy as [x y]. simpl.
    rewrite (buildPlacementInfo_tilePlacedAt _ _ _ _ (x, y) Hinfo), Ht. simpl.
    by destruct (Hjr t Hin Hj).
  - intros xy t Hnp Ht Hj. unfold letterValue. rewrite decide_False by done.
    unfold tileValueAt. rewrite Ht.
    by destruct (Hjb _ (tileAt_boardTiles _ _ _ _ Ht) Hj).
Qed.

End ScoreFacts.

(** ** Where the tiles are *)

Section TileFacts.

Import Js Spec.

Lemma nthZ_lookup {A} (l : list A) i : 0 ≤ i → nthZ l i = l !! Z.to_nat i.
Proof. intros Hi. unfold nthZ. by rewrite (proj2 (Z.leb_le 0 i) Hi). Qed.

Lemma cellAt_Some board x y c :
  cellAt board x y = Some c →
  0 ≤ x ∧ 0 ≤ y
  ∧ ∃ r, board !! Z.to_nat y = Some r ∧ r !! Z.to_nat x = Some c.
Proof.
  unfold cellAt. destruct (nthZ board y) as [r|] eqn:Hr; [|done]. intros Hc.
  apply nthZ_Some in Hr as [? Hr]. apply nthZ_Some in Hc as [? Hc].
  split; [lia|]. split; [lia|]. eauto.
Qed.

Lemma cellAt_setCell board x y c x' y' :
  is_Some (cellAt board x y) →
  cellAt (setCell board x y c) x' y'
  = if decide (x' = x ∧ y' = y) then Some c else cellAt board x' y'.
Proof.
  intros [c0 Hc0]. apply cellAt_Some in Hc0 as (Hx & Hy & r & Hr & Hc).
  unfold setCell, cellAt.
  destruct (decide (0 ≤ y')) as [Hy'|Hy'].
  2:{ rewrite !nthZ_None_out by lia. destruct (decide _); [lia|done]. }
  rewrite !(nthZ_lookup _ y' Hy').
  destruct (decide (y' = y)) as [->|Hney].
  - rewrite list_lookup_alter_eq, Hr. simpl.
    destruct (decide (0 ≤ x')) as [Hx'|Hx'].
    2:{ rewrite !nthZ_None_out by lia. destruct (decide _); [lia|done]. }
    rewrite !(nthZ_lookup _ x' Hx').
    destruct (decide (x' = x)) as [->|Hnex].
    + rewrite decide_True by done. apply list_lookup_insert_eq.
      by eapply lookup_lt_Some.
    + rewrite decide_False by tauto. apply list_lookup_insert_ne. lia.
  - rewrite list_lookup_alter_ne by lia. rewrite decide_False by tauto. done.
Qed.

Lemma tileAt_setCell board x y c x' y' :
  is_Some (cellAt board x y) →
  tileAt (setCell board x y c) x' y'
  = if decide (x' = x ∧ y' = y) then c_tile c else tileAt board x' y'.
Proof.
  intros H. unfold tileAt. rewrite (cellAt_setCell _ _ _ _ _ _ H).
  by destruct (decide _).
Qed.

Lemma boardTiles_tileAt board t :
  t ∈ boardTiles board ↔ ∃ x y tb, tileAt board x y = Some tb ∧ tb_tile tb = t.
Proof.
  split.
  - unfold boardTiles. intros Ht.
    apply list_elem_of_In, in_flat_map in Ht as (r & Hr & Ht).
    apply in_flat_map in Ht as (c & Hc & Ht).
    apply list_elem_of_In, list_elem_of_lookup in Hr as [i Hi].
    apply list_elem_of_In, list_elem_of_lookup in Hc as [j Hj].
    destruct (c_tile c) as [tb|] eqn:Htb; [|done].
    destruct Ht as [<-|[]]. exists (Z.of_nat j), (Z.of_nat i), tb. split; [|done].
    unfold tileAt, cellAt. rewrite !nthZ_lookup by lia. rewrite !Nat2Z.id, Hi.
    rewrite nthZ_lookup by lia. by rewrite Nat2Z.id, Hj.
  - intros (x & y & tb & Ht & <-). by eapply tileAt_boardTiles.
Qed.

Lemma placeTiles_finds rack pid turn pls : ∀ board board',
  placeTiles rack pid turn pls board = (board', None) →
  ∀ p, p ∈ pls → is_Some (findTile rack (pl_tileId p)).
Proof.
  induction pls as [|q pls IH]; intros board board' H p Hp; simpl in H.
  - by apply elem_of_nil in Hp.
  - destruct (findTile rack (pl_tileId q)) as [t|] eqn:Ht; [|discriminate].
    destruct (cellAt board (pl_x q) (pl_y q)) as [c|]; [|discriminate].
    apply elem_of_cons in Hp as [->|Hp]; [by rewrite Ht|by eapply IH].
Qed.

(** After the commit loop a cell named by the placements holds the tile
    the play puts there, stamped with the player and the turn; every
    other cell holds what it held. *)
Lemma placeTiles_tileAt rack pid turn pls : ∀ board board' x y,
  placeTiles rack pid turn pls board = (board', None) →
  tileAt board' x y
  = match tilePlacedAt rack pls (x, y) with
    | Some t => Some {| tb_tile := t; tb_fromPlayerId := pid; tb_turnPlayed := turn |}
    | None => tileAt board x y
    end.
Proof.
  induction pls as [|p pls IH]; intros board board' x y H.
  - simpl in H. by injection H as <-.
  - pose proof (placeTiles_finds _ _ _ _ _ _ H) as Hfinds. simpl in H.
    destruct (findTile rack (pl_tileId p)) as [t|] eqn:Ht; [|discriminate].
    destruct (cellAt board (pl_x p) (pl_y p)) as [c|] eqn:Hc; [|discriminate].
    rewrite (IH _ _ x y H). unfold tilePlacedAt. rewrite filter_cons.
    destruct (last (filter (λ q, (pl_x q, pl_y q) = (x, y)) pls)) as [q|] eqn:Hlast.
    + assert (q ∈ p :: pls) as Hq.
      { apply list_elem_of_further. apply last_Some_elem_of in Hlast.
        by apply list_elem_of_filter in Hlast as [_ ?]. }
      destruct (Hfinds q Hq) as [tq Htq]. rewrite Htq.
      destruct (decide ((pl_x p, pl_y p) = (x, y))); [|by rewrite Hlast, Htq].
      rewrite last_cons, Hlast, Htq. done.
    + rewrite tileAt_setCell by (by eexists).
      destruct (decide ((pl_x p, pl_y p) = (x, y))) as [Heq|Hne].
      * rewrite last_cons, Hlast, Ht. injection Heq as <- <-.
        by rewrite decide_True.
      * rewrite Hlast. rewrite decide_False; [done|]. intros [-> ->]. done.
Qed.

(** Whatever the commit loop does, a tile on the board was there before
    or comes from the rack. *)
Lemma placeTiles_from rack pid turn pls : ∀ board board' err x y tb,
  placeTiles rack pid turn pls board = (board', err) →
  tileAt board' x y = Some tb →
  tileAt board x y = Some tb ∨ tb_tile tb ∈ rack.
Proof.
  induction pls as [|p pls IH]; intros board board' err x y tb H Htb; simpl in H.
  - injection H as <- <-. by left.
  - destruct (findTile rack (pl_tileId p)) as [t|] eqn:Ht;
      [|injection H as <- <-; by left].
    destruct (cellAt board (pl_x p) (pl_y p)) as [c|] eqn:Hc;
      [|injection H as <- <-; by left].
    destruct (IH _ _ _ _ _ _ H Htb) as [H1|H1]; [|by right].
    rewrite tileAt_setCell in H1 by (by eexists).
    destruct (decide _); [|by left].
    simpl in H1. injection H1 as <-. right. simpl.
    by apply findTile_Some in Ht as [? _].
Qed.

End TileFacts.

Section TileOrigin.

Import Js Spec.

Lemma elem_of_racks (players : list Player) t :
  t ∈ flat_map p_rack players ↔ ∃ p, p ∈ players ∧ t ∈ p_rack p.
Proof.
  rewrite list_elem_of_In, in_flat_map. split.
  - intros (p & Hp & Ht). exists p. by rewrite !list_elem_of_In.
  - intros (p & Hp & Ht). exists p. by rewrite <- !list_elem_of_In.
Qed.

Lemma elem_of_tilesOfRoom room t :
  t ∈ tilesOfRoom room
  ↔ (∃ p, p ∈ r_players room ∧ t ∈ p_rack p)
    ∨ (∃ g, r_game room = Some g ∧ (t ∈ g_bag g ∨ t ∈ boardTiles (g_board g))).
Proof.
  unfold tilesOfRoom. rewrite elem_of_app, elem_of_racks.
  destruct (r_game room) as [g|].
  - rewrite elem_of_app. split; (intros [?|H]; [by left|right]).
    + by exists g.
    + destruct H as (g' & [= <-] & H). done.
  - split; (intros [?|H]; [by left|]).
    + by apply elem_of_nil in H.
    + by destruct H as (? & ? & _).
Qed.

Lemma elem_of_insert_player (players : list Player) idx p' q :
  q ∈ <[idx := p']> players → q = p' ∨ q ∈ players.
Proof.
  intros Hq. apply list_elem_of_lookup in Hq as [j Hj].
  apply list_lookup_insert_Some in Hj as [(-> & -> & _)|[_ Hj]]; [by left|].
  right. by eapply list_elem_of_lookup_2.
Qed.

Lemma racks_finalScores players :
  flat_map p_rack (finalScores players) = flat_map p_rack players.
Proof.
  rewrite !flat_map_concat_map. f_equal.
  change (map p_rack ?l) with (p_rack <$> l).
  apply list_eq. intros i. rewrite !list_lookup_fmap.
  destruct (players !! i) as [p|] eqn:Hp.
  - by rewrite (finalScores_lookup _ _ _ Hp).
  - rewrite (proj2 (lookup_ge_None (finalScores players) i)); [done|].
    rewrite finalScores_length. by apply lookup_ge_None.
Qed.

(** Advancing the turn and the final scoring move no tile. *)
Lemma finishMove_tiles tTurn m room :
  tilesOfRoom (fst (finishMove tTurn m room)) = tilesOfRoom room.
Proof.
  unfold finishMove, advanceTurn, checkAndFinalizeIfEnded.
  destruct (r_game room) as [g|] eqn:Hg; [|done].
  destruct (nthZ _ _) as [p|]; simpl.
  - destruct (gameHasEnded _ _); simpl; unfold tilesOfRoom; simpl;
      rewrite ?racks_finalScores, Hg; done.
  - unfold tilesOfRoom. simpl. by rewrite Hg.
Qed.

Lemma drawTiles_from bag n out bag' t :
  drawTiles bag n = (out, bag') → t ∈ out ++ bag' → t ∈ bag.
Proof.
  intros H Ht. apply drawTiles_spec in H as [Hperm _]. by rewrite <- Hperm.
Qed.

Section PlayMoveTiles.

Variable isWordValid : string → bool.
Variables (tMove tTurn : Z) (rnd : nat → nat).

(** No call of [playMove], accepted or refused, brings a tile into the
    room that was not in it. *)
Lemma playMove_tiles room pid action pls ids t :
  t ∈ tilesOfRoom (fst (playMove isWordValid tMove tTurn rnd room pid action pls ids)) →
  t ∈ tilesOfRoom room.
Proof.
  unfold playMove.
  destruct (r_game room) as [g|] eqn:Hg; [|done].
  destruct (list_find _ _) as [[idx player]|] eqn:Hf; [|done].
  destruct (negb _); [done|].
  apply list_find_Some in Hf as (Hl & _ & _).
  assert (player ∈ r_players room) as Hin by (by eapply list_elem_of_lookup_2).
  assert (∀ (g' : GameState) p',
            (∀ t, t ∈ p_rack p' → t ∈ p_rack player ∨ t ∈ g_bag g) →
            (∀ t, t ∈ g_bag g' → t ∈ p_rack player ∨ t ∈ g_bag g) →
            (∀ t, t ∈ boardTiles (g_board g') →
                  t ∈ p_rack player ∨ t ∈ boardTiles (g_board g)) →
            t ∈ tilesOfRoom (applied room idx p' g') → t ∈ tilesOfRoom room) as Happlied.
  { intros g' p' Hrack Hbag Hboard Ht.
    apply elem_of_tilesOfRoom in Ht.
    apply elem_of_tilesOfRoom. simpl in Ht.
    destruct Ht as [(q & Hq & Ht)|(g0 & [= <-] & [Ht|Ht])].
    - apply elem_of_insert_player in Hq as [->|Hq]; [|left; eauto].
      destruct (Hrack t Ht); [left; eauto|right; eauto].
    - destruct (Hbag t Ht); [left; eauto|right; eauto].
    - destruct (Hboard t Ht); [left; eauto|right; eauto]. }
  destruct action.
  - destruct (validatePlay _ _ _ _) as [e|plan]; [done|].
    destruct (placeTiles _ _ _ _ _) as [board' err] eqn:Hp.
    assert (∀ t, t ∈ boardTiles board' →
                 t ∈ p_rack player ∨ t ∈ boardTiles (g_board g)) as Hboard.
    { intros t' Ht'. apply boardTiles_tileAt in Ht' as (x & y & tb & Htb & <-).
      destruct (placeTiles_from _ _ _ _ _ _ _ _ _ _ Hp Htb) as [H1|H1]; [|by left].
      right. by eapply tileAt_boardTiles. }
    destruct err as [e|].
    + simpl. intros Ht. apply elem_of_tilesOfRoom in Ht. apply elem_of_tilesOfRoom.
      simpl in Ht. destruct Ht as [?|(g0 & [= <-] & [Ht|Ht])]; [by left|right; eauto|].
      simpl in Ht. destruct (Hboard t Ht); [left; eauto|right; eauto].
    + destruct (drawTiles _ _) as [drawn bag'] eqn:Hd.
      rewrite finishMove_tiles. apply Happlied; simpl; [| |done].
      * intros t' Ht'. apply elem_of_app in Ht' as [Ht'|Ht'].
        -- left. by apply list_elem_of_filter in Ht' as [_ ?].
        -- right. eapply drawTiles_from; [done|]. apply elem_of_app. by left.
      * intros t' Ht'. right. eapply drawTiles_from; [done|]. apply elem_of_app. by right.
  - rewrite finishMove_tiles. apply Happlied; simpl; auto.
  - destruct (decide _); [done|]. destruct (decide _); [done|].
    destruct (negb _); [done|].
    destruct (drawTiles _ _) as [drawn bag'] eqn:Hd.
    rewrite finishMove_tiles.
    assert (∀ t', t' ∈ drawn ++ bag' → t' ∈ p_rack player ∨ t' ∈ g_bag g) as Hdrawn.
    { intros t' Ht'. eapply drawTiles_from in Ht'; [|done].
      rewrite shuffle_Permutation in Ht'. apply elem_of_app in Ht' as [?|Ht']; [by right|].
      left. by apply list_elem_of_filter in Ht' as [_ ?]. }
    apply Happlied; simpl; [| |auto].
    + intros t' Ht'. apply elem_of_app in Ht' as [Ht'|Ht'].
      * left. by apply list_elem_of_filter in Ht' as [_ ?].
      * apply Hdrawn, elem_of_app. by left.
    + intros t' Ht'. apply Hdrawn, elem_of_app. by right.
Qed.

End PlayMoveTiles.

End TileOrigin.

(** ** Jokers *)

Section JokerFacts.

Import Js Spec.

Lemma tilesOf_jokerBlank ids start def :
  (ld_isJoker def = true → ld_letter def = "" ∧ ld_value def = 0) →
  Forall jokerBlank (tilesOf ids start def).
Proof.
  intros Hdef. unfold tilesOf. apply Forall_forall. intros t Ht.
  apply list_elem_of_fmap in Ht as (k & -> & _). exact Hdef.
Qed.

Lemma buildBag_jokerBlank ids defs : ∀ start,
  Forall (λ def, ld_isJoker def = true → ld_letter def = "" ∧ ld_value def = 0) defs →
  Forall jokerBlank (buildBag ids start defs).
Proof.
  induction defs as [|def defs IH]; intros start H; simpl; [constructor|].
  apply Forall_cons in H as [Hd H]. apply Forall_app. split.
  - by apply tilesOf_jokerBlank.
  - by apply IH.
Qed.

Lemma distribution_jokerBlank lang :
  Forall (λ def, ld_isJoker def = true → ld_letter def = "" ∧ ld_value def = 0)
    (getLetterDistribution lang).
Proof.
  destruct lang; unfold getLetterDistribution;
    repeat (apply Forall_cons_2; [intros H; simpl in H; (discriminate H || done)|]);
    apply Forall_nil_2.
Qed.

Lemma dealRacks_from players : ∀ bag players' bag' t,
  dealRacks players bag = (players', bag') →
  t ∈ flat_map p_rack players' ∨ t ∈ bag' → t ∈ bag.
Proof.
  induction players as [|p players IH]; intros bag players' bag' t H Ht;
    cbn [dealRacks] in H.
  - inversion H; subst. destruct Ht as [Ht|Ht]; [by apply elem_of_nil in Ht|done].
  - destruct (drawTiles bag 7) as [rack bag1] eqn:Hd.
    destruct (dealRacks players bag1) as [rest bag2] eqn:Hr.
    injection H as <- <-. simpl in Ht.
    destruct Ht as [Ht|Ht].
    + apply elem_of_app in Ht as [Ht|Ht].
      * eapply drawTiles_from; [done|]. apply elem_of_app. by left.
      * eapply drawTiles_from; [done|]. apply elem_of_app. right.
        eapply IH; [done|]. by left.
    + eapply drawTiles_from; [done|]. apply elem_of_app. right.
      eapply IH; [done|]. by right.
Qed.

Lemma boardTiles_initialBoard : boardTiles initialBoard = [].
Proof. vm_compute. reflexivity. Qed.

(** The tiles of a new game are those of the letter distribution. *)
Lemma startNewGame_jokerBlank lang ids rnd now room room' :
  startNewGame lang ids rnd now room = (room', inr ()) →
  Forall jokerBlank (tilesOfRoom room').
Proof.
  unfold startNewGame. destruct (r_players room) as [|p0 ps] eqn:Hps; [discriminate|].
  destruct (dealRacks _ _) as [players bag'] eqn:Hd. intros [= <-].
  apply Forall_forall. intros t Ht.
  pose proof (buildBag_jokerBlank ids _ 0%nat (distribution_jokerBlank lang)) as Hbag.
  rewrite Forall_forall in Hbag. apply Hbag.
  rewrite <- (shuffle_Permutation rnd).
  apply elem_of_tilesOfRoom in Ht.
  cbn [r_game r_players withGame withPlayers] in Ht.
  destruct Ht as [(q & Hq & Ht)|(g0 & [= <-] & [Ht|Ht])];
    cbn [g_bag g_board] in Ht.
  - eapply dealRacks_from; [done|]. left. apply elem_of_racks. eauto.
  - eapply dealRacks_from; [done|]. by right.
  - rewrite boardTiles_initialBoard in Ht. by apply elem_of_nil in Ht.
Qed.

Lemma playMove_jokerBlank isWordValid tMove tTurn rnd room pid action pls ids :
  Forall jokerBlank (tilesOfRoom room) →
  Forall jokerBlank
    (tilesOfRoom (fst (playMove isWordValid tMove tTurn rnd room pid action pls ids))).
Proof.
  rewrite !Forall_forall. intros H t Ht. eapply H, playMove_tiles, Ht.
Qed.

(** A play stores on each cell it names the rack tile it puts there. *)
Lemma play_stores_rack_tile
    isWordValid tMove tTurn rnd room pid pls ids room' move ended g g' idx player x y t :
  r_game room = Some g →
  list_find (λ p, p_id p = pid) (r_players room) = Some (idx, player) →
  playMove isWordValid tMove tTurn rnd room pid play (Some pls) ids
    = (room', inr (move, ended)) →
  r_game room' = Some g' →
  tilePlacedAt (p_rack player) pls (x, y) = Some t →
  tileAt (g_board g') x y
  = Some {| tb_tile := t; tb_fromPlayerId := pid; tb_turnPlayed := g_version g + 1 |}.
Proof.
  intros Hg Hf H Hg' Ht.
  apply playMove_inr in H as (g0 & idx0 & player0 & m & mid & Hg0 & Hf0 & Ha & Happ & Hfin).
  assert (g0 = g) as -> by congruence.
  assert (idx0 = idx ∧ player0 = player) as [-> ->] by (split; congruence).
  inversion Happ as [| | ? ? plan board' drawn bag' Hv Hp Hd]; subst. simpl in Hp.
  eapply finishMove_keeps in Hfin as (_ & (g1 & Hg1 & _ & Hboard) & _); [|done].
  assert (g1 = g') as -> by congruence. rewrite Hboard. simpl.
  by rewrite (placeTiles_tileAt _ _ _ _ _ _ x y Hp), Ht.
Qed.

(** A joker adds nothing to a letter sum, newly placed or on the board. *)
Lemma letterValue_placed_joker board rack pls info xy t :
  buildPlacementInfo rack pls ∅ = Some info →
  Forall jokerBlank rack →
  tilePlacedAt rack pls xy = Some t → t_isJoker t = true →
  letterValue board pls info xy = 0.
Proof.
  intros Hinfo Hr Ht Hj. destruct (tilePlacedAt_elem _ _ _ _ Ht) as [Hin Hpl].
  unfold letterValue. rewrite decide_True by done.
  unfold getPlacementLetterValue. destruct xy as [x y]. simpl.
  rewrite (buildPlacementInfo_tilePlacedAt _ _ _ _ (x, y) Hinfo), Ht. simpl.
  rewrite Forall_forall in Hr. by destruct (Hr t Hin Hj).
Qed.

Lemma letterValue_board_joker board pls info xy t :
  Forall jokerBlank (boardTiles board) →
  ¬ placedOn pls xy → tileAt board (fst xy) (snd xy) = Some t →
  t_isJoker (tb_tile t) = true →
  letterValue board pls info xy = 0.
Proof.
  intros Hb Hnp Ht Hj. unfold letterValue. rewrite decide_False by done.
  unfold tileValueAt. rewrite Ht. rewrite Forall_forall in Hb.
  by destruct (Hb _ (tileAt_boardTiles _ _ _ _ Ht) Hj).
Qed.

(** C5 (amended). Every joker of a new game has the empty letter and the
    value 0, in the bag and on the racks; no call of [playMove] changes
    that, wherever the tile goes; a play stores on the cell the rack tile
    as it is, so a joker placed on the board keeps the empty letter (a
    placement names a cell and a tile, no letter) and the value 0; and a
    joker adds 0 to the letter sum of every word, newly placed or already
    on the board. *)
Theorem joker_stays_blank_and_worthless :
  (∀ lang ids rnd now room room',
     startNewGame lang ids rnd now room = (room', inr ()) →
     Forall jokerBlank (tilesOfRoom room'))
  ∧ (∀ isWordValid tMove tTurn rnd room pid action pls ids,
       Forall jokerBlank (tilesOfRoom room) →
       Forall jokerBlank
         (tilesOfRoom
            (fst (playMove isWordValid tMove tTurn rnd room pid action pls ids))))
  ∧ (∀ isWordValid tMove tTurn rnd room pid pls ids room' move ended g g' idx
       player x y t,
       r_game room = Some g →
       list_find (λ p, p_id p = pid) (r_players room) = Some (idx, player) →
       playMove isWordValid tMove tTurn rnd room pid play (Some pls) ids
         = (room', inr (move, ended)) →
       r_game room' = Some g' →
       tilePlacedAt (p_rack player) pls (x, y) = Some t →
       tileAt (g_board g') x y
       = Some {| tb_tile := t; tb_fromPlayerId := pid;
                 tb_turnPlayed := g_version g + 1 |})
  ∧ (∀ board rack pls info xy t,
       buildPlacementInfo rack pls ∅ = Some info →
       Forall jokerBlank rack →
       tilePlacedAt rack pls xy = Some t → t_isJoker t = true →
       letterValue board pls info xy = 0)
  ∧ (∀ board pls info xy t,
       Forall jokerBlank (boardTiles board) →
       ¬ placedOn pls xy → tileAt board (fst xy) (snd xy) = Some t →
       t_isJoker (tb_tile t) = true →
       letterValue board pls info xy = 0).
Proof.
  split; [exact startNewGame_jokerBlank|].
  split; [exact playMove_jokerBlank|].
  split; [exact play_stores_rack_tile|].
  split; [exact letterValue_placed_joker|exact letterValue_board_joker].
Qed.

End JokerFacts.

Section JokerExamples.

Import Js Spec Examples.

(** Ann opens with her blank and her S.  The play is accepted as the word
    ?S, which the dictionary matches with AS; the tile stored on the
    centre cell is the blank as it was on the rack, its letter empty. *)
Lemma placed_joker_keeps_the_empty_letter :
  ∃ move g',
    snd annPlaysBlankS = inr (move, false)
    ∧ ms_words move = ["?S"]
    ∧ dictionary "?S" = true
    ∧ r_game (fst annPlaysBlankS) = Some g'
    ∧ tileAt (g_board g') 7 7
      = Some {| tb_tile := blank "a5"; tb_fromPlayerId := "ann"; tb_turnPlayed := 2 |}
    ∧ t_letter (blank "a5") = ""
    ∧ t_letter (blank "a5") ≠ "A".
Proof. do 2 eexists. vm_compute. repeat split; (reflexivity || discriminate). Qed.

Lemma joker_witness :
  tileAt (default [] (g_board <$> r_game (fst annPlaysBlankS))) 7 7
  = Some {| tb_tile := blank "a5"; tb_fromPlayerId := "ann"; tb_turnPlayed := 2 |}.
Proof.
  destruct joker_stays_blank_and_worthless as (_ & _ & Hstore & _).
  apply (Hstore dictionary 1000 1001 rnd0 opening "ann"
           [at_ 7 7 "a5"; at_ 8 7 "a2"] None (fst annPlaysBlankS)
           (buildMoveSummary 1000 play "ann" [at_ 7 7 "a5"; at_ 8 7 "a2"] 2
              openingGame ["?S"]) false openingGame
           (default openingGame (r_game (fst annPlaysBlankS))) 0%nat ann 7 7
           (blank "a5")).
  - reflexivity.
  - reflexivity.
  - vm_compute. reflexivity.
  - vm_compute. reflexivity.
  - vm_compute. reflexivity.
Defined.

End JokerExamples.

(** ** Well-formed rooms: the standing assumptions are invariants *)

Section RoomInvariant.

Import Js Spec.

Lemma wfBoard_initialBoard : wfBoard initialBoard.
Proof. split; [reflexivity|]. vm_compute. repeat constructor. Qed.

Lemma setCell_wfBoard board x y c : wfBoard board → wfBoard (setCell board x y c).
Proof.
  intros [Hrows Hcols]. unfold setCell. split; [by rewrite length_alter|].
  apply Forall_forall. intros r Hr. rewrite Forall_forall in Hcols.
  apply list_elem_of_lookup in Hr as [i Hi].
  destruct (decide (i = Z.to_nat y)) as [->|Hne].
  - rewrite list_lookup_alter_eq in Hi.
    destruct (board !! Z.to_nat y) as [r0|] eqn:Hr0; [|done].
    injection Hi as <-. rewrite length_insert.
    by eapply Hcols, list_elem_of_lookup_2.
  - rewrite list_lookup_alter_ne in Hi by done.
    by eapply Hcols, list_elem_of_lookup_2.
Qed.

Lemma placeTiles_wfBoard rack pid turn pls : ∀ board board' err,
  placeTiles rack pid turn pls board = (board', err) →
  wfBoard board → wfBoard board'.
Proof.
  induction pls as [|p pls IH]; intros board board' err H Hwf; simpl in H.
  - by injection H as <- <-.
  - destruct (findTile rack (pl_tileId p)); [|by injection H as <- <-].
    destruct (cellAt board (pl_x p) (pl_y p)); [|by injection H as <- <-].
    eapply IH; [done|]. by apply setCell_wfBoard.
Qed.

Lemma finishMove_board tTurn m room g' :
  r_game (fst (finishMove tTurn m room)) = Some g' →
  ∃ g, r_game room = Some g ∧ g_board g' = g_board g.
Proof.
  unfold finishMove, advanceTurn, checkAndFinalizeIfEnded.
  destruct (r_game room) as [g|] eqn:Hg; simpl; [|by rewrite Hg].
  destruct (nthZ _ _) as [p|]; simpl.
  - destruct (gameHasEnded _ _); simpl; intros [= <-]; by exists g.
  - intros [= <-]. by exists g.
Qed.

Lemma playMove_wfBoard isWordValid tMove tTurn rnd room pid action pls ids g' :
  (∀ g, r_game room = Some g → wfBoard (g_board g)) →
  r_game (fst (playMove isWordValid tMove tTurn rnd room pid action pls ids)) = Some g' →
  wfBoard (g_board g').
Proof.
  intros Hwf. unfold playMove.
  destruct (r_game room) as [g|] eqn:Hg; [|by simpl; rewrite Hg].
  specialize (Hwf g eq_refl).
  destruct (list_find _ _) as [[idx player]|]; [|simpl; rewrite Hg; by intros [= <-]].
  destruct (negb _); [simpl; rewrite Hg; by intros [= <-]|].
  destruct action.
  - destruct (validatePlay _ _ _ _); [simpl; rewrite Hg; by intros [= <-]|].
    destruct (placeTiles _ _ _ _ _) as [board' [e|]] eqn:Hp.
    + simpl. intros [= <-]. simpl. by eapply placeTiles_wfBoard.
    + destruct (drawTiles _ _) as [drawn bag'].
      intros H. apply finishMove_board in H as (g1 & [= <-] & ->). simpl.
      by eapply placeTiles_wfBoard.
  - intros H. by apply finishMove_board in H as (g1 & [= <-] & ->).
  - destruct (decide _); [simpl; rewrite Hg; by intros [= <-]|].
    destruct (decide _); [simpl; rewrite Hg; by intros [= <-]|].
    destruct (negb _); [simpl; rewrite Hg; by intros [= <-]|].
    destruct (drawTiles _ _) as [drawn bag'].
    intros H. by apply finishMove_board in H as (g1 & [= <-] & ->).
Qed.

Lemma distribution_tileOk lang :
  Forall (λ def, (ld_isJoker def = true → ld_letter def = "" ∧ ld_value def = 0)
                 ∧ includesChar "." (ld_letter def) = false)
    (getLetterDistribution lang).
Proof.
  destruct lang; unfold getLetterDistribution;
    repeat (apply Forall_cons_2;
            [split; [intros H; simpl in H; (discriminate H || done)|reflexivity]|]);
    apply Forall_nil_2.
Qed.

Lemma buildBag_tileOk ids defs : ∀ start,
  Forall (λ def, (ld_isJoker def = true → ld_letter def = "" ∧ ld_value def = 0)
                 ∧ includesChar "." (ld_letter def) = false) defs →
  Forall (λ t, jokerBlank t ∧ plainLetter t) (buildBag ids start defs).
Proof.
  induction defs as [|def defs IH]; intros start H; simpl; [constructor|].
  apply Forall_cons in H as [Hd H]. apply Forall_app. split; [|by apply IH].
  unfold tilesOf. apply Forall_forall. intros t Ht.
  apply list_elem_of_fmap in Ht as (k & -> & _). exact Hd.
Qed.

(** [startNewGame] leaves a well-formed room. *)
Lemma startNewGame_wfRoom lang ids rnd now room room' :
  startNewGame lang ids rnd now room = (room', inr ()) → wfRoom room'.
Proof.
  unfold startNewGame. destruct (r_players room) as [|p0 ps] eqn:Hps; [discriminate|].
  destruct (dealRacks _ _) as [players bag'] eqn:Hd. intros [= <-]. split.
  - apply Forall_forall. intros t Ht.
    pose proof (buildBag_tileOk ids _ 0%nat (distribution_tileOk lang)) as Hbag.
    rewrite Forall_forall in Hbag. apply Hbag.
    rewrite <- (shuffle_Permutation rnd).
    apply elem_of_tilesOfRoom in Ht.
    cbn [r_game r_players withGame withPlayers] in Ht.
    destruct Ht as [(q & Hq & Ht)|(g0 & [= <-] & [Ht|Ht])];
      cbn [g_bag g_board] in Ht.
    + eapply dealRacks_from; [done|]. left. apply elem_of_racks. eauto.
    + eapply dealRacks_from; [done|]. by right.
    + rewrite boardTiles_initialBoard in Ht. by apply elem_of_nil in Ht.
  - intros g [= <-]. apply wfBoard_initialBoard.
Qed.

(** Every call of [playMove], accepted or refused, keeps the room
    well-formed. *)
Lemma playMove_wfRoom isWordValid tMove tTurn rnd room pid action pls ids :
  wfRoom room →
  wfRoom (fst (playMove isWordValid tMove tTurn rnd room pid action pls ids)).
Proof.
  intros [Htiles Hboard]. split.
  - rewrite Forall_forall in Htiles. apply Forall_forall.
    intros t Ht. eapply Htiles, playMove_tiles, Ht.
  - intros g' Hg'. by eapply playMove_wfBoard.
Qed.

Lemma runMoves_wfRoom isWordValid reqs : ∀ room,
  wfRoom room → wfRoom (fst (runMoves isWordValid room reqs)).
Proof.
  induction reqs as [|rq reqs IH]; intros room Hwf; simpl; [done|].
  specialize (IH (fst (submit isWordValid room rq))).
  destruct (runMoves isWordValid _ reqs) as [room' n]. simpl in *.
  apply IH. by apply playMove_wfRoom.
Qed.

(** In a well-formed room the standing assumptions of the theorems on
    plays hold for every player. *)
Lemma wfRoom_assumptions room g player :
  wfRoom room → r_game room = Some g → player ∈ r_players room →
  wfBoard (g_board g)
  ∧ Forall jokerBlank (boardTiles (g_board g) ++ p_rack player)
  ∧ Forall plainLetter (boardTiles (g_board g) ++ p_rack player).
Proof.
  intros [Htiles Hboard] Hg Hp. split; [by apply Hboard|].
  rewrite Forall_forall in Htiles.
  assert (∀ t, t ∈ boardTiles (g_board g) ++ p_rack player → t ∈ tilesOfRoom room) as Hin.
  { intros t Ht. apply elem_of_tilesOfRoom. apply elem_of_app in Ht as [Ht|Ht].
    - right. exists g. auto.
    - left. eauto. }
  split; apply Forall_forall; intros t Ht; by destruct (Htiles t (Hin t Ht)).
Qed.

End RoomInvariant.

Section CheckOrderTheorem.

Import Js Spec.

(** C3. For a play submitted by the active player of a well-formed room,
    the eight legality checks are decided in the order of the
    specification: when check [k + 1] is the first that fails, the play is
    refused with an error of that check (and the room is as before the
    call). *)
Theorem first_failing_check_determines_error
    isWordValid tMove tTurn rnd room pid g idx player pls ids k :
  wfRoom room →
  r_game room = Some g →
  list_find (λ p, p_id p = pid) (r_players room) = Some (idx, player) →
  g_activePlayerId g = pid →
  firstFailing
    (legalityChecks isWordValid (g_board g) (p_rack player) (default [] pls)) k →
  ∃ e, playMove isWordValid tMove tTurn rnd room pid play pls ids = (room, inl e)
       ∧ checkOf e = Some (S k).
Proof.
  intros Hroom Hg Hf Ha Hff.
  assert (player ∈ r_players room) as Hin.
  { apply list_find_Some in Hf as (Hl & _). by eapply list_elem_of_lookup_2. }
  destruct (wfRoom_assumptions _ _ _ Hroom Hg Hin) as (Hwf & _ & Hplain).
  destruct (validatePlay_first_failing _ _ _ _ _ Hwf Hplain Hff) as (e & He & Hk).
  exists e. split; [|done].
  unfold playMove. rewrite Hg, Hf, bool_decide_eq_true_2 by done. simpl.
  by rewrite He.
Qed.

End CheckOrderTheorem.

Section CheckOrderWitness.

Import Js Spec Examples.

(** The opening position is well-formed. *)
Lemma wfRoom_opening : wfRoom opening.
Proof.
  split.
  - assert (tilesOfRoom opening = p_rack ann ++ p_rack bob ++ smallBag) as ->
      by (vm_compute; reflexivity).
    unfold ann, bob, seat, smallBag. simpl.
    repeat (apply Forall_cons_2;
            [split; [intros Hj; (discriminate Hj || done)|reflexivity]|]).
    apply Forall_nil_2.
  - intros g [= <-]. apply wfBoard_initialBoard.
Qed.

(** Ann opens in a corner: checks 1 to 4 pass, check 5 fails. *)
Lemma first_failing_check_witness :
  ∃ e, playMove dictionary 1000 1001 rnd0 opening "ann" play
         (Some [at_ 0 0 "a1"; at_ 1 0 "a2"]) None = (opening, inl e)
       ∧ checkOf e = Some 5%nat.
Proof.
  apply (first_failing_check_determines_error dictionary 1000 1001 rnd0 opening "ann"
           openingGame 0%nat ann
           (Some [at_ 0 0 "a1"; at_ 1 0 "a2"]) None 4%nat).
  - exact wfRoom_opening.
  - reflexivity.
  - reflexivity.
  - reflexivity.
  - split.
    + eexists. split; [reflexivity|]. intros H.
      assert (boardIsEmpty initialBoard = true) as He by (vm_compute; reflexivity).
      specialize (H He). apply Exists_exists in H as (p & Hp & Hx & Hy).
      repeat (apply elem_of_cons in Hp as [->|Hp]; [simpl in *; lia|]).
      by apply elem_of_nil in Hp.
    + intros j c Hj Hl.
      destruct j as [|[|[|[|j]]]]; simpl in Hl; [injection Hl as <-..|lia].
      * done.
      * repeat constructor; simpl; try lia; vm_compute; reflexivity.
      * split; [|repeat constructor; vm_compute; intros H; repeat (apply elem_of_cons in H as [H|H]; [discriminate|]); by apply elem_of_nil in H].
        repeat constructor; simpl; apply list_elem_of_In; vm_compute; tauto.
      * left. exists 0. repeat constructor.
Defined.

End CheckOrderWitness.

Section ScoreExamples.

Import Js Spec Examples.

(** C1 at Bob's move: he puts one T under the A of AS.  The only word
    formed is AT, on the cells (7,7) and (7,8): by the formula it is worth
    1 + 1 = 2, and one tile earns no bonus of 50, so the words of the move
    total 2.  The move is accepted for 3: the total also holds the score
    of the row span through the T, a single cell that is no word. *)
Lemma lone_tile_is_scored_on_top_of_the_words :
  let board := default [] (g_board <$> r_game afterAS) in
  let pls := [at_ 7 8 "b1"] in
  let info := default ∅ (buildPlacementInfo (p_rack bob) pls ∅) in
  ∃ move,
    snd bobPlaysT = inr (move, false)
    ∧ ms_words move = ["AT"]
    ∧ wordScore board pls info [(7, 7); (7, 8)] = 2
    ∧ bingoBonus pls = 0
    ∧ ms_score move = 3
    ∧ ms_score move
      = wordScore board pls info [(7, 7); (7, 8)]
        + wordScore board pls info [(7, 8)]
        + bingoBonus pls.
Proof. eexists. vm_compute. repeat split; reflexivity. Qed.

(** C4 at Bob's move: he puts one T under the A of AS.  The row through
    the T has length 1 and the column through it spells AT, which alone
    scores 2; the move is accepted for 3, the lone T being scored as a
    main word on top of AT. *)
Lemma single_tile_play_scores_the_length_one_span :
  let board := default [] (g_board <$> r_game afterAS) in
  let pls := [at_ 7 8 "b1"] in
  let info := default ∅ (buildPlacementInfo (p_rack bob) pls ∅) in
  let main := buildMainWord board pls info (direction pls) in
  ∃ move,
    snd bobPlaysT = inr (move, false)
    ∧ ms_words move = ["AT"]
    ∧ ms_score move = 3
    ∧ direction pls = row
    ∧ (mw_lo main, mw_hi main, mw_word main) = (7, 7, "T")
    ∧ map cw_word (buildCrossWords board pls info (direction pls)) = ["AT"]
    ∧ map (scoreCrossWord board pls info) (buildCrossWords board pls info (direction pls))
      = [2]
    ∧ scoreWord board pls info (direction pls) main = 1.
Proof. eexists. vm_compute. repeat split; reflexivity. Qed.

End ScoreExamples.

(** ** The start of a game *)

Section StartFacts.

Import Js Spec Progress.

(** [dealRacks] while the bag lasts: seven tiles each, taken from the bag;
    nothing else of a player changes. *)
Lemma dealRacks_spec players : ∀ bag players' bag',
  dealRacks players bag = (players', bag') →
  (7 * length players ≤ length bag)%nat →
  length bag' = (length bag - 7 * length players)%nat
  ∧ flat_map p_rack players' ++ bag' ≡ₚ bag
  ∧ Forall2 (λ p p', p' = withRack p (p_rack p') ∧ length (p_rack p') = 7%nat)
      players players'.
Proof.
  induction players as [|p players IH]; intros bag players' bag' H Hlen;
    cbn [dealRacks] in H.
  - injection H as <- <-. cbn [length] in *. repeat split; [lia|done|constructor].
  - destruct (drawTiles bag 7) as [rack bag1] eqn:Hd.
    destruct (dealRacks players bag1) as [rest bag2] eqn:Hr.
    injection H as <- <-.
    apply drawTiles_spec in Hd as [Hperm Hout].
    cbn [length] in Hlen.
    assert (length rack = 7%nat) as Hrack by lia.
    assert (length bag1 = (length bag - 7)%nat) as Hbag1.
    { apply Permutation_length in Hperm. rewrite length_app in Hperm. lia. }
    destruct (IH bag1 rest bag2 Hr) as (Hl & Hp & Hf); [lia|].
    repeat split.
    + cbn [length]. lia.
    + cbn [flat_map]. cbn [p_rack withRack]. rewrite <- Hperm, <- Hp.
      by rewrite <- app_assoc.
    + constructor; [|done]. by split.
Qed.

(** The players of a new game start from nothing. *)
Lemma startNewGame_deals_fresh_players lang ids rnd now room room' :
  startNewGame lang ids rnd now room = (room', inr ()) →
  Forall (λ p, p_score p = 0) (r_players room').
Proof.
  unfold startNewGame. intros H.
  destruct (r_players room) as [|p0 ps]; [discriminate|].
  destruct (dealRacks _ _) as [players bag'] eqn:Hd. injection H as <-.
  cbn [r_players withGame withPlayers].
  revert Hd. generalize (shuffle rnd (buildBag ids 0 (getLetterDistribution lang))).
  generalize (p0 :: ps). intros l. revert players bag'.
  induction l as [|p l IH]; intros players bag' bag H; cbn [dealRacks map] in H.
  - injection H as <- <-. constructor.
  - destruct (drawTiles bag 7) as [rack bag1].
    destruct (dealRacks (map resetPlayer l) bag1) as [rest bag2] eqn:Hr.
    injection H as <- <-. constructor; [done|]. by eapply IH.
Qed.

(** Dealing takes the racks out of the bag, whatever the bag holds. *)
Lemma dealRacks_Permutation players : ∀ bag players' bag',
  dealRacks players bag = (players', bag') →
  flat_map p_rack players' ++ bag' ≡ₚ bag.
Proof.
  induction players as [|p players IH]; intros bag players' bag' H;
    cbn [dealRacks] in H.
  - by injection H as <- <-.
  - destruct (drawTiles bag 7) as [rack bag1] eqn:Hd.
    destruct (dealRacks players bag1) as [rest bag2] eqn:Hr.
    injection H as <- <-. apply drawTiles_spec in Hd as [Hperm _].
    cbn [flat_map p_rack withRack]. rewrite <- Hperm, <- (IH _ _ _ Hr).
    by rewrite <- app_assoc.
Qed.

(** The tiles of a new game are the full set. *)
Lemma startNewGame_tiles lang ids rnd now room room' :
  startNewGame lang ids rnd now room = (room', inr ()) →
  tilesOfRoom room' ≡ₚ fullBag lang ids.
Proof.
  unfold startNewGame. intros H.
  destruct (r_players room) as [|p0 ps]; [discriminate|].
  destruct (dealRacks _ _) as [players bag'] eqn:Hd. injection H as <-.
  apply dealRacks_Permutation in Hd. rewrite (shuffle_Permutation rnd) in Hd.
  unfold tilesOfRoom. cbn [r_players r_game withGame withPlayers g_bag g_board].
  rewrite boardTiles_initialBoard, app_nil_r. exact Hd.
Qed.

Lemma fullBag_length lang ids :
  length (fullBag lang ids) = match lang with EN => 100%nat | FR => 102%nat end.
Proof. destruct lang; reflexivity. Qed.

(** A new game: every player is reset and holds seven tiles, the bag holds
    the rest of the full set (100 tiles for EN, 102 for FR), no tile is
    lost or made up, the board is free of tiles, and the first player of
    the room is to move at version 1. *)
Theorem startNewGame_deals_seven_tiles_each lang ids rnd now room room' :
  startNewGame lang ids rnd now room = (room', inr ()) →
  (length (r_players room) ≤ 14)%nat →
  ∃ g',
    r_game room' = Some g'
    ∧ r_status room' = r_status room
    ∧ Forall2 (λ p p', p_id p' = p_id p ∧ p_nickname p' = p_nickname p
                       ∧ p_connectionId p' = p_connectionId p
                       ∧ p_score p' = 0 ∧ p_ready p' = false
                       ∧ p_stats p' = initialStats
                       ∧ length (p_rack p') = 7%nat)
        (r_players room) (r_players room')
    ∧ length (g_bag g')
      = (match lang with EN => 100 | FR => 102 end - 7 * length (r_players room))%nat
    ∧ flat_map p_rack (r_players room') ++ g_bag g' ≡ₚ fullBag lang ids
    ∧ boardTiles (g_board g') = []
    ∧ g_log g' = [] ∧ g_consecutivePasses g' = 0 ∧ g_version g' = 1
    ∧ g_turnIndex g' = 0
    ∧ Some (g_activePlayerId g') = p_id <$> head (r_players room)
    ∧ g_turnEndsAt g' = now + 120000.
Proof.
  unfold startNewGame. intros H Hn.
  destruct (r_players room) as [|p0 ps] eqn:Hps; [discriminate|].
  destruct (dealRacks _ _) as [players bag'] eqn:Hd. injection H as <-.
  apply dealRacks_spec in Hd as (Hl & Hp & Hf).
  2:{ rewrite length_map, (Permutation_length (shuffle_Permutation rnd _)).
      fold (fullBag lang ids). rewrite fullBag_length. destruct lang; lia. }
  rewrite (Permutation_length (shuffle_Permutation rnd _)) in Hl.
  rewrite (shuffle_Permutation rnd) in Hp.
  fold (fullBag lang ids) in Hl, Hp. rewrite fullBag_length, length_map in Hl.
  eexists. split; [reflexivity|].
  cbn [r_status r_players r_game withGame withPlayers g_bag g_board g_log
       g_consecutivePasses g_version g_turnIndex g_activePlayerId g_turnEndsAt].
  repeat split; try done.
  apply Forall2_fmap_l in Hf. eapply Forall2_impl; [exact Hf|].
  intros p p' [-> Hr]. by rewrite Hr.
Qed.

End StartFacts.

(** ** No read of [undefined] in a well-formed room *)

Section NoCrash.

Import Js Spec Progress.

Lemma cellAt_inside board x y :
  wfBoard board → 0 ≤ x < 15 → 0 ≤ y < 15 → is_Some (cellAt board x y).
Proof.
  intros [Hrows Hcols] Hx Hy. unfold cellAt.
  rewrite (nthZ_lookup board y) by lia.
  destruct (lookup_lt_is_Some_2 board (Z.to_nat y)) as [r Hr]; [lia|].
  rewrite Hr. rewrite (nthZ_lookup r x) by lia.
  apply lookup_lt_is_Some_2.
  rewrite Forall_forall in Hcols.
  rewrite (Hcols r) by (by eapply list_elem_of_lookup_2). lia.
Qed.

(** The commit loop goes through when every placement is on the board
    and names a tile of the rack. *)
Lemma placeTiles_ok rack pid turn pls : ∀ board,
  wfBoard board →
  Forall inBounds pls →
  Forall (λ p, pl_tileId p ∈ map t_id rack) pls →
  ∃ board', placeTiles rack pid turn pls board = (board', None).
Proof.
  induction pls as [|p pls IH]; intros board Hwf Hin Hid; simpl; [by eexists|].
  apply Forall_cons in Hin as [[Hx Hy] Hin]. apply Forall_cons in Hid as [Hp Hid].
  destruct (findTile_is_Some rack _ Hp) as [t ->].
  destruct (cellAt_inside board (pl_x p) (pl_y p) Hwf Hx Hy) as [c ->].
  apply IH; [by apply setCell_wfBoard|done|done].
Qed.

(** [advanceTurn] and [checkAndFinalizeIfEnded] go through in a room that
    has players and a turn index that is not negative. *)
Lemma finishMove_ok tTurn m room g :
  r_game room = Some g → 0 ≤ g_turnIndex g → r_players room ≠ [] →
  ∃ room' ended, finishMove tTurn m room = (room', inr (m, ended)).
Proof.
  intros Hg Hi Hps. unfold finishMove, advanceTurn. rewrite Hg.
  set (n := Z.of_nat (length (r_players room))).
  assert (0 < n) as Hn.
  { subst n. destruct (r_players room); [done|]. cbn [length]. lia. }
  pose proof (Z.rem_bound_pos (g_turnIndex g + 1) n ltac:(lia) Hn) as Hr.
  rewrite nthZ_lookup by lia.
  destruct (lookup_lt_is_Some_2 (r_players room)
              (Z.to_nat (Z.rem (g_turnIndex g + 1) n))) as [p Hp]; [lia|].
  rewrite Hp. unfold checkAndFinalizeIfEnded. cbn [r_game withGame r_players].
  destruct (gameHasEnded _ _); eauto.
Qed.

Lemma validatePlay_no_TypeError isWordValid g player pls :
  validatePlay isWordValid g player pls ≠ inl TypeError.
Proof.
  unfold validatePlay.
  destruct (decide (length pls = 0%nat)); [done|].
  destruct (checkCells _ _) as [e|] eqn:Hc.
  { intros [= ->]. clear -Hc. induction pls as [|p pls IH]; simpl in Hc; [done|].
    destruct (_ || _); [done|]. destruct (hasTile _ _ _); [done|]. auto. }
  destruct (checkTiles _ _ _) as [e|used] eqn:Ht.
  { intros [= ->]. clear -Ht. revert Ht. generalize (∅ : gset string).
    induction pls as [|p pls IH]; intros u Ht; simpl in Ht; [done|].
    destruct (negb _); [done|]. destruct (bool_decide _); [done|]. eauto. }
  destruct (_ && _); [done|]. destruct (_ && _); [done|].
  assert (check3 (p_rack player) pls) as [Hids _].
  { apply checkTiles_check3. eauto. }
  destruct (buildPlacementInfo_is_Some (p_rack player) pls ∅ Hids) as [info ->].
  destruct (negb _); [done|]. destruct (_ && _); [done|].
  destruct (decide _); [done|]. by destruct (list_find _ _) as [[? ?]|].
Qed.

Lemma list_find_nonempty {A} (P : A → Prop) `{∀ x, Decision (P x)} (l : list A) r :
  list_find P l = Some r → l ≠ [].
Proof. by destruct l. Qed.

Lemma playMove_no_TypeError isWordValid tMove tTurn rnd room pid action pls ids g :
  r_game room = Some g →
  wfBoard (g_board g) →
  0 ≤ g_turnIndex g →
  snd (playMove isWordValid tMove tTurn rnd room pid action pls ids) ≠ inl TypeError.
Proof.
  intros Hg Hwf Hi. unfold playMove. rewrite Hg.
  destruct (list_find _ _) as [[idx player]|] eqn:Hf; [|done].
  destruct (negb _); [done|].
  assert (∀ (p' : Player) g' m,
            0 ≤ g_turnIndex g' →
            snd (finishMove tTurn m
                   (withGame (withPlayers room (<[idx := p']> (r_players room)))
                      (Some g'))) ≠ inl TypeError) as Hfin.
  { intros p' g' m Hi'.
    destruct (finishMove_ok tTurn m
                (withGame (withPlayers room (<[idx := p']> (r_players room))) (Some g'))
                g' eq_refl Hi') as (room' & ended & ->); [|done].
    cbn [r_players withGame withPlayers]. intros Hnil.
    apply (f_equal length) in Hnil. rewrite length_insert in Hnil.
    apply list_find_nonempty in Hf. by destruct (r_players room). }
  destruct action.
  - destruct (validatePlay _ _ _ _) as [e|plan] eqn:Hv.
    { simpl. intros [= ->]. by eapply validatePlay_no_TypeError. }
    apply validatePlay_inr in Hv as (info & _ & Hc & Ht & _).
    apply checkCells_None in Hc.
    assert (check3 (p_rack player) (default [] pls)) as [Hids _].
    { apply checkTiles_check3. eauto. }
    destruct (placeTiles_ok (p_rack player) pid (g_version g + 1) (default [] pls)
                (g_board g) Hwf) as [board' ->]; [|done|].
    { eapply Forall_impl; [exact Hc|]. by intros p [? _]. }
    destruct (drawTiles _ _) as [drawn bag']. by apply Hfin.
  - by apply Hfin.
  - destruct (decide _); [done|]. destruct (decide _); [done|].
    destruct (negb _); [done|].
    destruct (drawTiles _ _) as [drawn bag']. by apply Hfin.
Qed.


End NoCrash.

(** ** What an accepted move leaves *)

Section Accepted.

Import Js Spec Progress.

Variable isWordValid : string → bool.
Variables (tMove tTurn : Z) (rnd : nat → nat).

(** The room after a move that went through, field by field. *)
Lemma playMove_accepted room pid action pls ids room' move ended :
  playMove isWordValid tMove tTurn rnd room pid action pls ids
    = (room', inr (move, ended)) →
  ∃ g idx player player' board' bag' p,
    r_game room = Some g
    ∧ list_find (λ q, p_id q = pid) (r_players room) = Some (idx, player)
    ∧ g_activePlayerId g = pid
    ∧ ms_playerId move = pid ∧ ms_action move = action
    ∧ ms_turnNumber move = g_version g + 1
    ∧ ms_createdAt move = tMove
    ∧ (action ≠ play →
         ms_score move = 0 ∧ ms_words move = [] ∧ ms_placements move = []
         ∧ board' = g_board g
         ∧ p_stats player' = withPasses (p_stats player) (passes (p_stats player) + 1))
    ∧ p_id player' = pid ∧ p_nickname player' = p_nickname player
    ∧ p_connected player' = p_connected player ∧ p_ready player' = p_ready player
    ∧ p_connectionId player' = p_connectionId player
    ∧ p_score player' = p_score player + ms_score move
    ∧ let mid := <[idx := player']> (r_players room) in
      let ti := (g_turnIndex g + 1) mod Z.of_nat (length (r_players room)) in
      let gm :=
        turnPassedTo
          (logMove g board' bag'
             (if decide (action = play) then 0 else g_consecutivePasses g + 1) move)
          ti p tTurn in
      nthZ mid ti = Some p
      ∧ ended = gameHasEnded mid gm
      ∧ room' = if ended
                then withStatus
                       (withPlayers (withGame (withPlayers room mid) (Some gm))
                          (finalScores mid)) finished
                else withGame (withPlayers room mid) (Some gm).
Proof.
  intros H.
  apply playMove_inr in H as (g & idx & player & m & mid & Hg & Hf & Ha & Happ & Hfin).
  apply finishMove_inr in Hfin as (gm & p & mid' & -> & Hgm & Hp & -> & Hc).
  apply checkAndFinalizeIfEnded_inr in Hc as (g' & Hg' & Hend & ->).
  simpl in Hg'. inversion Hg'; subst g'. clear Hg'.
  pose proof Hf as Hf'. apply list_find_Some in Hf' as (Hl & Hid & _).
  pose proof (lookup_lt_Some _ _ _ Hl) as Hlt.
  assert (∀ (ps : list Player) (gx : GameState),
            length ps = length (r_players room) →
            g_turnIndex gx = g_turnIndex g →
            is_Some (nthZ ps (Z.rem (g_turnIndex gx + 1) (Z.of_nat (length ps)))) →
            Z.rem (g_turnIndex gx + 1) (Z.of_nat (length ps))
            = (g_turnIndex g + 1) mod Z.of_nat (length (r_players room))) as Hrem.
  { intros ps gx Hlen Hti [q Hq]. apply nthZ_Some in Hq as [Hrange _].
    rewrite Hlen, Hti in *. apply rem_index_mod; [lia|done|lia]. }
  inversion Happ; subst; unfold applied in *;
    cbn [r_game r_players withGame withPlayers] in *;
    injection Hgm as <-; cbn [g_turnIndex logMove] in Hp |- *;
    pose proof (Hrem _ _ (length_insert _ _ _) eq_refl (mk_is_Some _ _ Hp)) as Hti;
    clear Hrem; rewrite Hti in Hp |- *.
  - exists g, idx, player, (incrPasses player), (g_board g), (g_bag g), p.
    rewrite decide_False by done.
    repeat split; try done; simpl; try lia; by destruct (gameHasEnded _ _).
  - exists g, idx, player,
      (incrPasses (withRack player
         (filter (λ t, t_id t ∉ default [] ids) (p_rack player) ++ drawn))),
      (g_board g), bag', p.
    rewrite decide_False by done.
    repeat split; try done; simpl; try lia; by destruct (gameHasEnded _ _).
  - exists g, idx, player,
      (afterPlay player (filter (λ t, t_id t ∉ pp_used plan) (p_rack player) ++ drawn)
         (pp_total plan) (mw_word (pp_main plan))),
      board', bag', p.
    rewrite decide_True by done.
    repeat split; try done; simpl; try lia; by destruct (gameHasEnded _ _).
Qed.

End Accepted.

(** ** The end of the game, on the room before and after the move *)

Section EndTheorem.

Import Js Spec.

(** The final scoring leaves the racks as they are. *)
Lemma finalScores_racks players :
  map p_rack (finalScores players) = map p_rack players.
Proof.
  apply list_eq. intros i. change (map p_rack) with (fmap (M := list) p_rack).
  rewrite !list_lookup_fmap.
  destruct (players !! i) as [p|] eqn:Hp.
  - by rewrite (finalScores_lookup _ _ _ Hp).
  - assert (finalScores players !! i = None) as ->; [|done].
    apply lookup_ge_None. rewrite finalScores_length. by apply lookup_ge_None.
Qed.

Lemma endCondition_racks players players' g :
  map p_rack players' = map p_rack players →
  endCondition players' g ↔ endCondition players g.
Proof.
  intros Hr. unfold endCondition.
  assert (∀ ps ps' : list Player, map p_rack ps' = map p_rack ps →
            (∃ p, p ∈ ps' ∧ p_rack p = []) → ∃ p, p ∈ ps ∧ p_rack p = []) as Hone.
  { intros ps ps' Heq (p & Hp & Hnil).
    assert (p_rack p ∈ map p_rack ps) as Hin.
    { rewrite <- Heq. apply list_elem_of_fmap. eauto. }
    apply list_elem_of_fmap in Hin as (q & Hq & Hin). exists q. split; [done|congruence]. }
  split; (intros [[Hb He]|Hp]; [left; split; [done|]|by right]).
  - by apply (Hone _ _ Hr).
  - by apply (Hone _ _ (eq_sym Hr)).
Qed.

Lemma soleFinisher_racks players players' i :
  map p_rack players' = map p_rack players →
  soleFinisher players' i → soleFinisher players i.
Proof.
  intros Hr Hs j q Hq.
  assert (∃ q', players' !! j = Some q' ∧ p_rack q' = p_rack q) as (q' & Hq' & Hrack).
  { assert (map p_rack players' !! j = Some (p_rack q)) as Hl.
    { rewrite Hr. change (map p_rack) with (fmap (M := list) p_rack).
      by rewrite list_lookup_fmap, Hq. }
    change (map p_rack) with (fmap (M := list) p_rack) in Hl.
    rewrite list_lookup_fmap in Hl.
    destruct (players' !! j) as [q'|]; [|done]. injection Hl as Hl. eauto. }
  rewrite <- Hrack. by apply Hs.
Qed.

Lemma othersFaceValue_racks players players' i :
  map p_rack players' = map p_rack players →
  othersFaceValue players' i = othersFaceValue players i.
Proof.
  intros Hr. unfold othersFaceValue. f_equal.
  assert (∀ ps : list Player,
            map (λ q, faceValue (p_rack q)) (delete i ps)
            = map faceValue (delete i (map p_rack ps))) as Hmap.
  { intros ps. revert i. induction ps as [|p ps IH]; intros [|i]; simpl; try done.
    - by rewrite map_map.
    - f_equal. apply IH. }
  by rewrite !Hmap, Hr.
Qed.

(** C2. After a move that went through in a room that was not finished
    already, the game is finished (the call answers [ended], the status
    is [finished]) exactly when, in the room as the move leaves it, the
    bag is empty and some rack is empty, or the counter of consecutive
    passes has reached 6.  Until then a player's score is the score before
    the move, plus the score of the move for the mover.  On the transition
    every player holding tiles has that score less the face value of the
    rack, and a player who alone has an empty rack has that score plus the
    face values of the other racks. *)
Theorem game_ends_and_final_scores
    isWordValid tMove tTurn rnd room pid action pls ids room' move ended g idx player :
  r_game room = Some g →
  list_find (λ p, p_id p = pid) (r_players room) = Some (idx, player) →
  playMove isWordValid tMove tTurn rnd room pid action pls ids
    = (room', inr (move, ended)) →
  r_status room ≠ finished →
  ∃ g',
    r_game room' = Some g'
    ∧ (ended = true ↔ endCondition (r_players room') g')
    ∧ (r_status room' = finished ↔ endCondition (r_players room') g')
    ∧ ∀ i q, r_players room !! i = Some q →
        ∃ q', r_players room' !! i = Some q'
          ∧ p_id q' = p_id q
          ∧ (i ≠ idx → p_rack q' = p_rack q)
          ∧ let credited :=
              p_score q + (if decide (i = idx) then ms_score move else 0) in
            (¬ endCondition (r_players room') g' → p_score q' = credited)
            ∧ (endCondition (r_players room') g' →
                 (p_rack q' ≠ [] → p_score q' = credited - faceValue (p_rack q'))
                 ∧ (soleFinisher (r_players room') i →
                      p_score q' = credited + othersFaceValue (r_players room') i)).
Proof.
  intros Hg Hf H Hst.
  apply playMove_accepted in H
    as (g0 & idx0 & player0 & player' & board' & bag' & p & Hg0 & Hf0 & _ & _ & _
        & _ & _ & _ & Hid' & _ & _ & _ & _ & Hscore & _ & Hend & Hroom).
  rewrite Hf in Hf0. injection Hf0 as <- <-.
  assert (g0 = g) as -> by congruence. clear Hg0.
  apply list_find_Some in Hf as (Hl & Hidp & _).
  set (mid := <[idx := player']> (r_players room)) in *.
  set (gm := turnPassedTo _ _ _ _) in *.
  (* the players after the move, before the final scoring *)
  assert (∀ i q, r_players room !! i = Some q →
            ∃ qm, mid !! i = Some qm ∧ p_id qm = p_id q
                  ∧ (i ≠ idx → qm = q)
                  ∧ p_score qm
                    = p_score q + (if decide (i = idx) then ms_score move else 0))
    as Hmid.
  { intros i q Hq. destruct (decide (i = idx)) as [->|Hne].
    - exists player'. subst mid.
      rewrite list_lookup_insert_eq by (by eapply lookup_lt_Some).
      assert (q = player) as -> by congruence.
      repeat split; [congruence|done|done].
    - exists q. subst mid. rewrite list_lookup_insert_ne by done.
      repeat split; [done|lia]. }
  pose proof (gameHasEnded_spec mid gm) as Hspec.
  exists gm. destruct ended.
  - (* the game ends *)
    assert (endCondition mid gm) as Hec by (apply Hspec; done).
    pose proof (finalScores_racks mid) as Hracks.
    assert (endCondition (r_players room') gm) as Hec'.
    { rewrite Hroom. cbn [r_players withStatus withPlayers].
      by apply (endCondition_racks mid (finalScores mid) gm Hracks). }
    split; [by rewrite Hroom|]. split; [done|].
    split; [split; [done|intros _; by rewrite Hroom]|].
    intros i q Hq. destruct (Hmid i q Hq) as (qm & Hqm & Hidm & Hsame & Hcred).
    rewrite Hroom. cbn [r_players withStatus withPlayers].
    eexists. split; [by apply finalScores_lookup|].
    cbn [p_id p_rack p_score withScore].
    assert (endCondition (finalScores mid) gm) as Hec2
      by (by apply (endCondition_racks mid (finalScores mid) gm Hracks)).
    split; [done|]. split; [by intros Hne; rewrite (Hsame Hne)|].
    split; [by intros Hn; destruct Hn|]. intros _. rewrite Hcred. split.
    + intros Hrack.
      destruct (finisherIndex mid) as [j|] eqn:Hfin; [|lia].
      destruct (decide (i = j)) as [->|Hne]; [|lia].
      unfold finisherIndex in Hfin.
      destruct (list_find hasEmptyRack mid) as [[j' qj]|] eqn:Hfind; [|done].
      injection Hfin as ->. apply list_find_Some in Hfind as (Hqj & Hempty & _).
      apply empty_rack in Hempty. congruence.
    + intros Hsole. apply (soleFinisher_racks mid (finalScores mid) i Hracks) in Hsole.
      assert (finisherIndex mid = Some i) as ->.
      { rewrite (finisherIndex_sole mid i Hsole). apply decide_True.
        by eapply lookup_lt_Some. }
      rewrite (decide_True (P := i = i)) by done.
      rewrite (othersFaceValue_racks mid (finalScores mid) i Hracks).
      assert (p_rack qm = []) as -> by (by apply (Hsole i qm Hqm)).
      unfold faceValue at 1. simpl. lia.
  - (* the game goes on *)
    assert (¬ endCondition mid gm) as Hec.
    { intros Hec. apply Hspec in Hec. congruence. }
    assert (r_players room' = mid ∧ r_status room' = r_status room) as [Hps Hstat].
    { by rewrite Hroom. }
    rewrite Hps, Hstat.
    split; [by rewrite Hroom|]. split; [split; [done|by intros ?]|].
    split; [split; [by intros ?|by intros ?]|].
    intros i q Hq. destruct (Hmid i q Hq) as (qm & Hqm & Hidm & Hsame & Hcred).
    exists qm. split; [done|]. split; [done|].
    split; [by intros Hne; rewrite (Hsame Hne)|].
    split; [done|]. by intros ?.
Qed.

End EndTheorem.

Section EndExamples.

Import Js Spec Examples.

(** Ann goes out with TAS while the bag is empty: the game is finished,
    Bob loses the 2 points of his rack and Ann gains them on top of the 3
    points of her move. *)
Lemma game_end_witness :
  ∃ g',
    r_game (fst annGoesOut) = Some g'
    ∧ (true = true ↔ endCondition (r_players (fst annGoesOut)) g')
    ∧ (r_status (fst annGoesOut) = finished
       ↔ endCondition (r_players (fst annGoesOut)) g')
    ∧ ∀ i q, r_players endgame !! i = Some q →
        ∃ q', r_players (fst annGoesOut) !! i = Some q'
          ∧ p_id q' = p_id q
          ∧ (i ≠ 0%nat → p_rack q' = p_rack q)
          ∧ let credited := p_score q + (if decide (i = 0%nat) then 3 else 0) in
            (¬ endCondition (r_players (fst annGoesOut)) g' → p_score q' = credited)
            ∧ (endCondition (r_players (fst annGoesOut)) g' →
                 (p_rack q' ≠ [] → p_score q' = credited - faceValue (p_rack q'))
                 ∧ (soleFinisher (r_players (fst annGoesOut)) i →
                      p_score q'
                      = credited + othersFaceValue (r_players (fst annGoesOut)) i)).
Proof.
  apply (game_ends_and_final_scores dictionary 3000 3001 rnd0 endgame "ann" play
           (Some [at_ 6 7 "a7"]) None (fst annGoesOut)
           (buildMoveSummary 3000 play "ann" [at_ 6 7 "a7"] 3
              (default openingGame (r_game endgame)) ["TAS"]) true
           (default openingGame (r_game endgame)) 0%nat
           (withScore (withRack ann [tile "a7" "T" 1]) 4)).
  - reflexivity.
  - reflexivity.
  - vm_compute. reflexivity.
  - simpl. discriminate.
Defined.

(** The scores of that end game: Ann had 4 and ends with 4 + 3 + 2, Bob
    had 0 and ends with 0 - 2. *)
Example annGoesOut_scores :
  map (λ p, (p_id p, p_score p)) (r_players endgame) = [("ann", 4); ("bob", 0)]
  ∧ map (λ p, (p_id p, p_score p)) (r_players (fst annGoesOut))
    = [("ann", 9); ("bob", -2)]
  ∧ r_status (fst annGoesOut) = finished.
Proof. vm_compute. repeat split; reflexivity. Qed.

End EndExamples.

(** ** The log of a game: numbering and seating order *)

Section LogFacts.

Import Js Spec Progress.

Lemma ids_insert (ps : list Player) idx p q :
  ps !! idx = Some p → p_id q = p_id p →
  map p_id (<[idx := q]> ps) = map p_id ps.
Proof.
  intros Hl Hid. change (map p_id) with (fmap (M := list) p_id).
  rewrite list_fmap_insert, Hid. apply list_insert_id.
  by rewrite list_lookup_fmap, Hl.
Qed.

Lemma ids_finalScores ps : map p_id (finalScores ps) = map p_id ps.
Proof.
  apply list_eq. intros i. change (map p_id) with (fmap (M := list) p_id).
  rewrite !list_lookup_fmap. apply finalScores_lookup_id.
Qed.

Lemma succ_mod_nat (k n : nat) :
  n ≠ 0%nat →
  (Z.of_nat (k mod n) + 1) mod Z.of_nat n = Z.of_nat ((k + 1) mod n).
Proof.
  intros Hn. rewrite !Nat2Z.inj_mod, Nat2Z.inj_add. simpl (Z.of_nat 1).
  rewrite Zplus_mod_idemp_l. done.
Qed.

(** What [startNewGame] leaves is the start of an orderly game. *)
Lemma startNewGame_orderly lang ids rnd now lobby room :
  startNewGame lang ids rnd now lobby = (room, inr ()) →
  orderly (map p_id (r_players lobby)) room
  ∧ ∃ g, r_game room = Some g ∧ g_log g = [].
Proof.
  unfold startNewGame. intros H.
  destruct (r_players lobby) as [|p0 ps] eqn:Hps; [discriminate|].
  destruct (dealRacks _ _) as [players bag'] eqn:Hd. injection H as <-.
  assert (map p_id players = map p_id (p0 :: ps)) as Hids.
  { clear -Hd. revert Hd. generalize (shuffle rnd (buildBag ids 0 (getLetterDistribution lang))).
    generalize (p0 :: ps). intros l. revert players bag'.
    induction l as [|p l IH]; intros players bag' bag H; cbn [dealRacks map] in H.
    - by injection H as <- <-.
    - destruct (drawTiles bag 7) as [rack bag1].
      destruct (dealRacks (map resetPlayer l) bag1) as [rest bag2] eqn:Hr.
      injection H as <- <-. cbn [map]. f_equal. by eapply IH. }
  split; [|eexists; split; [reflexivity|done]].
  split; [exact Hids|].
  eexists. split; [reflexivity|].
  cbn [g_board g_version g_log g_turnIndex g_activePlayerId g_lastMove length].
  split; [apply wfBoard_initialBoard|].
  rewrite Nat.Div0.mod_0_l. repeat split; try done.
Qed.

Section OneMove.

Variable isWordValid : string → bool.
Variables (tMove tTurn : Z) (rnd : nat → nat).

(** A submission keeps the game orderly; the log grows by the move when it
    is accepted, and not at all when it is refused. *)
Lemma playMove_orderly seats room pid action pls ids g :
  orderly seats room →
  r_game room = Some g →
  let o := playMove isWordValid tMove tTurn rnd room pid action pls ids in
  orderly seats (fst o)
  ∧ ∃ g', r_game (fst o) = Some g'
          ∧ g_log g' = g_log g ++ match snd o with
                                  | inr (move, _) => [move]
                                  | inl _ => []
                                  end.
Proof.
  intros Hord Hg o. subst o.
  destruct Hord as (Hseats & g0 & Hg0 & Hwf & Hver & Hti & Hact & Hlast & Hlog).
  assert (g0 = g) as -> by congruence. clear Hg0.
  destruct (playMove _ _ _ _ _ _ _ _ _) as [room' [e|[move ended]]] eqn:H; simpl.
  - pose proof (playMove_no_TypeError isWordValid tMove tTurn rnd room pid action pls ids
                  g Hg Hwf ltac:(lia)) as Hne.
    rewrite H in Hne. simpl in Hne.
    apply playMove_inl in H as [Hsame _]. rewrite Hsame by congruence.
    split; [|exists g; by rewrite app_nil_r].
    split; [done|]. exists g. done.
  - pose proof (playMove_wfBoard isWordValid tMove tTurn rnd room pid action pls ids) as Hwf'.
    rewrite H in Hwf'. simpl in Hwf'.
    apply playMove_accepted in H
      as (g0 & idx & player & player' & board' & bag' & p & Hg0 & Hf & Ha & Hpid & Hact'
          & Hturn & _ & _ & Hid' & _ & _ & _ & _ & _ & Hp & Hend & Hroom).
    assert (g0 = g) as -> by congruence. clear Hg0.
    apply list_find_Some in Hf as (Hl & Hidp & _).
    set (mid := <[idx := player']> (r_players room)) in *.
    assert (map p_id mid = seats) as Hmid.
    { subst mid. rewrite <- Hseats. eapply ids_insert; [done|]. congruence. }
    assert (length seats = length (r_players room)) as Hlen.
    { by rewrite <- Hseats, length_map. }
    assert (length seats ≠ 0%nat) as Hn.
    { rewrite Hlen. apply lookup_lt_Some in Hl. lia. }
    set (gm := turnPassedTo _ _ _ _) in *.
    assert (r_game room' = Some gm ∧ map p_id (r_players room') = seats) as [Hg' Hseats'].
    { rewrite Hroom.
      destruct ended; cbn [r_game r_players withGame withPlayers withStatus];
        split; try reflexivity; [by rewrite ids_finalScores | exact Hmid]. }
    assert (g_log gm = g_log g ++ [move]) as Hlog' by (by subst gm).
    assert (g_turnIndex gm = Z.of_nat ((length (g_log g) + 1) mod length seats)) as Hti'.
    { subst gm. cbn [g_turnIndex turnPassedTo]. rewrite Hti, <- Hlen.
      by apply succ_mod_nat. }
    split; [|exists gm; done].
    split; [done|]. exists gm. split; [done|].
    split; [apply Hwf'; [intros g1 Hg1; by replace g1 with g by congruence|done]|].
    rewrite Hlog', length_app. cbn [length].
    split; [subst gm; cbn [g_version turnPassedTo logMove]; lia|].
    split; [done|].
    split.
    { subst gm. cbn [g_activePlayerId turnPassedTo].
      apply nthZ_Some in Hp as [_ Hp].
      replace (Z.to_nat ((g_turnIndex g + 1) mod Z.of_nat (length (r_players room))))
        with ((length (g_log g) + 1) mod length seats)%nat in Hp
        by (rewrite Hti, <- Hlen, succ_mod_nat by done; by rewrite Nat2Z.id).
      set (i := ((length (g_log g) + 1) mod length seats)%nat) in *.
      rewrite <- Hmid. change (map p_id) with (fmap (M := list) p_id).
      by rewrite list_lookup_fmap, Hp. }
    split; [subst gm; cbn [g_lastMove turnPassedTo logMove]; by rewrite last_snoc|].
    intros k m Hk.
    destruct (decide (k < length (g_log g))%nat) as [Hlt|Hge].
    + rewrite lookup_app_l in Hk by done. by apply Hlog.
    + rewrite lookup_app_r in Hk by lia.
      destruct (k - length (g_log g))%nat as [|j] eqn:Hj;
        [|simpl in Hk; by rewrite lookup_nil in Hk].
      injection Hk as <-. assert (k = length (g_log g)) as -> by lia.
      split; [lia|]. rewrite Hpid, <- Ha. done.
Qed.

End OneMove.

Lemma runMoves_orderly isWordValid seats reqs : ∀ room g,
  orderly seats room →
  r_game room = Some g →
  orderly seats (fst (runMoves isWordValid room reqs))
  ∧ ∃ g', r_game (fst (runMoves isWordValid room reqs)) = Some g'
          ∧ length (g_log g')
            = (length (g_log g) + snd (runMoves isWordValid room reqs))%nat.
Proof.
  induction reqs as [|rq reqs IH]; intros room g Hord Hg; simpl.
  - split; [done|]. exists g. split; [done|lia].
  - destruct (playMove_orderly isWordValid (mr_tMove rq) (mr_tTurn rq) (mr_rnd rq) seats
                room (mr_playerId rq) (mr_action rq) (mr_placements rq)
                (mr_tileIdsToExchange rq) g Hord Hg) as (Hord1 & g1 & Hg1 & Hlog1).
    fold (submit isWordValid room rq) in Hord1, Hg1, Hlog1.
    destruct (IH _ g1 Hord1 Hg1) as (Hord2 & g2 & Hg2 & Hlen2).
    destruct (runMoves isWordValid (fst (submit isWordValid room rq)) reqs)
      as [room2 n] eqn:Hrun.
    simpl in *. split; [done|]. exists g2. split; [done|].
    rewrite Hlen2, Hlog1, length_app. unfold succeeded.
    destruct (snd (submit isWordValid room rq)) as [e|[move ended]]; simpl; lia.
Qed.

(** From the start of a game on, whatever is submitted: the log holds
    exactly the accepted moves, numbered 2, 3, ... (the version is the
    number of the last one), and the players moved strictly in the order
    of their seats, starting with the first. *)
Theorem moves_follow_the_seating_order isWordValid lang ids rnd now lobby room reqs :
  startNewGame lang ids rnd now lobby = (room, inr ()) →
  let seats := map p_id (r_players lobby) in
  let room' := fst (runMoves isWordValid room reqs) in
  map p_id (r_players room') = seats
  ∧ ∃ g',
      r_game room' = Some g'
      ∧ length (g_log g') = snd (runMoves isWordValid room reqs)
      ∧ g_version g' = 1 + Z.of_nat (length (g_log g'))
      ∧ g_lastMove g' = last (g_log g')
      ∧ (∀ k m, g_log g' !! k = Some m →
           ms_turnNumber m = Z.of_nat k + 2
           ∧ Some (ms_playerId m) = seats !! (k mod length seats)%nat)
      ∧ Some (g_activePlayerId g') = seats !! (length (g_log g') mod length seats)%nat.
Proof.
  intros H seats room'.
  apply startNewGame_orderly in H as (Hord & g & Hg & Hlog).
  destruct (runMoves_orderly isWordValid seats reqs room g Hord Hg)
    as (Hord' & g' & Hg' & Hlen).
  fold room' in Hord', Hg'.
  destruct Hord' as (Hseats & g1 & Hg1 & _ & Hver & _ & Hact & Hlast & Hentries).
  assert (g1 = g') as -> by congruence.
  split; [done|]. exists g'. rewrite Hlog in Hlen. simpl in Hlen. done.
Qed.

End LogFacts.

(** ** Invariants of a game in progress *)

Section RunFacts.

Import Js Spec Progress.

(** A property that every submission keeps holds after any sequence of
    submissions. *)
Lemma runMoves_invariant (I : Room → Prop) (Q : MoveRequest → Prop) isWordValid :
  (∀ room rq, Q rq → I room → I (fst (submit isWordValid room rq))) →
  ∀ reqs room, Forall Q reqs → I room → I (fst (runMoves isWordValid room reqs)).
Proof.
  intros Hstep. induction reqs as [|rq reqs IH]; intros room HQ HI; simpl; [done|].
  apply Forall_cons in HQ as [Hq HQ].
  specialize (IH (fst (submit isWordValid room rq)) HQ (Hstep room rq Hq HI)).
  by destruct (runMoves isWordValid (fst (submit isWordValid room rq)) reqs).
Qed.

Lemma Forall_True {A} (l : list A) : Forall (λ _, True) l.
Proof. by apply Forall_forall. Qed.

Lemma sumZ_app l1 l2 : sumZ (l1 ++ l2) = sumZ l1 + sumZ l2.
Proof. unfold sumZ. induction l1 as [|a l1 IH]; simpl; lia. Qed.

Lemma loggedScore_snoc log m pid :
  loggedScore (log ++ [m]) pid
  = loggedScore log pid + (if decide (ms_playerId m = pid) then ms_score m else 0).
Proof.
  unfold loggedScore. rewrite filter_app, map_app, sumZ_app. f_equal.
  destruct (decide (ms_playerId m = pid)) as [He|Hne].
  - rewrite filter_cons_True by done. rewrite filter_nil. simpl. lia.
  - rewrite filter_cons_False by done. by rewrite filter_nil.
Qed.

Lemma trailingPasses_snoc log m :
  trailingPasses (log ++ [m])
  = if decide (ms_action m = play) then 0%nat else S (trailingPasses log).
Proof.
  unfold trailingPasses. rewrite reverse_snoc. cbn [list_find].
  destruct (decide (ms_action m = play)) as [He|Hne]; [done|].
  destruct (list_find _ (reverse log)) as [[i x]|]; simpl.
  - done.
  - rewrite length_app. simpl. lia.
Qed.

Section OneMove.

Variable isWordValid : string → bool.
Variables (tMove tTurn : Z) (rnd : nat → nat).

(** In an orderly game a refused submission changes nothing. *)
Lemma playMove_refused seats room pid action pls ids room' e :
  orderly seats room →
  playMove isWordValid tMove tTurn rnd room pid action pls ids = (room', inl e) →
  room' = room.
Proof.
  intros (_ & g & Hg & Hwf & _ & Hti & _) H.
  pose proof (playMove_no_TypeError isWordValid tMove tTurn rnd room pid action pls ids
                g Hg Hwf ltac:(lia)) as Hne.
  rewrite H in Hne. simpl in Hne.
  apply playMove_inl in H as [Hsame _]. apply Hsame. congruence.
Qed.

(** While the game has not ended, an accepted move credits its score to
    the mover and to nobody else. *)
Lemma playMove_scores seats room pid action pls ids :
  orderly seats room → NoDup seats →
  r_status room = finished ∨ scoresMatchLog room →
  let room' := fst (playMove isWordValid tMove tTurn rnd room pid action pls ids) in
  r_status room' = finished ∨ scoresMatchLog room'.
Proof.
  intros Hord Hnd Hinv room'. subst room'.
  destruct (playMove _ _ _ _ _ _ _ _ _) as [room' [e|[move ended]]] eqn:H; simpl.
  { by rewrite (playMove_refused _ _ _ _ _ _ _ _ Hord H). }
  destruct Hord as (Hseats & _).
  apply playMove_accepted in H
    as (g & idx & player & player' & board' & bag' & p & Hg & Hf & Ha & Hpid & _
        & _ & _ & _ & Hid' & _ & _ & _ & _ & Hscore & _ & _ & Hroom).
  rewrite Hroom. destruct ended; [by left|].
  destruct Hinv as [Hfin|(g0 & Hg0 & Hsc)]; [by left|]. right.
  assert (g0 = g) as -> by congruence.
  eexists. split; [reflexivity|].
  cbn [r_players withGame withPlayers g_log turnPassedTo logMove].
  apply list_find_Some in Hf as (Hl & Hidp & _).
  apply Forall_forall. intros q Hq. rewrite loggedScore_snoc.
  apply list_elem_of_lookup in Hq as [j Hj].
  destruct (decide (j = idx)) as [->|Hne].
  - rewrite list_lookup_insert_eq in Hj by (by eapply lookup_lt_Some).
    injection Hj as <-. rewrite Hid', Hpid, decide_True by done.
    rewrite Forall_forall in Hsc. rewrite Hscore.
    rewrite (Hsc player) by (by eapply list_elem_of_lookup_2). by rewrite Hidp.
  - rewrite list_lookup_insert_ne in Hj by done.
    rewrite Forall_forall in Hsc.
    rewrite (Hsc q) by (by eapply list_elem_of_lookup_2).
    rewrite decide_False; [lia|].
    rewrite Hpid. intros Heq. apply Hne.
    rewrite <- Hseats in Hnd.
    eapply (NoDup_lookup (map p_id (r_players room))); [done| |].
    + change (map p_id) with (fmap (M := list) p_id). by rewrite list_lookup_fmap, Hj.
    + change (map p_id) with (fmap (M := list) p_id).
      rewrite list_lookup_fmap, Hl. simpl. congruence.
Qed.

(** The counter of passes after a submission. *)
Lemma playMove_passes seats room pid action pls ids g :
  orderly seats room →
  r_game room = Some g →
  g_consecutivePasses g = Z.of_nat (trailingPasses (g_log g)) →
  ∃ g', r_game (fst (playMove isWordValid tMove tTurn rnd room pid action pls ids))
        = Some g'
        ∧ g_consecutivePasses g' = Z.of_nat (trailingPasses (g_log g')).
Proof.
  intros Hord Hg Hcp.
  destruct (playMove _ _ _ _ _ _ _ _ _) as [room' [e|[move ended]]] eqn:H; simpl.
  { rewrite (playMove_refused _ _ _ _ _ _ _ _ Hord H). eauto. }
  apply playMove_accepted in H
    as (g0 & idx & player & player' & board' & bag' & p & Hg0 & _ & _ & _ & Hact
        & _ & _ & _ & _ & _ & _ & _ & _ & _ & _ & _ & Hroom).
  assert (g0 = g) as -> by congruence.
  eexists. split; [rewrite Hroom; by destruct ended|].
  cbn [g_consecutivePasses g_log turnPassedTo logMove].
  rewrite trailingPasses_snoc, Hact.
  destruct (decide (action = play)); [done|]. lia.
Qed.

End OneMove.

(** From the start of a game on, and as long as the game has not ended,
    every player's score is the sum of the scores of the moves the log
    records for the player (the ids of the players being distinct). *)
Theorem scores_are_the_sums_of_the_log isWordValid lang ids rnd now lobby room reqs :
  startNewGame lang ids rnd now lobby = (room, inr ()) →
  NoDup (map p_id (r_players lobby)) →
  let room' := fst (runMoves isWordValid room reqs) in
  r_status room' ≠ finished →
  ∃ g', r_game room' = Some g'
        ∧ Forall (λ p, p_score p = loggedScore (g_log g') (p_id p)) (r_players room').
Proof.
  intros H Hnd room' Hst.
  pose proof (startNewGame_deals_fresh_players lang ids rnd now lobby room H) as Hfresh.
  apply startNewGame_orderly in H as (Hord & g & Hg & Hlog).
  set (seats := map p_id (r_players lobby)) in *.
  assert (orderly seats room' ∧ (r_status room' = finished ∨ scoresMatchLog room'))
    as [_ [Hfin|Hsc]]; [|done|done].
  apply (runMoves_invariant
           (λ r, orderly seats r ∧ (r_status r = finished ∨ scoresMatchLog r))
           (λ _, True) isWordValid); [|apply Forall_True|].
  - intros r rq _ [Hord' Hinv']. split.
    + destruct Hord' as (Hs & g1 & Hg1 & Hrest).
      eapply playMove_orderly; [|done]. split; [done|]. eauto.
    + by eapply playMove_scores.
  - split; [done|]. right. exists g. split; [done|].
    rewrite Hlog. eapply Forall_impl; [exact Hfresh|]. by intros p ->.
Qed.

(** From the start of a game on, the counter of consecutive passes is the
    number of passes and exchanges logged since the last play. *)
Theorem pass_counter_counts_since_the_last_play
    isWordValid lang ids rnd now lobby room reqs :
  startNewGame lang ids rnd now lobby = (room, inr ()) →
  ∃ g', r_game (fst (runMoves isWordValid room reqs)) = Some g'
        ∧ g_consecutivePasses g' = Z.of_nat (trailingPasses (g_log g')).
Proof.
  intros H.
  assert (∃ g, r_game room = Some g ∧ g_consecutivePasses g = 0 ∧ g_log g = [])
    as (g & Hg & Hcp & Hlog).
  { unfold startNewGame in H. destruct (r_players lobby); [discriminate|].
    destruct (dealRacks _ _). injection H as <-. eexists. by split. }
  apply startNewGame_orderly in H as (Hord & _).
  set (seats := map p_id (r_players lobby)) in *.
  assert (orderly seats (fst (runMoves isWordValid room reqs))
          ∧ ∃ g', r_game (fst (runMoves isWordValid room reqs)) = Some g'
                  ∧ g_consecutivePasses g' = Z.of_nat (trailingPasses (g_log g')))
    as [_ Hres]; [|done].
  apply (runMoves_invariant
           (λ r, orderly seats r
                 ∧ ∃ g', r_game r = Some g'
                         ∧ g_consecutivePasses g' = Z.of_nat (trailingPasses (g_log g')))
           (λ _, True) isWordValid); [|apply Forall_True|].
  - intros r rq _ [Hord' (g1 & Hg1 & Hcp1)]. split.
    + eapply playMove_orderly; [done|done].
    + by eapply playMove_passes.
  - split; [done|]. exists g. split; [done|]. by rewrite Hcp, Hlog.
Qed.

End RunFacts.

(** ** The board during a game *)

Section BoardFacts.

Import Js Spec Progress.

(** The commit loop touches the cells of the placements only. *)
Lemma placeTiles_elsewhere rack pid turn pls : ∀ board board' err x y,
  placeTiles rack pid turn pls board = (board', err) →
  Forall (λ p, (pl_x p, pl_y p) ≠ (x, y)) pls →
  cellAt board' x y = cellAt board x y.
Proof.
  induction pls as [|p pls IH]; intros board board' err x y H Hne; simpl in H.
  - by injection H as <- <-.
  - apply Forall_cons in Hne as [Hp Hne].
    destruct (findTile rack (pl_tileId p)); [|by injection H as <- <-].
    destruct (cellAt board (pl_x p) (pl_y p)) as [c|] eqn:Hc; [|by injection H as <- <-].
    rewrite (IH _ _ _ _ _ H Hne).
    rewrite cellAt_setCell by (by rewrite Hc).
    rewrite decide_False; [done|]. intros [-> ->]. done.
Qed.

Lemma setCell_premiums board x y cell tile pid turn :
  cellAt board x y = Some cell →
  premiumsTrackTiles board →
  premiumsTrackTiles (setCell board x y (placeOn cell tile pid turn)).
Proof.
  intros Hc Hinv x' y' c'. rewrite cellAt_setCell by (by rewrite Hc).
  destruct (decide (x' = x ∧ y' = y)) as [[-> ->]|Hne]; [|apply Hinv].
  intros [= <-]. cbn [placeOn c_bonusUsed c_bonus c_tile].
  specialize (Hinv x y cell Hc).
  destruct (c_bonus cell) as [b|].
  - split; [intros _; split; by eexists|done].
  - split.
    + intros Hu. apply Hinv in Hu as [[? ?] _]. done.
    + intros [[? ?] _]. done.
Qed.

Lemma placeTiles_premiums rack pid turn pls : ∀ board board' err,
  placeTiles rack pid turn pls board = (board', err) →
  premiumsTrackTiles board → premiumsTrackTiles board'.
Proof.
  induction pls as [|p pls IH]; intros board board' err H Hinv; simpl in H.
  - by injection H as <- <-.
  - destruct (findTile rack (pl_tileId p)); [|by injection H as <- <-].
    destruct (cellAt board (pl_x p) (pl_y p)) as [c|] eqn:Hc; [|by injection H as <- <-].
    eapply IH; [done|]. by apply setCell_premiums.
Qed.

Lemma placeTiles_layout rack pid turn pls : ∀ board board' err,
  placeTiles rack pid turn pls board = (board', err) → sameLayout board board'.
Proof.
  induction pls as [|p pls IH]; intros board board' err H x y; simpl in H.
  - by injection H as <- <-.
  - destruct (findTile rack (pl_tileId p)); [|by injection H as <- <-].
    destruct (cellAt board (pl_x p) (pl_y p)) as [c|] eqn:Hc; [|by injection H as <- <-].
    rewrite (IH _ _ _ H x y). rewrite cellAt_setCell by (by rewrite Hc).
    destruct (decide (x = pl_x p ∧ y = pl_y p)) as [[-> ->]|Hne]; [|done].
    by rewrite Hc.
Qed.

(** [finishMove] leaves board and bag as they are, whatever its outcome. *)
Lemma finishMove_game tTurn m room g :
  r_game room = Some g →
  ∃ g', r_game (fst (finishMove tTurn m room)) = Some g'
        ∧ g_board g' = g_board g ∧ g_bag g' = g_bag g.
Proof.
  intros Hg. unfold finishMove, advanceTurn. rewrite Hg.
  destruct (nthZ _ _) as [p|]; [|eexists; by split].
  unfold checkAndFinalizeIfEnded. cbn [r_game withGame r_players].
  destruct (gameHasEnded _ _); eexists; by split.
Qed.

Section OneMove.

Variable isWordValid : string → bool.
Variables (tMove tTurn : Z) (rnd : nat → nat).

(** The board after a submission, whatever its outcome: as it was, or
    as the commit loop left it after the cells were checked. *)
Lemma playMove_board room pid action pls ids g :
  r_game room = Some g →
  ∃ g', r_game (fst (playMove isWordValid tMove tTurn rnd room pid action pls ids))
        = Some g'
        ∧ (g_board g' = g_board g
           ∨ ∃ rack err,
               checkCells (g_board g) (default [] pls) = None
               ∧ placeTiles rack pid (g_version g + 1) (default [] pls) (g_board g)
                 = (g_board g', err)).
Proof.
  intros Hg. unfold playMove. rewrite Hg.
  destruct (list_find _ _) as [[idx player]|]; [|eauto].
  destruct (negb _); [eauto|].
  assert (∀ (p' : Player) g1 m,
            ∃ g', r_game (fst (finishMove tTurn m
                    (withGame (withPlayers room (<[idx := p']> (r_players room)))
                       (Some g1)))) = Some g'
                  ∧ g_board g' = g_board g1) as Hfin.
  { intros p' g1 m.
    destruct (finishMove_game tTurn m
                (withGame (withPlayers room (<[idx := p']> (r_players room))) (Some g1))
                g1 eq_refl) as (g' & Hg' & Hb & _). eauto. }
  destruct action.
  - destruct (validatePlay _ _ _ _) as [e|plan] eqn:Hv; [eauto|].
    apply validatePlay_inr in Hv as (info & _ & Hc & _).
    destruct (placeTiles _ _ _ _ _) as [board' [e|]] eqn:Hp.
    + eexists. split; [reflexivity|]. right. eauto.
    + destruct (drawTiles _ _) as [drawn bag'].
      destruct (Hfin (afterPlay player
                        (filter (λ t, t_id t ∉ pp_used plan) (p_rack player) ++ drawn)
                        (pp_total plan) (mw_word (pp_main plan)))
                  (logMove g board' bag' 0
                     (buildMoveSummary tMove play pid (default [] pls) (pp_total plan) g
                        (pp_allWords plan)))
                  (buildMoveSummary tMove play pid (default [] pls) (pp_total plan) g
                     (pp_allWords plan))) as (g' & Hg' & Hb).
      exists g'. split; [done|]. right. exists (p_rack player), None.
      split; [done|]. by rewrite Hb.
  - destruct (Hfin (incrPasses player)
                (logMove g (g_board g) (g_bag g) (g_consecutivePasses g + 1)
                   (buildMoveSummary tMove pass pid [] 0 g []))
                (buildMoveSummary tMove pass pid [] 0 g [])) as (g' & Hg' & Hb).
    eauto.
  - destruct (decide _); [eauto|]. destruct (decide _); [eauto|].
    destruct (negb _); [eauto|].
    destruct (drawTiles _ _) as [drawn bag'].
    destruct (Hfin (incrPasses (withRack player
                      (filter (λ t, t_id t ∉ default [] ids) (p_rack player) ++ drawn)))
                (logMove g (g_board g) bag' (g_consecutivePasses g + 1)
                   (buildMoveSummary tMove exchange pid [] 0 g []))
                (buildMoveSummary tMove exchange pid [] 0 g [])) as (g' & Hg' & Hb).
    eauto.
Qed.

(** A tile that lies on the board lies there after any submission. *)
Lemma playMove_keeps_tile room pid action pls ids g x y t :
  r_game room = Some g →
  tileAt (g_board g) x y = Some t →
  ∃ g', r_game (fst (playMove isWordValid tMove tTurn rnd room pid action pls ids))
        = Some g'
        ∧ tileAt (g_board g') x y = Some t.
Proof.
  intros Hg Ht.
  destruct (playMove_board room pid action pls ids g Hg)
    as (g' & Hg' & [Hb|(rack & err & Hc & Hp)]);
    exists g'; (split; [done|]); [by rewrite Hb|].
  unfold tileAt in *. erewrite placeTiles_elsewhere; [done|done|].
  apply checkCells_None in Hc. eapply Forall_impl; [exact Hc|].
  intros p [_ Hfree] [= Hx Hy]. unfold targetsEmptyCell, hasTile, tileAt in Hfree.
  rewrite Hx, Hy in Hfree. destruct (cellAt (g_board g) x y) as [c|]; [|done].
  by rewrite Ht in Hfree.
Qed.

End OneMove.

(** A tile that lies on the board stays where it is, as it is, whatever is
    submitted afterwards: no move replaces, moves or removes it. *)
Theorem tiles_on_the_board_stay isWordValid room reqs g x y t :
  r_game room = Some g →
  tileAt (g_board g) x y = Some t →
  ∃ g', r_game (fst (runMoves isWordValid room reqs)) = Some g'
        ∧ tileAt (g_board g') x y = Some t.
Proof.
  intros Hg Ht.
  apply (runMoves_invariant
           (λ r, ∃ g', r_game r = Some g' ∧ tileAt (g_board g') x y = Some t)
           (λ _, True) isWordValid); [|apply Forall_True|by exists g].
  intros r rq _ (g1 & Hg1 & Ht1). by eapply playMove_keeps_tile.
Qed.

(** From the start of a game on, the premium squares are where the layout
    puts them, and a premium is marked as used exactly when its square
    carries a tile: a premium can count in one move only. *)
Theorem premiums_are_used_exactly_under_tiles
    isWordValid lang ids rnd now lobby room reqs :
  startNewGame lang ids rnd now lobby = (room, inr ()) →
  ∃ g', r_game (fst (runMoves isWordValid room reqs)) = Some g'
        ∧ sameLayout initialBoard (g_board g')
        ∧ premiumsTrackTiles (g_board g')
        ∧ ∀ x y, hasTile (g_board g') x y = true →
                 multipliersAt (g_board g') x y = (1, 1).
Proof.
  intros H.
  assert (∃ g', r_game (fst (runMoves isWordValid room reqs)) = Some g'
                ∧ sameLayout initialBoard (g_board g')
                ∧ premiumsTrackTiles (g_board g')) as (g' & Hg' & Hl & Hp).
  { apply (runMoves_invariant
             (λ r, ∃ g', r_game r = Some g' ∧ sameLayout initialBoard (g_board g')
                         ∧ premiumsTrackTiles (g_board g'))
             (λ _, True) isWordValid); [|apply Forall_True|].
    - intros r rq _ (g1 & Hg1 & Hl1 & Hp1).
      destruct (playMove_board isWordValid (mr_tMove rq) (mr_tTurn rq) (mr_rnd rq) r
                  (mr_playerId rq) (mr_action rq) (mr_placements rq)
                  (mr_tileIdsToExchange rq) g1 Hg1)
        as (g2 & Hg2 & [Hb|(rack & err & Hc & Hpl)]);
        exists g2; (split; [done|]).
      + by rewrite Hb.
      + split; [|by eapply placeTiles_premiums].
        intros x y. rewrite <- (Hl1 x y). by eapply placeTiles_layout.
    - unfold startNewGame in H. destruct (r_players lobby); [discriminate|].
      destruct (dealRacks _ _). injection H as <-. eexists. split; [reflexivity|].
      cbn [g_board]. split; [done|].
      intros x y c Hc. apply cellAt_Some in Hc as (Hx & Hy & r & Hr & Hcell).
      assert (c_bonusUsed c = false ∧ c_tile c = None) as [-> ->].
      { assert (Forall (Forall (λ c, c_bonusUsed c = false ∧ c_tile c = None))
                  initialBoard) as Hall.
        { vm_compute. repeat constructor. }
        rewrite Forall_forall in Hall.
        specialize (Hall r ltac:(by eapply list_elem_of_lookup_2)).
        rewrite Forall_forall in Hall. apply Hall. by eapply list_elem_of_lookup_2. }
      split; [done|]. by intros [_ [? ?]]. }
  exists g'. split; [done|]. split; [done|]. split; [done|].
  intros x y Ht. unfold multipliersAt, hasTile, tileAt in *.
  destruct (cellAt (g_board g') x y) as [c|] eqn:Hc; [|done].
  unfold letterAndWordMultipliers.
  destruct (c_bonus c) as [b|] eqn:Hb; [|done].
  assert (c_bonusUsed c = true) as ->; [|done].
  apply (Hp x y c Hc). split; [by rewrite Hb|]. by destruct (c_tile c).
Qed.

End BoardFacts.

(** ** No tile is lost or made up *)

Section Conservation.

Import Js Spec Progress.

Lemma flat_map_insert {A B} (f : A → list B) l i a a' :
  l !! i = Some a →
  flat_map f (<[i := a']> l) ++ f a ≡ₚ flat_map f l ++ f a'.
Proof.
  intros Hl. rewrite insert_take_drop by (by eapply lookup_lt_Some).
  rewrite <- (take_drop_middle l i a Hl) at 3.
  rewrite !flat_map_app. cbn [flat_map]. solve_Permutation.
Qed.

(** The tiles of a board after one of its cells was replaced. *)
Lemma boardTiles_setCell board x y cell c' :
  cellAt board x y = Some cell →
  boardTiles (setCell board x y c')
    ++ match c_tile cell with Some t => [tb_tile t] | None => [] end
  ≡ₚ boardTiles board
    ++ match c_tile c' with Some t => [tb_tile t] | None => [] end.
Proof.
  intros Hc. apply cellAt_Some in Hc as (Hx & Hy & r & Hr & Hcell).
  unfold setCell, boardTiles.
  assert (alter (λ r0, <[Z.to_nat x := c']> r0) (Z.to_nat y) board
          = <[Z.to_nat y := <[Z.to_nat x := c']> r]> board) as ->.
  { apply list_eq. intros i. destruct (decide (i = Z.to_nat y)) as [->|Hne].
    - rewrite list_lookup_alter_eq, Hr.
      by rewrite list_lookup_insert_eq by (by eapply lookup_lt_Some).
    - by rewrite list_lookup_alter_ne, list_lookup_insert_ne by done. }
  set (cellTiles := λ c : BoardCell,
         match c_tile c with Some t => [tb_tile t] | None => [] end).
  set (rowTiles := λ r0 : list BoardCell, flat_map cellTiles r0).
  pose proof (flat_map_insert rowTiles board (Z.to_nat y) r (<[Z.to_nat x := c']> r) Hr)
    as Hrows.
  pose proof (flat_map_insert cellTiles r (Z.to_nat x) cell c' Hcell) as Hcells.
  change (flat_map rowTiles (<[Z.to_nat y := <[Z.to_nat x := c']> r]> board)
            ++ cellTiles cell ≡ₚ flat_map rowTiles board ++ cellTiles c').
  subst rowTiles. cbn beta in *.
  apply (Permutation_app_inv_r (flat_map cellTiles r)).
  rewrite <- !app_assoc.
  rewrite (Permutation_app_comm (cellTiles cell)), (Permutation_app_comm (cellTiles c')).
  rewrite !app_assoc, Hrows, <- !app_assoc, Hcells. done.
Qed.

(** The tiles the commit loop takes from the rack, in the order of the
    placements. *)
Lemma placeTiles_tiles rack pid turn pls : ∀ board board',
  placeTiles rack pid turn pls board = (board', None) →
  boardTiles board' ⊆+ omap (λ p, findTile rack (pl_tileId p)) pls ++ boardTiles board
  ∧ (NoDup (cellsOf pls) →
     Forall (λ p, tileAt board (pl_x p) (pl_y p) = None) pls →
     boardTiles board'
     ≡ₚ omap (λ p, findTile rack (pl_tileId p)) pls ++ boardTiles board).
Proof.
  induction pls as [|p pls IH]; intros board board' H; simpl in H.
  - injection H as <-. split; [done|]. done.
  - destruct (findTile rack (pl_tileId p)) as [tile|] eqn:Hf; [|done].
    destruct (cellAt board (pl_x p) (pl_y p)) as [cell|] eqn:Hc; [|done].
    cbn [omap list_omap]. rewrite Hf.
    destruct (IH _ _ H) as [Hsub Hperm].
    pose proof (boardTiles_setCell board (pl_x p) (pl_y p) cell
                  (placeOn cell tile pid turn) Hc) as Hset.
    cbn [placeOn c_tile tb_tile] in Hset.
    split.
    + assert (boardTiles (setCell board (pl_x p) (pl_y p) (placeOn cell tile pid turn))
              ⊆+ tile :: boardTiles board) as Hs.
      { rewrite (Permutation_cons_append (boardTiles board) tile), <- Hset.
        by apply submseteq_inserts_r. }
      etrans; [exact Hsub|].
      etrans; [apply submseteq_skips_l, Hs|].
      by rewrite <- Permutation_middle.
    + intros Hnd Hfree. cbn [cellsOf map] in Hnd.
      apply NoDup_cons in Hnd as [Hnotin Hnd].
      apply Forall_cons in Hfree as [Hp Hfree].
      rewrite Hperm.
      * unfold tileAt in Hp. rewrite Hc in Hp. rewrite Hp in Hset.
        rewrite app_nil_r in Hset. rewrite Hset. solve_Permutation.
      * done.
      * apply Forall_forall. intros q Hq. rewrite Forall_forall in Hfree.
        rewrite tileAt_setCell by (by rewrite Hc).
        rewrite decide_False; [by apply Hfree|].
        intros [Hx Hy]. apply Hnotin. unfold cellsOf.
        apply list_elem_of_fmap. exists q. split; [|done]. by rewrite Hx, Hy.
Qed.

(** The ids [checkTiles] has seen. *)
Lemma checkTiles_used (rackIds : gset string) pls : ∀ (u0 u : gset string),
  checkTiles rackIds u0 pls = inr u →
  ∀ i, i ∈ u ↔ i ∈ map pl_tileId pls ∨ i ∈ u0.
Proof.
  induction pls as [|p pls IH]; intros u0 u H i; simpl in H.
  - injection H as <-. split; [by right|]. intros [Hi|Hi]; [|done].
    by apply elem_of_nil in Hi.
  - destruct (negb _); [done|]. destruct (bool_decide _); [done|].
    rewrite (IH _ _ H i). cbn [map]. rewrite elem_of_cons, elem_of_union, elem_of_singleton.
    tauto.
Qed.

(** Distinct ids: a tile of the rack is found by its id. *)
Lemma findTile_unique rack t :
  NoDup (map t_id rack) → t ∈ rack → findTile rack (t_id t) = Some t.
Proof.
  intros Hnd Ht.
  destruct (findTile_is_Some rack (t_id t)) as [t' Hf].
  { apply list_elem_of_fmap. eauto. }
  rewrite Hf. f_equal. apply findTile_Some in Hf as [Ht' Hid].
  apply list_elem_of_lookup in Ht as [i Hi]. apply list_elem_of_lookup in Ht' as [j Hj].
  assert (i = j) as ->; [|congruence].
  eapply (NoDup_lookup (map t_id rack)); [done| |];
    change (map t_id) with (fmap (M := list) t_id); rewrite list_lookup_fmap.
  - by rewrite Hi.
  - rewrite Hj. simpl. by rewrite Hid.
Qed.

(** The tiles a play takes from the rack are the tiles of the rack whose
    ids it names. *)
Lemma placed_tiles rack pls :
  NoDup (map t_id rack) →
  NoDup (map pl_tileId pls) →
  Forall (λ p, pl_tileId p ∈ map t_id rack) pls →
  omap (λ p, findTile rack (pl_tileId p)) pls
  ≡ₚ filter (λ t, t_id t ∈ map pl_tileId pls) rack.
Proof.
  intros Hrack Hpls Hin.
  assert (map t_id (omap (λ p, findTile rack (pl_tileId p)) pls) = map pl_tileId pls)
    as Hids.
  { clear Hpls. induction pls as [|p pls IH]; [done|].
    apply Forall_cons in Hin as [Hp Hin]. cbn [omap list_omap map].
    destruct (findTile_is_Some rack _ Hp) as [t Ht]. rewrite Ht.
    apply findTile_Some in Ht as [_ Hid]. cbn [map]. rewrite Hid. f_equal. by apply IH. }
  apply NoDup_Permutation.
  - eapply (NoDup_fmap_1 t_id). change (fmap t_id) with (map t_id). by rewrite Hids.
  - apply NoDup_filter. by eapply (NoDup_fmap_1 t_id).
  - intros t. rewrite list_elem_of_omap, list_elem_of_filter. split.
    + intros (p & Hp & Hf). apply findTile_Some in Hf as [Ht Hid].
      split; [|done]. rewrite Hid. apply list_elem_of_fmap. eauto.
    + intros [Hid Ht]. apply list_elem_of_fmap in Hid as (p & Hid & Hp).
      exists p. split; [done|]. rewrite <- Hid. by apply findTile_unique.
Qed.

Lemma tilesOfRoom_applied room idx player player' g g' :
  r_players room !! idx = Some player →
  r_game room = Some g →
  tilesOfRoom (applied room idx player' g')
    ++ p_rack player ++ g_bag g ++ boardTiles (g_board g)
  ≡ₚ tilesOfRoom room
    ++ p_rack player' ++ g_bag g' ++ boardTiles (g_board g').
Proof.
  intros Hl Hg. unfold tilesOfRoom, applied.
  cbn [r_players r_game withGame withPlayers]. rewrite Hg.
  pose proof (flat_map_insert p_rack (r_players room) idx player player' Hl) as Hi.
  etrans; [|etrans;
    [apply (Permutation_app_tail
              (g_bag g' ++ boardTiles (g_board g') ++ g_bag g ++ boardTiles (g_board g))
              Hi)|]]; solve_Permutation.
Qed.

Section OneMove.

Variable isWordValid : string → bool.
Variables (tMove tTurn : Z) (rnd : nat → nat).

(** What an accepted move does to the tiles of the room. *)
Lemma playMove_conserves room pid action pls ids room' move ended idx player :
  playMove isWordValid tMove tTurn rnd room pid action pls ids
    = (room', inr (move, ended)) →
  list_find (λ p, p_id p = pid) (r_players room) = Some (idx, player) →
  NoDup (map t_id (p_rack player)) →
  tilesOfRoom room' ⊆+ tilesOfRoom room
  ∧ ((action = play → NoDup (cellsOf (default [] pls))) →
     tilesOfRoom room' ≡ₚ tilesOfRoom room).
Proof.
  intros H Hf Hnd.
  apply playMove_inr in H
    as (g & idx' & player0 & m & mid & Hg & Hf' & Ha & Happ & Hfin).
  rewrite Hf in Hf'. injection Hf' as <- <-.
  pose proof (finishMove_tiles tTurn m mid) as Htiles. rewrite Hfin in Htiles.
  cbn [fst] in Htiles. rewrite Htiles. clear Htiles Hfin.
  apply list_find_Some in Hf as (Hl & _ & _).
  assert (∀ player' g',
            mid = applied room idx player' g' →
            p_rack player' ++ g_bag g' ++ boardTiles (g_board g')
              ⊆+ p_rack player ++ g_bag g ++ boardTiles (g_board g) →
            tilesOfRoom mid ⊆+ tilesOfRoom room) as Hsub.
  { intros player' g' -> Hs.
    apply (submseteq_app_inv_r _ _ (p_rack player ++ g_bag g ++ boardTiles (g_board g))).
    rewrite (tilesOfRoom_applied room idx player player' g g' Hl Hg).
    by apply submseteq_skips_l. }
  assert (∀ player' g',
            mid = applied room idx player' g' →
            p_rack player' ++ g_bag g' ++ boardTiles (g_board g')
              ≡ₚ p_rack player ++ g_bag g ++ boardTiles (g_board g) →
            tilesOfRoom mid ≡ₚ tilesOfRoom room) as Hperm.
  { intros player' g' -> Hs.
    apply (Permutation_app_inv_r (p_rack player ++ g_bag g ++ boardTiles (g_board g))).
    rewrite (tilesOfRoom_applied room idx player player' g g' Hl Hg).
    by rewrite Hs. }
  inversion Happ; subst.
  - assert (tilesOfRoom
              (applied room idx (incrPasses player)
                 (logMove g (g_board g) (g_bag g) (g_consecutivePasses g + 1)
                    (buildMoveSummary tMove pass (g_activePlayerId g) [] 0 g [])))
            ≡ₚ tilesOfRoom room) as Hp by (eapply Hperm; done).
    split; [by rewrite Hp|done].
  - assert (tilesOfRoom
              (applied room idx
                 (incrPasses (withRack player
                    (filter (λ t, t_id t ∉ default [] ids) (p_rack player) ++ drawn)))
                 (logMove g (g_board g) bag' (g_consecutivePasses g + 1)
                    (buildMoveSummary tMove exchange (g_activePlayerId g) [] 0 g [])))
            ≡ₚ tilesOfRoom room) as Hp.
    { eapply Hperm; [done|].
      cbn [p_rack incrPasses withStats withRack g_bag g_board logMove].
      match goal with Hx : drawTiles _ _ = _ |- _ =>
        apply drawTiles_spec in Hx as [Hx _]; rename Hx into Hd end.
      rewrite (shuffle_Permutation rnd) in Hd.
      rewrite <- (filter_app_complement (λ t, t_id t ∈ default [] ids) (p_rack player)) at 2.
      rewrite <- !app_assoc, (app_assoc drawn), Hd. solve_Permutation. }
    split; [by rewrite Hp|done].
  - match goal with Hx : validatePlay _ _ _ _ = inr _ |- _ =>
      apply validatePlay_inr in Hx as (info & _ & Hc & Ht & _) end.
    match goal with Hx : drawTiles _ _ = _ |- _ =>
      apply drawTiles_spec in Hx as [Hx _]; rename Hx into Hd end.
    assert (check3 (p_rack player) (default [] pls)) as [Hids Hndp].
    { apply checkTiles_check3. eauto. }
    pose proof (checkTiles_used _ _ _ _ Ht) as Hused.
    assert (filter (λ t, t_id t ∉ pp_used plan) (p_rack player)
            = filter (λ t, ¬ t_id t ∈ map pl_tileId (default [] pls)) (p_rack player))
      as Hkept.
    { apply list_filter_iff. intros t. rewrite Hused.
      split; [intros Hn Hi; apply Hn; by left|].
      intros Hn [Hi|Hi]; [done|]. by apply not_elem_of_empty in Hi. }
    pose proof (placed_tiles (p_rack player) (default [] pls) Hnd Hndp Hids) as Hplaced.
    match goal with Hx : placeTiles _ _ _ _ _ = _ |- _ =>
      apply placeTiles_tiles in Hx as [Hbsub Hbperm] end.
    pose proof (filter_app_complement (λ t, t_id t ∈ map pl_tileId (default [] pls))
                  (p_rack player)) as Hsplit.
    split.
    + eapply Hsub; [done|].
      cbn [p_rack afterPlay g_bag g_board logMove]. rewrite Hkept.
      rewrite <- Hsplit at 2. rewrite <- Hd, <- Hplaced.
      etrans; [apply submseteq_skips_l, submseteq_skips_l, Hbsub|].
      apply Permutation_submseteq. solve_Permutation.
    + intros Hcells. eapply Hperm; [done|].
      cbn [p_rack afterPlay g_bag g_board logMove]. rewrite Hkept.
      rewrite <- Hsplit at 2. rewrite <- Hd, <- Hplaced.
      rewrite Hbperm; [solve_Permutation|by apply Hcells|].
      apply checkCells_None in Hc. eapply Forall_impl; [exact Hc|].
      intros p [_ Hfree]. unfold targetsEmptyCell, hasTile in Hfree.
      by destruct (tileAt (g_board g) (pl_x p) (pl_y p)).
Qed.

End OneMove.

End Conservation.

(** ** The tiles of a game *)

Section TileAccounts.

Import Js Spec Progress.

(** An accepted move neither loses nor makes up a tile when the ids of
    the mover's rack are distinct and a play names no cell twice; a play
    that names a cell twice can only lose tiles. *)
Theorem accepted_move_conserves_the_tiles
    isWordValid tMove tTurn rnd room pid action pls ids room' move ended idx player :
  playMove isWordValid tMove tTurn rnd room pid action pls ids
    = (room', inr (move, ended)) →
  list_find (λ p, p_id p = pid) (r_players room) = Some (idx, player) →
  NoDup (map t_id (p_rack player)) →
  tilesOfRoom room' ⊆+ tilesOfRoom room
  ∧ ((action = play → NoDup (cellsOf (default [] pls))) →
     tilesOfRoom room' ≡ₚ tilesOfRoom room).
Proof. apply playMove_conserves. Qed.

Lemma submseteq_NoDup_ids (l k : list Tile) :
  l ⊆+ k → NoDup (map t_id k) → NoDup (map t_id l).
Proof.
  intros Hs Hnd. apply (fmap_submseteq t_id) in Hs.
  apply submseteq_Permutation in Hs as [r Hr].
  change (map t_id) with (fmap (M := list) t_id) in *.
  rewrite Hr in Hnd. by apply NoDup_app in Hnd as [? _].
Qed.

Lemma rack_submseteq room idx player :
  r_players room !! idx = Some player → p_rack player ⊆+ tilesOfRoom room.
Proof.
  intros Hl. unfold tilesOfRoom. apply submseteq_inserts_r.
  rewrite (delete_Permutation _ _ _ Hl). cbn [flat_map].
  by apply submseteq_inserts_r.
Qed.

Section OneMove.

Variable isWordValid : string → bool.
Variables (tMove tTurn : Z) (rnd : nat → nat).

(** The tiles of an orderly game after a submission. *)
Lemma playMove_account seats room pid action pls ids (full : list Tile) :
  orderly seats room →
  NoDup (map t_id full) →
  tilesOfRoom room ⊆+ full →
  let room' := fst (playMove isWordValid tMove tTurn rnd room pid action pls ids) in
  tilesOfRoom room' ⊆+ full
  ∧ ((action = play → NoDup (cellsOf (default [] pls))) →
     tilesOfRoom room ≡ₚ full → tilesOfRoom room' ≡ₚ full).
Proof.
  intros Hord Hnd Hsub room'. subst room'.
  destruct (playMove _ _ _ _ _ _ _ _ _) as [room' [e|[move ended]]] eqn:H; simpl.
  { by rewrite (playMove_refused _ _ _ _ _ _ _ _ _ _ _ _ Hord H). }
  pose proof H as H'.
  apply playMove_inr in H' as (g & idx & player & _ & _ & _ & Hf & _).
  pose proof Hf as Hl. apply list_find_Some in Hl as (Hl & _).
  destruct (playMove_conserves isWordValid tMove tTurn rnd room pid action pls ids
              room' move ended idx player H Hf) as [Hs Hp].
  { eapply submseteq_NoDup_ids; [|exact Hnd].
    etrans; [by eapply rack_submseteq|done]. }
  split; [by etrans|]. intros Hcells Hfull. by rewrite Hp.
Qed.

End OneMove.

(** From the start of a game on, the tiles on the racks, in the bag and
    on the board are tiles of the full set, each at most once (the ids
    that [tileId] hands out being distinct); they are the whole set as
    long as no play names a cell twice. *)
Theorem no_tile_is_made_up_or_lost isWordValid lang ids rnd now lobby room reqs :
  startNewGame lang ids rnd now lobby = (room, inr ()) →
  NoDup (map t_id (fullBag lang ids)) →
  let room' := fst (runMoves isWordValid room reqs) in
  tilesOfRoom room' ⊆+ fullBag lang ids
  ∧ (Forall (λ rq, mr_action rq = play
                   → NoDup (cellsOf (default [] (mr_placements rq)))) reqs →
     tilesOfRoom room' ≡ₚ fullBag lang ids).
Proof.
  intros H Hnd room'.
  pose proof (startNewGame_tiles lang ids rnd now lobby room H) as Htiles.
  apply startNewGame_orderly in H as (Hord & g & Hg & _).
  set (seats := map p_id (r_players lobby)) in *.
  split.
  - assert (orderly seats room' ∧ tilesOfRoom room' ⊆+ fullBag lang ids) as [_ ?];
      [|done].
    apply (runMoves_invariant
             (λ r, orderly seats r ∧ tilesOfRoom r ⊆+ fullBag lang ids)
             (λ _, True) isWordValid); [|apply Forall_True|].
    + intros r rq _ [Hord' Hsub]. split.
      * destruct Hord' as (Hs & g1 & Hg1 & Hrest).
        eapply playMove_orderly; [|done]. split; [done|]. eauto.
      * by eapply playMove_account.
    + split; [done|]. by rewrite Htiles.
  - intros Hcells.
    assert (orderly seats room' ∧ tilesOfRoom room' ≡ₚ fullBag lang ids) as [_ ?];
      [|done].
    apply (runMoves_invariant
             (λ r, orderly seats r ∧ tilesOfRoom r ≡ₚ fullBag lang ids)
             (λ rq, mr_action rq = play
                    → NoDup (cellsOf (default [] (mr_placements rq))))
             isWordValid); [|done|done].
    intros r rq Hq [Hord' Hperm]. split.
    + destruct Hord' as (Hs & g1 & Hg1 & Hrest).
      eapply playMove_orderly; [|done]. split; [done|]. eauto.
    + eapply playMove_account; [done|done| |done|done]. by rewrite Hperm.
Qed.

End TileAccounts.

(** ** The size of the racks *)

Section RackFacts.

Import Js Spec Progress.

(** The tiles a play leaves on the rack. *)
Lemma kept_length rack pls (used : gset string) :
  NoDup (map t_id rack) →
  checkTiles (rackIdSet rack) ∅ pls = inr used →
  (length (filter (λ t, t_id t ∉ used) rack) + length pls = length rack)%nat.
Proof.
  intros Hnd Ht.
  assert (check3 rack pls) as [Hids Hndp] by (apply checkTiles_check3; eauto).
  pose proof (checkTiles_used _ _ _ _ Ht) as Hused.
  rewrite (list_filter_iff _ (λ t, ¬ t_id t ∈ map pl_tileId pls)).
  2:{ intros t. rewrite Hused. split; [intros Hn Hi; apply Hn; by left|].
      intros Hn [Hi|Hi]; [done|]. by apply not_elem_of_empty in Hi. }
  pose proof (filter_app_complement (λ t, t_id t ∈ map pl_tileId pls) rack) as Hsplit.
  apply Permutation_length in Hsplit. rewrite length_app in Hsplit.
  pose proof (placed_tiles rack pls Hnd Hndp Hids) as Hplaced.
  apply Permutation_length in Hplaced.
  assert (length (omap (λ p, findTile rack (pl_tileId p)) pls) = length pls) as Hlen.
  { clear -Hids. induction pls as [|p pls IH]; [done|].
    apply Forall_cons in Hids as [Hp Hids]. cbn [omap list_omap].
    destruct (findTile_is_Some rack _ Hp) as [t ->]. cbn [length]. f_equal. by apply IH. }
  lia.
Qed.

Section OneMove.

Variable isWordValid : string → bool.
Variables (tMove tTurn : Z) (rnd : nat → nat).

(** Racks of at most seven tiles, full while the bag holds a tile: kept by
    every submission whose exchange, if it is one, names no id twice. *)
Lemma playMove_racks seats room pid action pls ids (full : list Tile) g :
  orderly seats room →
  NoDup (map t_id full) →
  tilesOfRoom room ⊆+ full →
  NoDup (default [] ids) →
  r_game room = Some g →
  Forall (λ p, (length (p_rack p) ≤ 7)%nat
               ∧ (g_bag g ≠ [] → length (p_rack p) = 7%nat)) (r_players room) →
  ∃ g', r_game (fst (playMove isWordValid tMove tTurn rnd room pid action pls ids))
        = Some g'
        ∧ Forall (λ p, (length (p_rack p) ≤ 7)%nat
                       ∧ (g_bag g' ≠ [] → length (p_rack p) = 7%nat))
            (r_players (fst (playMove isWordValid tMove tTurn rnd room pid action pls ids))).
Proof.
  intros Hord Hnd Hsub Hndi Hg Hinv.
  destruct (playMove _ _ _ _ _ _ _ _ _) as [room' [e|[move ended]]] eqn:H; simpl.
  { rewrite (playMove_refused _ _ _ _ _ _ _ _ _ _ _ _ Hord H). eauto. }
  apply playMove_inr in H as (g0 & idx & player & m & mid & Hg0 & Hf & _ & Happ & Hfin).
  assert (g0 = g) as -> by congruence. clear Hg0.
  apply list_find_Some in Hf as (Hl & _).
  assert (NoDup (map t_id (p_rack player))) as Hrack.
  { eapply submseteq_NoDup_ids; [|exact Hnd]. etrans; [by eapply rack_submseteq|done]. }
  rewrite Forall_forall in Hinv.
  pose proof (Hinv player ltac:(by eapply list_elem_of_lookup_2)) as [Hle Hfull].
  (* the room handed to [finishMove] *)
  assert (∃ gm, r_game mid = Some gm
                ∧ Forall (λ p, (length (p_rack p) ≤ 7)%nat
                               ∧ (g_bag gm ≠ [] → length (p_rack p) = 7%nat))
                    (r_players mid)) as (gm & Hgm & Hmid).
  { assert (∀ (player' : Player) g',
              (g_bag g' ≠ [] → g_bag g ≠ []) →
              (length (p_rack player') ≤ 7)%nat →
              (g_bag g' ≠ [] → length (p_rack player') = 7%nat) →
              Forall (λ p, (length (p_rack p) ≤ 7)%nat
                           ∧ (g_bag g' ≠ [] → length (p_rack p) = 7%nat))
                (<[idx := player']> (r_players room))) as Hput.
    { intros player' g' Hbag Hle' Hfull'. apply Forall_forall. intros q Hq.
      apply elem_of_insert_player in Hq as [->|Hq]; [done|].
      destruct (Hinv q Hq) as [? ?]. split; [done|]. auto. }
    inversion Happ; subst; unfold applied; cbn [r_game r_players withGame withPlayers];
      eexists; (split; [reflexivity|]); apply Hput;
      cbn [g_bag logMove p_rack incrPasses withStats withRack afterPlay]; try done.
    - (* exchange: the bag keeps its size *)
      match goal with Hx : drawTiles _ _ = _ |- _ =>
        apply drawTiles_spec in Hx as [Hp Hd] end.
      apply Permutation_length in Hp.
      rewrite (Permutation_length (shuffle_Permutation rnd _)) in Hp, Hd.
      rewrite !length_app in Hp. rewrite length_app in Hd.
      intros Hne Hnil. apply (f_equal length) in Hnil. cbn [length] in Hnil. lia.
    - match goal with Hx : drawTiles _ _ = _ |- _ =>
        apply drawTiles_spec in Hx as [Hp Hd] end.
      apply Permutation_length in Hp.
      rewrite (Permutation_length (shuffle_Permutation rnd _)) in Hp, Hd.
      rewrite !length_app in Hp. rewrite length_app in Hd.
      pose proof (exchanged_count (p_rack player) (default [] ids) Hndi Hrack
                    ltac:(done)) as Hret.
      pose proof (filter_app_complement (λ t, t_id t ∈ default [] ids) (p_rack player))
        as Hsplit.
      apply Permutation_length in Hsplit. rewrite length_app in Hsplit.
      rewrite length_app. lia.
    - match goal with Hx : drawTiles _ _ = _ |- _ =>
        apply drawTiles_spec in Hx as [Hp Hd] end.
      apply Permutation_length in Hp.
      rewrite (Permutation_length (shuffle_Permutation rnd _)) in Hp, Hd.
      rewrite !length_app in Hp. rewrite length_app in Hd.
      pose proof (exchanged_count (p_rack player) (default [] ids) Hndi Hrack
                    ltac:(done)) as Hret.
      pose proof (filter_app_complement (λ t, t_id t ∈ default [] ids) (p_rack player))
        as Hsplit.
      apply Permutation_length in Hsplit. rewrite length_app in Hsplit.
      rewrite length_app. intros Hne.
      assert (g_bag g ≠ []) as Hb.
      { intros Hnil. apply (f_equal length) in Hnil. cbn [length] in Hnil. lia. }
      specialize (Hfull Hb). lia.
    - (* play: the bag only shrinks *)
      match goal with Hx : drawTiles _ _ = _ |- _ =>
        apply drawTiles_spec in Hx as [Hp Hd] end.
      intros Hne Hnil. rewrite Hnil in Hp.
      apply Permutation_nil_r in Hp. by destruct drawn.
    - match goal with Hx : validatePlay _ _ _ _ = inr _ |- _ =>
        apply validatePlay_inr in Hx as (info & _ & _ & Ht & _) end.
      pose proof (kept_length _ _ _ Hrack Ht) as Hk.
      match goal with Hx : drawTiles _ _ = _ |- _ =>
        apply drawTiles_spec in Hx as [Hp Hd] end.
      rewrite length_app. lia.
    - match goal with Hx : validatePlay _ _ _ _ = inr _ |- _ =>
        apply validatePlay_inr in Hx as (info & _ & _ & Ht & _) end.
      pose proof (kept_length _ _ _ Hrack Ht) as Hk.
      match goal with Hx : drawTiles _ _ = _ |- _ =>
        apply drawTiles_spec in Hx as [Hp Hd] end.
      apply Permutation_length in Hp. rewrite length_app in Hp.
      rewrite length_app. intros Hne.
      assert (length bag' ≠ 0)%nat by (by destruct bag'). lia. }
  destruct (finishMove_keeps tTurn m mid room' move ended gm Hfin Hgm)
    as (_ & (g' & Hg' & Hbag & _) & Hplayers).
  exists g'. split; [done|]. rewrite Hbag.
  apply Forall_forall. intros q Hq. apply list_elem_of_lookup in Hq as [i Hi].
  assert (∃ q0, r_players mid !! i = Some q0 ∧ p_rack q = p_rack q0) as (q0 & Hq0 & ->).
  { destruct (r_players mid !! i) as [q0|] eqn:Hq0.
    - destruct (Hplayers i q0 Hq0) as (q' & Hq' & Hr & _).
      exists q0. split; [done|]. congruence.
    - assert (length (r_players room') = length (r_players mid)) as Hlen.
      { apply finishMove_inr in Hfin as (? & ? & ? & _ & _ & _ & -> & Hc).
        apply checkAndFinalizeIfEnded_inr in Hc as (? & _ & _ & ->).
        destruct ended; simpl; [apply finalScores_length|done]. }
      apply lookup_lt_Some in Hi. apply lookup_ge_None in Hq0. lia. }
  rewrite Forall_forall in Hmid. apply Hmid. by eapply list_elem_of_lookup_2.
Qed.

End OneMove.

(** From the start of a game of at most 14 players on, every rack holds
    at most seven tiles, and exactly seven as long as the bag is not
    empty, provided the ids handed out by [tileId] are distinct and no
    exchange names an id twice. *)
Theorem racks_are_full_while_the_bag_lasts isWordValid lang ids rnd now lobby room reqs :
  startNewGame lang ids rnd now lobby = (room, inr ()) →
  (length (r_players lobby) ≤ 14)%nat →
  NoDup (map t_id (fullBag lang ids)) →
  Forall (λ rq, NoDup (default [] (mr_tileIdsToExchange rq))) reqs →
  let room' := fst (runMoves isWordValid room reqs) in
  ∃ g', r_game room' = Some g'
        ∧ Forall (λ p, (length (p_rack p) ≤ 7)%nat
                       ∧ (g_bag g' ≠ [] → length (p_rack p) = 7%nat))
            (r_players room').
Proof.
  intros H Hn Hnd Hreqs room'.
  pose proof (startNewGame_tiles lang ids rnd now lobby room H) as Htiles.
  assert (∃ g, r_game room = Some g
               ∧ Forall (λ p, length (p_rack p) = 7%nat) (r_players room))
    as (g & Hg & Hseven).
  { unfold startNewGame in H.
    destruct (r_players lobby) as [|p0 ps] eqn:Hps; [discriminate|].
    destruct (dealRacks _ _) as [players bag'] eqn:Hd. injection H as <-.
    apply dealRacks_spec in Hd as (_ & _ & Hf).
    2:{ rewrite length_map, (Permutation_length (shuffle_Permutation rnd _)).
        fold (fullBag lang ids). rewrite fullBag_length. cbn [length] in *.
        destruct lang; lia. }
    eexists. split; [reflexivity|]. cbn [r_players withGame withPlayers].
    clear -Hf. induction Hf as [|p p' l l' [_ Hp] _ IH]; constructor; done. }
  apply startNewGame_orderly in H as (Hord & _).
  set (seats := map p_id (r_players lobby)) in *.
  set (I := λ r : Room,
         orderly seats r ∧ tilesOfRoom r ⊆+ fullBag lang ids
         ∧ ∃ g', r_game r = Some g'
                 ∧ Forall (λ p, (length (p_rack p) ≤ 7)%nat
                                ∧ (g_bag g' ≠ [] → length (p_rack p) = 7%nat))
                     (r_players r)).
  assert (I room') as (_ & _ & Hres); [|done].
  apply (runMoves_invariant I
           (λ rq, NoDup (default [] (mr_tileIdsToExchange rq))) isWordValid);
    [|done|].
  - intros r rq Hq (Hord' & Hsub & g1 & Hg1 & Hr). split; [|split].
    + eapply playMove_orderly; [done|exact Hg1].
    + by eapply playMove_account.
    + by eapply playMove_racks.
  - split; [done|]. split; [by rewrite Htiles|]. exists g. split; [done|].
    eapply Forall_impl; [exact Hseven|]. intros p ->. split; [lia|done].
Qed.

End RackFacts.

(** ** The sum of the scores at the end of the game *)

Section ZeroSum.

Import Js Spec Progress.

Lemma sumZ_Permutation (l1 l2 : list Z) : l1 ≡ₚ l2 → sumZ l1 = sumZ l2.
Proof. intros Hp. induction Hp; cbn [sumZ foldr] in *; unfold sumZ in *; lia. Qed.

Lemma sumScores_alter (f : Player → Player) players i q :
  players !! i = Some q →
  sumScores (alter f i players) = sumScores players + (p_score (f q) - p_score q).
Proof.
  revert i. induction players as [|p players IH]; intros [|i] Hq; try done.
  - injection Hq as ->. unfold sumScores. cbn [alter list_alter map sumZ foldr]. lia.
  - unfold sumScores in *. cbn [alter list_alter map sumZ foldr].
    change (foldr Z.add 0) with sumZ. change (list_alter f i players) with (alter f i players).
    rewrite (IH i Hq). unfold sumZ. lia.
Qed.

Lemma sumScores_penalised players :
  sumScores (map (λ p, withScore p (p_score p - rackValue p)) players)
  = sumScores players - sumZ (map (λ p, faceValue (p_rack p)) players).
Proof.
  unfold sumScores. induction players as [|p players IH]; [done|].
  cbn [map sumZ foldr p_score withScore]. unfold sumZ in *.
  rewrite IH, rackValue_faceValue. lia.
Qed.

(** The final scoring takes from every player the value of the rack and
    gives what it took to the finisher, the first player with an empty
    rack, if there is one: with a finisher the sum of the scores is what
    it was, without one it drops by the value of all racks. *)
Theorem final_scoring_is_zero_sum_with_a_finisher players :
  sumScores (finalScores players)
  = if decide (Exists (λ p, p_rack p = []) players)
    then sumScores players
    else sumScores players - sumZ (map (λ p, faceValue (p_rack p)) players).
Proof.
  unfold finalScores.
  destruct (finisherIndex players) as [i|] eqn:Hfin.
  - pose proof (sumOthers_spec players i Hfin) as Hso.
    unfold finisherIndex in Hfin.
    destruct (list_find hasEmptyRack players) as [[i' q]|] eqn:Hf; [|done].
    injection Hfin as ->. apply list_find_Some in Hf as (Hq & Hempty & _).
    apply empty_rack in Hempty.
    rewrite decide_True.
    2:{ apply Exists_exists. exists q. split; [by eapply list_elem_of_lookup_2|done]. }
    rewrite (sumScores_alter _ _ i (withScore q (p_score q - rackValue q))).
    2:{ change (map ?f) with (fmap (M := list) f). by rewrite list_lookup_fmap, Hq. }
    rewrite sumScores_penalised. cbn [p_score withScore]. rewrite Hso.
    assert (sumZ (map (λ p, faceValue (p_rack p)) players) = othersFaceValue players i)
      as ->; [|lia].
    unfold othersFaceValue.
    rewrite (sumZ_Permutation _ (map (λ p, faceValue (p_rack p)) (q :: delete i players))).
    + cbn [map sumZ foldr]. by rewrite Hempty.
    + apply Permutation_map. by apply delete_Permutation.
  - rewrite decide_False.
    2:{ intros Hex. apply Exists_exists in Hex as (q & Hq & Hnil).
        unfold finisherIndex in Hfin.
        destruct (list_find hasEmptyRack players) as [[j r]|] eqn:Hf; [done|].
        apply list_find_None in Hf. rewrite Forall_forall in Hf.
        apply (Hf q Hq). by apply empty_rack. }
    apply sumScores_penalised.
Qed.

End ZeroSum.

(** ** The statistics of the players and the entries of the log *)

Section StatFacts.

Import Js Spec Progress.

(** The words of a plan have passed the validator. *)
Lemma validatePlay_words isWordValid g player pls plan :
  validatePlay isWordValid g player pls = inr plan →
  pls ≠ [] ∧ pp_allWords plan ≠ []
  ∧ Forall (λ w, (2 ≤ String.length w)%nat ∧ isWordValid (normalizeWord w) = true)
      (pp_allWords plan).
Proof.
  unfold validatePlay. intros H.
  destruct (decide _) as [|Hn]; [discriminate|].
  destruct (checkCells _ _) as [e|] eqn:Hc; [discriminate|].
  destruct (checkTiles _ _ _) as [e|used] eqn:Ht; [discriminate|].
  destruct (_ && _); [discriminate|].
  destruct (_ && _); [discriminate|].
  destruct (buildPlacementInfo _ _ _) as [info|]; [|discriminate].
  destruct (negb _); [discriminate|].
  destruct (_ && _); [discriminate|].
  set (aw := List.filter _ _) in *.
  assert (∀ w, w ∈ aw → (2 ≤ String.length w)%nat) as Hlen.
  { intros w Hw'. apply list_elem_of_In, filter_In in Hw' as [_ Hlen].
    apply Nat.ltb_lt in Hlen. lia. }
  clearbody aw.
  destruct (decide _) as [|Hw]; [discriminate|].
  destruct (list_find _ _) as [[j w']|] eqn:Hf; [discriminate|].
  injection H as <-. cbn [pp_allWords].
  split; [by destruct pls|]. split; [intros Hnil; apply Hw; apply (f_equal length) in Hnil; exact Hnil|].
  apply list_find_None in Hf. rewrite Forall_forall in Hf |- *.
  intros w Hw'. split.
  - by apply Hlen.
  - specialize (Hf w Hw'). by destruct (isWordValid (normalizeWord w)).
Qed.

Lemma movesOf_snoc log m pid :
  movesOf (log ++ [m]) pid
  = movesOf log pid ++ (if decide (ms_playerId m = pid) then [m] else []).
Proof.
  unfold movesOf. rewrite filter_app. by f_equal.
Qed.

Lemma playsOf_snoc log m pid :
  playsOf (log ++ [m]) pid
  = playsOf log pid
    ++ (if decide (ms_playerId m = pid ∧ ms_action m = play) then [m] else []).
Proof.
  unfold playsOf. rewrite movesOf_snoc, filter_app. f_equal.
  destruct (decide (ms_playerId m = pid)) as [Hp|Hp].
  - destruct (decide (ms_action m = play)) as [Ha|Ha].
    + rewrite filter_cons_True by done. by rewrite decide_True.
    + rewrite filter_cons_False by done. rewrite decide_False; [done|]. tauto.
  - rewrite decide_False; [done|]. tauto.
Qed.

Lemma foldr_max_snoc (l : list Z) (a : Z) :
  foldr Z.max 0 (l ++ [a]) = Z.max (foldr Z.max 0 l) (Z.max a 0).
Proof. induction l as [|b l IH]; simpl; [lia|]. rewrite IH. lia. Qed.

Lemma foldr_max_nonneg (l : list Z) : 0 ≤ foldr Z.max 0 l.
Proof. induction l as [|b l IH]; simpl; lia. Qed.

(** The players of a new game have fresh statistics. *)
Lemma startNewGame_fresh_stats lang ids rnd now room room' :
  startNewGame lang ids rnd now room = (room', inr ()) →
  Forall (λ p, p_stats p = initialStats) (r_players room').
Proof.
  unfold startNewGame. intros H.
  destruct (r_players room) as [|p0 ps]; [discriminate|].
  destruct (dealRacks _ _) as [players bag'] eqn:Hd. injection H as <-.
  cbn [r_players withGame withPlayers].
  revert Hd. generalize (shuffle rnd (buildBag ids 0 (getLetterDistribution lang))).
  generalize (p0 :: ps). intros l. revert players bag'.
  induction l as [|p l IH]; intros players bag' bag H; cbn [dealRacks map] in H.
  - injection H as <- <-. constructor.
  - destruct (drawTiles bag 7) as [rack bag1].
    destruct (dealRacks (map resetPlayer l) bag1) as [rest bag2] eqn:Hr.
    injection H as <- <-. constructor; [done|]. by eapply IH.
Qed.

Section OneMove.

Variable isWordValid : string → bool.
Variables (tMove tTurn : Z) (rnd : nat → nat).

(** The mover after a move that went through, and the entry logged. *)
Lemma playMove_mover room pid action pls ids room' move ended :
  playMove isWordValid tMove tTurn rnd room pid action pls ids
    = (room', inr (move, ended)) →
  ∃ g idx player player' g',
    r_game room = Some g
    ∧ list_find (λ q, p_id q = pid) (r_players room) = Some (idx, player)
    ∧ ms_playerId move = pid ∧ ms_action move = action
    ∧ entryOk isWordValid move
    ∧ p_id player' = pid
    ∧ (action ≠ play →
         p_stats player' = withPasses (p_stats player) (passes (p_stats player) + 1))
    ∧ (action = play →
         wordsPlayed (p_stats player') = wordsPlayed (p_stats player) + 1
         ∧ totalTurns (p_stats player') = totalTurns (p_stats player) + 1
         ∧ passes (p_stats player') = passes (p_stats player)
         ∧ bestWordScore (p_stats player')
           = Z.max (bestWordScore (p_stats player)) (ms_score move)
         ∧ (if decide (bestWordScore (p_stats player) < ms_score move)
            then is_Some (bestWord (p_stats player'))
            else bestWord (p_stats player') = bestWord (p_stats player)))
    ∧ r_players room'
      = (if ended then finalScores (<[idx := player']> (r_players room))
         else <[idx := player']> (r_players room))
    ∧ r_game room' = Some g'
    ∧ g_log g' = g_log g ++ [move].
Proof.
  intros H.
  apply playMove_inr in H as (g & idx & player & m & mid & Hg & Hf & Ha & Happ & Hfin).
  apply finishMove_inr in Hfin as (gm & p & mid' & -> & Hgm & Hp & -> & Hc).
  apply checkAndFinalizeIfEnded_inr in Hc as (g' & Hg' & Hend & ->).
  simpl in Hg'. inversion Hg'; subst g'. clear Hg'.
  inversion Happ; subst; unfold applied in *;
    cbn [r_game r_players withGame withPlayers] in *;
    injection Hgm as <-.
  - exists g, idx, player, (incrPasses player).
    eexists. split; [done|]. split; [done|]. split; [done|]. split; [done|].
    split; [done|]. split; [by apply list_find_Some in Hf as (_ & ? & _)|].
    split; [done|]. split; [done|].
    destruct (gameHasEnded _ _); (split; [done|]); (split; [reflexivity|]); done.
  - exists g, idx, player,
      (incrPasses (withRack player
         (filter (λ t, t_id t ∉ default [] ids) (p_rack player) ++ drawn))).
    eexists. split; [done|]. split; [done|]. split; [done|]. split; [done|].
    split; [done|]. split; [by apply list_find_Some in Hf as (_ & ? & _)|].
    split; [done|]. split; [done|].
    destruct (gameHasEnded _ _); (split; [done|]); (split; [reflexivity|]); done.
  - exists g, idx, player,
      (afterPlay player (filter (λ t, t_id t ∉ pp_used plan) (p_rack player) ++ drawn)
         (pp_total plan) (mw_word (pp_main plan))).
    eexists. split; [done|]. split; [done|]. split; [done|]. split; [done|].
    split.
    { match goal with Hv : validatePlay _ _ _ _ = inr _ |- _ =>
        apply validatePlay_words in Hv as (Hpl & Hw & Hall) end.
      unfold entryOk. cbn [ms_action ms_placements ms_words buildMoveSummary]. done. }
    split; [by apply list_find_Some in Hf as (_ & ? & _)|].
    split; [done|].
    split.
    { intros _. cbn [p_stats afterPlay wordsPlayed totalTurns passes bestWordScore
                     bestWord ms_score buildMoveSummary].
      split; [done|]. split; [done|]. split; [done|].
      destruct (decide (bestWordScore (p_stats player) < pp_total plan)) as [Hlt|Hge].
      - rewrite bool_decide_eq_true_2 by done. split; [lia|done].
      - rewrite bool_decide_eq_false_2 by done. split; [lia|done]. }
    destruct (gameHasEnded _ _); (split; [done|]); (split; [reflexivity|]); done.
Qed.

(** The statistics after one submission. *)
Lemma playMove_stats seats room pid action pls ids g :
  orderly seats room → NoDup seats →
  r_game room = Some g →
  Forall (statsMatchLog (g_log g)) (r_players room) →
  Forall (entryOk isWordValid) (g_log g) →
  let room' := fst (playMove isWordValid tMove tTurn rnd room pid action pls ids) in
  ∃ g', r_game room' = Some g'
        ∧ Forall (statsMatchLog (g_log g')) (r_players room')
        ∧ Forall (entryOk isWordValid) (g_log g').
Proof.
  intros Hord Hnd Hg Hst Hlog room'. subst room'.
  destruct (playMove _ _ _ _ _ _ _ _ _) as [room' [e|[move ended]]] eqn:H; simpl.
  { rewrite (playMove_refused _ _ _ _ _ _ _ _ _ _ _ _ Hord H). eauto. }
  destruct Hord as (Hseats & _).
  apply playMove_mover in H
    as (g0 & idx & player & player' & g' & Hg0 & Hf & Hpid & Hact & Hok & Hid'
        & Hpass & Hplay & Hplayers & Hg' & Hlog').
  assert (g0 = g) as -> by congruence.
  exists g'. split; [done|]. rewrite Hlog'.
  split; [|apply Forall_app; split; [done|by constructor]].
  apply list_find_Some in Hf as (Hl & Hidp & _).
  assert (Forall (statsMatchLog (g_log g ++ [move]))
            (<[idx := player']> (r_players room))) as Hmid.
  { apply Forall_forall. intros q Hq.
    apply list_elem_of_lookup in Hq as [j Hj].
    rewrite Forall_forall in Hst.
    destruct (decide (j = idx)) as [->|Hne].
    - rewrite list_lookup_insert_eq in Hj by (by eapply lookup_lt_Some).
      injection Hj as <-.
      destruct (Hst player ltac:(by eapply list_elem_of_lookup_2))
        as (Hw & Ht & Hp & Hb & Hbw).
      unfold statsMatchLog. cbn zeta.
      rewrite Hid', movesOf_snoc, playsOf_snoc, Hpid, Hact, Hidp in *.
      rewrite (decide_True (P := pid = pid)) by done.
      destruct (decide (action = play)) as [->|Hnp].
      + destruct (Hplay eq_refl) as (Hw' & Ht' & Hp' & Hb' & Hbw').
        rewrite decide_True by done.
        rewrite !length_app, map_app. cbn [length map]. rewrite foldr_max_snoc.
        rewrite Hw', Ht', Hp', Hb', Hw, Ht, Hp, Hb.
        pose proof (foldr_max_nonneg (map ms_score (playsOf (g_log g) pid))) as Hnn.
        split; [lia|]. split; [lia|]. split; [lia|]. split; [lia|].
        rewrite Hb in Hbw'.
        destruct (decide (foldr Z.max 0 (map ms_score (playsOf (g_log g) pid))
                          < ms_score move)) as [Hlt|Hge].
        * destruct Hbw' as [w Hw'']. rewrite Hw''. split; [done|lia].
        * rewrite Hbw', Hbw, Hb. lia.
      + rewrite (Hpass Hnp). cbn [wordsPlayed totalTurns passes bestWordScore bestWord
                                  withPasses].
        rewrite decide_False by tauto. rewrite app_nil_r, length_app. cbn [length].
        split; [done|]. split; [done|]. split; [lia|]. done.
    - rewrite list_lookup_insert_ne in Hj by done.
      destruct (Hst q ltac:(by eapply list_elem_of_lookup_2))
        as (Hw & Ht & Hp & Hb & Hbw).
      assert (ms_playerId move ≠ p_id q) as Hother.
      { rewrite Hpid. intros Heq. apply Hne.
        rewrite <- Hseats in Hnd.
        eapply (NoDup_lookup (map p_id (r_players room))); [done| |].
        + change (map p_id) with (fmap (M := list) p_id). by rewrite list_lookup_fmap, Hj.
        + change (map p_id) with (fmap (M := list) p_id).
          rewrite list_lookup_fmap, Hl. simpl. congruence. }
      unfold statsMatchLog. cbn zeta.
      rewrite movesOf_snoc, playsOf_snoc.
      rewrite !decide_False by tauto. by rewrite !app_nil_r. }
  rewrite Hplayers. destruct ended; [|done].
  apply Forall_forall. intros q Hq.
  apply list_elem_of_lookup in Hq as [j Hj].
  destruct (lookup_lt_is_Some_2 (<[idx := player']> (r_players room)) j) as [q0 Hq0].
  { rewrite <- (finalScores_length (<[idx := player']> (r_players room))).
    by eapply lookup_lt_Some. }
  rewrite (finalScores_lookup _ _ _ Hq0) in Hj. injection Hj as <-.
  rewrite Forall_forall in Hmid.
  apply (Hmid q0). by eapply list_elem_of_lookup_2.
Qed.

(** The entries of the log after one submission. *)
Lemma playMove_entries seats room pid action pls ids g :
  orderly seats room →
  r_game room = Some g →
  Forall (entryOk isWordValid) (g_log g) →
  ∃ g', r_game (fst (playMove isWordValid tMove tTurn rnd room pid action pls ids))
        = Some g'
        ∧ Forall (entryOk isWordValid) (g_log g').
Proof.
  intros Hord Hg Hlog.
  destruct (playMove _ _ _ _ _ _ _ _ _) as [room' [e|[move ended]]] eqn:H; simpl.
  { rewrite (playMove_refused _ _ _ _ _ _ _ _ _ _ _ _ Hord H). eauto. }
  apply playMove_mover in H
    as (g0 & idx & player & player' & g' & Hg0 & _ & _ & _ & Hok & _ & _ & _ & _
        & Hg' & Hlog').
  assert (g0 = g) as -> by congruence.
  exists g'. split; [done|]. rewrite Hlog'.
  apply Forall_app. split; [done|by constructor].
Qed.

End OneMove.

(** From the start of a game on, the statistics of every player count the
    moves the log records for the player (the ids of the players being
    distinct): [wordsPlayed] and [totalTurns] are the number of the
    player's plays, [passes] the number of the player's passes and
    exchanges, [bestWordScore] the highest score among the plays, and
    [bestWord] is set once a play has scored. *)
Theorem stats_count_the_moves_of_the_log isWordValid lang ids rnd now lobby room reqs :
  startNewGame lang ids rnd now lobby = (room, inr ()) →
  NoDup (map p_id (r_players lobby)) →
  let room' := fst (runMoves isWordValid room reqs) in
  ∃ g', r_game room' = Some g'
        ∧ Forall (statsMatchLog (g_log g')) (r_players room').
Proof.
  intros H Hnd room'.
  pose proof (startNewGame_fresh_stats lang ids rnd now lobby room H) as Hfresh.
  apply startNewGame_orderly in H as (Hord & g & Hg & Hlog).
  set (seats := map p_id (r_players lobby)) in *.
  set (I := λ r : Room,
         orderly seats r
         ∧ ∃ g', r_game r = Some g'
                 ∧ Forall (statsMatchLog (g_log g')) (r_players r)
                 ∧ Forall (entryOk isWordValid) (g_log g')).
  assert (I room') as (_ & g' & Hg' & Hst & _); [|by exists g'].
  apply (runMoves_invariant I (λ _, True) isWordValid); [|apply Forall_True|].
  - intros r rq _ (Hord' & g1 & Hg1 & Hst1 & Hlog1). split.
    + eapply playMove_orderly; [done|exact Hg1].
    + by eapply playMove_stats.
  - split; [done|]. exists g. split; [done|]. rewrite Hlog. split; [|constructor].
    eapply Forall_impl; [exact Hfresh|]. intros p Hp.
    unfold statsMatchLog. cbn zeta. unfold playsOf, movesOf.
    rewrite !filter_nil, Hp. done.
Qed.

(** From the start of a game on, every entry of the log is as [playMove]
    writes it: a play names its placements and at least one word, each of
    its words has two letters or more and was accepted by the validator;
    a pass or an exchange names no word and no placement and scores 0. *)
Theorem logged_words_were_accepted isWordValid lang ids rnd now lobby room reqs :
  startNewGame lang ids rnd now lobby = (room, inr ()) →
  ∃ g', r_game (fst (runMoves isWordValid room reqs)) = Some g'
        ∧ Forall (entryOk isWordValid) (g_log g').
Proof.
  intros H.
  apply startNewGame_orderly in H as (Hord & g & Hg & Hlog).
  set (seats := map p_id (r_players lobby)) in *.
  set (I := λ r : Room,
         orderly seats r
         ∧ ∃ g', r_game r = Some g' ∧ Forall (entryOk isWordValid) (g_log g')).
  assert (I (fst (runMoves isWordValid room reqs))) as (_ & Hres); [|done].
  apply (runMoves_invariant I (λ _, True) isWordValid); [|apply Forall_True|].
  - intros r rq _ (Hord' & g1 & Hg1 & Hlog1). split.
    + eapply playMove_orderly; [done|exact Hg1].
    + by eapply playMove_entries.
  - split; [done|]. exists g. split; [done|]. rewrite Hlog. constructor.
Qed.

End StatFacts.

(** ** The status of the room is not read by the engine *)

Section StatusFacts.

Import Js Spec Progress.

Lemma finishMove_status tTurn m room s :
  finishMove tTurn m (withStatus room s)
  = (match snd (finishMove tTurn m room) with
     | inr (_, true) => fst (finishMove tTurn m room)
     | _ => withStatus (fst (finishMove tTurn m room)) s
     end, snd (finishMove tTurn m room)).
Proof.
  unfold finishMove, advanceTurn, checkAndFinalizeIfEnded.
  cbn [r_game r_players withStatus].
  destruct (r_game room) as [g|]; [|done].
  destruct (nthZ _ _) as [p|]; [|done].
  cbn [r_game r_players withGame].
  by destruct (gameHasEnded _ _).
Qed.

(** [playMove] does not look at the status of the room: on a room that is
    waiting, playing or finished it accepts and refuses the same moves,
    with the same result and the same changes to the room; the status it
    leaves is the one it found, or [finished] if the move ends the game.
    In particular a move submitted after the end of the game is processed
    like any other. *)
Theorem playMove_does_not_read_the_status
    isWordValid tMove tTurn rnd room s pid action pls ids :
  playMove isWordValid tMove tTurn rnd (withStatus room s) pid action pls ids
  = (match snd (playMove isWordValid tMove tTurn rnd room pid action pls ids) with
     | inr (_, true) => fst (playMove isWordValid tMove tTurn rnd room pid action pls ids)
     | _ => withStatus
              (fst (playMove isWordValid tMove tTurn rnd room pid action pls ids)) s
     end,
     snd (playMove isWordValid tMove tTurn rnd room pid action pls ids)).
Proof.
  unfold playMove. cbn [r_game r_players withStatus].
  destruct (r_game room) as [g|]; [|done].
  destruct (list_find _ _) as [[idx player]|]; [|done].
  destruct (negb _); [done|].
  destruct action.
  - destruct (validatePlay _ _ _ _) as [e|plan]; [done|].
    destruct (placeTiles _ _ _ _ _) as [board' [e|]]; [done|].
    destruct (drawTiles _ _) as [drawn bag'].
    apply (finishMove_status tTurn _
             (withGame (withPlayers room _) _) s).
  - apply (finishMove_status tTurn _ (withGame (withPlayers room _) _) s).
  - destruct (decide _); [done|]. destruct (decide _); [done|].
    destruct (negb _); [done|].
    destruct (drawTiles _ _) as [drawn bag'].
    apply (finishMove_status tTurn _ (withGame (withPlayers room _) _) s).
Qed.

End StatusFacts.

(** ** Identifiers *)

Section IdFacts.

Import Js Ids.

Lemma get_in_range (s : string) (i : nat) :
  (i < String.length s)%nat →
  ∃ c, String.get i s = Some c ∧ c ∈ list_ascii_of_string s.
Proof.
  revert i. induction s as [|a s IH]; intros i Hi; simpl in *; [lia|].
  destruct i as [|i].
  - exists a. split; [done|]. apply list_elem_of_here.
  - destruct (IH i) as (c & Hc & Hin); [lia|].
    exists c. split; [done|]. by apply list_elem_of_further.
Qed.

Lemma length_append (s t : string) :
  String.length (s +:+ t) = (String.length s + String.length t)%nat.
Proof. induction s as [|a s IH]; simpl; [done|]. by rewrite IH. Qed.

Lemma chars_append (s t : string) :
  list_ascii_of_string (s +:+ t) = list_ascii_of_string s ++ list_ascii_of_string t.
Proof. induction s as [|a s IH]; simpl; [done|]. by rewrite IH. Qed.

(** A draw from a non-empty alphabet: [len] characters of the alphabet. *)
Lemma draw_spec (alphabet : string) rnd len : ∀ k,
  alphabet ≠ "" →
  String.length (draw alphabet rnd k len) = len
  ∧ Forall (λ c, c ∈ list_ascii_of_string alphabet)
      (list_ascii_of_string (draw alphabet rnd k len)).
Proof.
  induction len as [|len IH]; intros k Hne; cbn [draw]; [by split|].
  destruct (IH (S k) Hne) as [Hl Hall].
  unfold pick.
  destruct (get_in_range alphabet (rnd k mod String.length alphabet)) as (c & -> & Hc).
  { apply Nat.mod_upper_bound. by destruct alphabet. }
  rewrite length_append, chars_append, Hl. split; [done|]. by constructor.
Qed.

(** [randomId(len)] is [len] characters long, lower-case letters and
    digits; [roomCode(len)] is [len] characters long, upper-case letters
    and digits without the look-alikes I, O, 0 and 1; [tileId()] is the
    prefix [t_] followed by a random id of 10 characters. *)
Theorem ids_are_drawn_from_their_alphabets rnd k len :
  (String.length (randomId rnd k len) = len
   ∧ Forall (λ c, let n := nat_of_ascii c in
                  (97 ≤ n ≤ 122)%nat ∨ (48 ≤ n ≤ 57)%nat)
       (list_ascii_of_string (randomId rnd k len)))
  ∧ (String.length (roomCode rnd k len) = len
     ∧ Forall (λ c, let n := nat_of_ascii c in
                    ((65 ≤ n ≤ 90)%nat ∨ (50 ≤ n ≤ 57)%nat)
                    ∧ c ≠ "I"%char ∧ c ≠ "O"%char)
         (list_ascii_of_string (roomCode rnd k len)))
  ∧ (String.length (tileId rnd k) = 12%nat
     ∧ substring 0 2 (tileId rnd k) = "t_"
     ∧ substring 2 10 (tileId rnd k) = randomId rnd k 10).
Proof.
  split; [|split].
  - destruct (draw_spec idAlphabet rnd len k) as [Hl Hall]; [done|].
    split; [done|]. eapply Forall_impl; [exact Hall|].
    intros c Hc. revert c Hc. apply Forall_forall.
    apply (bool_decide_unpack _). vm_compute. exact I.
  - destruct (draw_spec codeAlphabet rnd len k) as [Hl Hall]; [done|].
    split; [done|]. eapply Forall_impl; [exact Hall|].
    intros c Hc. revert c Hc. apply Forall_forall.
    apply (bool_decide_unpack _). vm_compute. exact I.
  - destruct (draw_spec idAlphabet rnd 10 k) as [Hl _]; [done|].
    unfold tileId. fold (randomId rnd k 10) in Hl.
    set (r := randomId rnd k 10) in *.
    change ("t_" +:+ r) with (String "t" (String "_" r)).
    cbn [String.length substring]. rewrite Hl.
    split; [done|]. split; [by destruct r|].
    rewrite <- Hl. clear. induction r as [|a r IH]; simpl; [done|]. by rewrite IH.
Qed.

End IdFacts.

(** ** The room registry *)

Section StoreFacts.

Import Js Ids Store.


(** A code that [tryCodes] returns is free and has the length asked for. *)
Lemma tryCodes_Some rooms rnd len tries : ∀ k id k',
  tryCodes rooms rnd len k tries = (Some id, k') →
  rooms !! id = None ∧ String.length id = len.
Proof.
  induction tries as [|t IH]; intros k id k' H; cbn [tryCodes] in H; [discriminate|].
  destruct (decide (is_Some (rooms !! roomCode rnd k len))) as [Hs|Hn].
  - by eapply IH.
  - injection H as <- <-. split.
    + by apply eq_None_not_Some.
    + apply (draw_spec codeAlphabet rnd len k). done.
Qed.

(** When [tryCodes] gives up, every code it drew is taken. *)
Lemma tryCodes_None rooms rnd len tries : ∀ k k',
  tryCodes rooms rnd len k tries = (None, k') →
  k' = (k + tries * len)%nat
  ∧ ∀ i, (i < tries)%nat → is_Some (rooms !! roomCode rnd (k + i * len) len).
Proof.
  induction tries as [|t IH]; intros k k' H; cbn [tryCodes] in H.
  - injection H as <-. split; [lia|]. intros i Hi. lia.
  - destruct (decide (is_Some (rooms !! roomCode rnd k len))) as [Hs|Hn];
      [|discriminate].
    apply IH in H as [-> Hall]. split; [lia|].
    intros [|i] Hi.
    + by rewrite Nat.add_0_r.
    + replace (k + S i * len)%nat with (k + len + i * len)%nat by lia.
      apply Hall. lia.
Qed.

(** [createRoom] registers the room under a code that was free, of 4
    characters (of 6 after 1000 collisions), and touches no other room;
    the room is waiting, without a game, with the creator as its only
    player and host, and seats between 1 and 4 players.  It fails only
    when each of the 2000 codes it drew is taken, and then changes
    nothing. *)
Theorem createRoom_registers_a_new_room now rnd rooms maxPlayers nickname playerId :
  match createRoom now rnd rooms maxPlayers nickname playerId with
  | (rooms', inr (room, host)) =>
      rooms !! r_id room = None
      ∧ rooms' !! r_id room = Some room
      ∧ (∀ k, k ≠ r_id room → rooms' !! k = rooms !! k)
      ∧ (String.length (r_id room) = 4%nat ∨ String.length (r_id room) = 6%nat)
      ∧ r_status room = waiting ∧ r_game room = None
      ∧ r_players room = [host] ∧ r_hostId room = p_id host
      ∧ r_lastActivityAt room = now
      ∧ r_maxPlayers room
        = (if decide (maxPlayers < 1) then 1
           else if decide (4 < maxPlayers) then 4 else maxPlayers)
      ∧ (∀ pid, playerId = Some pid → pid ≠ "" → p_id host = pid)
      ∧ (playerId = None ∨ playerId = Some "" →
         String.length (p_id host) = 16%nat)
      ∧ p_nickname host = substring 0 15 nickname
      ∧ p_connected host = true ∧ p_ready host = false ∧ p_score host = 0
      ∧ p_rack host = [] ∧ p_connectionId host = None
  | (rooms', inl _) =>
      rooms' = rooms
      ∧ (∀ i, (i < 1000)%nat → is_Some (rooms !! roomCode rnd (4 * i) 4))
      ∧ (∀ i, (i < 1000)%nat → is_Some (rooms !! roomCode rnd (4000 + 6 * i) 6))
  end.
Proof.
  unfold createRoom, generateUniqueRoomId.
  destruct (tryCodes rooms rnd 4 0 1000) as [[id|] k] eqn:H4.
  - apply tryCodes_Some in H4 as [Hfree Hlen].
    cbn [r_id r_status r_game r_players r_hostId r_lastActivityAt r_maxPlayers].
    split; [done|]. split; [by rewrite lookup_insert_eq|].
    split; [by intros k' Hk; rewrite lookup_insert_ne|].
    split; [by left|]. do 5 (split; [done|]).
    split; [repeat destruct (decide _); lia|].
    split; [by intros pid -> Hpid; simpl; rewrite decide_False|].
    split; [|done].
    intros [->| ->]; simpl; apply (draw_spec idAlphabet rnd 16 k); done.
  - apply tryCodes_None in H4 as [-> Hall4].
    destruct (tryCodes rooms rnd 6 _ 1000) as [[id|] k] eqn:H6.
    + apply tryCodes_Some in H6 as [Hfree Hlen].
      cbn [r_id r_status r_game r_players r_hostId r_lastActivityAt r_maxPlayers].
      split; [done|]. split; [by rewrite lookup_insert_eq|].
      split; [by intros k' Hk; rewrite lookup_insert_ne|].
      split; [by right|]. do 5 (split; [done|]).
      split; [repeat destruct (decide _); lia|].
      split; [by intros pid -> Hpid; simpl; rewrite decide_False|].
      split; [|done].
      intros [->| ->]; simpl; apply (draw_spec idAlphabet rnd 16 k); done.
    + apply tryCodes_None in H6 as [-> Hall6].
      split; [done|]. split.
      * intros i Hi. specialize (Hall4 i Hi).
        by replace (0 + i * 4)%nat with (4 * i)%nat in Hall4 by lia.
      * intros i Hi. specialize (Hall6 i Hi).
        by replace (0 + 1000 * 4 + i * 6)%nat with (4000 + 6 * i)%nat in Hall6 by lia.
Qed.







End StoreFacts.

(** ** The turn timer *)

Section TimerFacts.

Import Js Spec Progress Timers.

(** What the timer relies on: the game is orderly, its turns last
    [TURN_DURATION_MS], and the counter of passes is not negative. *)
Lemma playMove_timing isWordValid tMove tTurn rnd seats room pid action pls ids g :
  orderly seats room →
  r_game room = Some g →
  g_turnDurationMs g = TURN_DURATION_MS → 0 ≤ g_consecutivePasses g →
  r_status room = finished ∨ g_consecutivePasses g < 6 →
  let room' := fst (playMove isWordValid tMove tTurn rnd room pid action pls ids) in
  ∃ g', r_game room' = Some g'
        ∧ g_turnDurationMs g' = TURN_DURATION_MS ∧ 0 ≤ g_consecutivePasses g'
        ∧ (r_status room' = finished ∨ g_consecutivePasses g' < 6).
Proof.
  intros Hord Hg Hd Hcp Hfin room'. subst room'.
  destruct (playMove _ _ _ _ _ _ _ _ _) as [room' [e|[move ended]]] eqn:H; simpl.
  { rewrite (playMove_refused _ _ _ _ _ _ _ _ _ _ _ _ Hord H). eauto. }
  apply playMove_accepted in H
    as (g0 & idx & player & player' & board' & bag' & p & Hg0 & _ & _ & _ & _
        & _ & _ & _ & _ & _ & _ & _ & _ & _ & _ & Hend & Hroom).
  assert (g0 = g) as -> by congruence.
  eexists. split; [rewrite Hroom; by destruct ended|].
  split; [done|].
  split; [cbn [g_consecutivePasses turnPassedTo logMove];
          destruct (decide (action = play)); lia|].
  destruct ended; [left; by rewrite Hroom|]. right.
  symmetry in Hend. unfold gameHasEnded in Hend.
  apply orb_false_iff in Hend as [_ Hend]. apply Z.leb_gt in Hend. exact Hend.
Qed.

(** In an orderly game the pass of the player to move goes through. *)
Lemma forced_pass_accepted isWordValid tMove tTurn rnd seats room g :
  orderly seats room →
  r_game room = Some g →
  ∃ room' move ended,
    playMove isWordValid tMove tTurn rnd room (g_activePlayerId g) pass None None
    = (room', inr (move, ended)).
Proof.
  intros Hord Hg.
  destruct (playMove _ _ _ _ _ _ _ _ _) as [room' [e|[move ended]]] eqn:H; [|eauto].
  exfalso.
  destruct Hord as (Hseats & g0 & Hg0 & Hwf & _ & Hti & Hact & _).
  assert (g0 = g) as -> by congruence.
  pose proof (playMove_no_TypeError isWordValid tMove tTurn rnd room (g_activePlayerId g)
                pass None None g Hg Hwf ltac:(lia)) as Hne.
  rewrite H in Hne. cbn [snd] in Hne.
  unfold playMove in H. rewrite Hg in H.
  destruct (list_find _ _) as [[idx player]|] eqn:Hf.
  - rewrite bool_decide_eq_true_2 in H by done. cbn [negb] in H.
    apply finishMove_inl in H as [-> _]; [done|]. by eexists.
  - apply list_find_None in Hf. rewrite Forall_forall in Hf.
    symmetry in Hact. apply list_elem_of_lookup_2 in Hact.
    rewrite <- Hseats in Hact.
    apply list_elem_of_fmap in Hact as (q & Hq & Hin).
    by apply (Hf q Hin).
Qed.

(** One overdue tick on a game that is being played. *)
Lemma enforceTurn_step isWordValid now tMove tTurn seats room g :
  orderly seats room →
  r_game room = Some g →
  g_turnDurationMs g = TURN_DURATION_MS → 0 ≤ g_consecutivePasses g →
  r_status room = playing →
  g_turnEndsAt g < now →
  ∃ room' g' move,
    enforceTurn isWordValid now tMove tTurn room
    = (room',
       (ToRoom (r_id room),
        turnUpdate (r_id room) (g_activePlayerId g') (tTurn + 120000) (g_version g + 1))
       :: broadcastGameState room')
    ∧ orderly seats room'
    ∧ r_game room' = Some g'
    ∧ r_id room' = r_id room
    ∧ g_log g' = g_log g ++ [move]
    ∧ ms_action move = pass ∧ ms_playerId move = g_activePlayerId g
    ∧ ms_turnNumber move = g_version g + 1 ∧ ms_createdAt move = tMove
    ∧ g_consecutivePasses g' = g_consecutivePasses g + 1
    ∧ g_turnEndsAt g' = tTurn + 120000
    ∧ g_version g' = g_version g + 1
    ∧ g_turnDurationMs g' = TURN_DURATION_MS
    ∧ (r_status room' = finished
       ∨ r_status room' = playing ∧ g_consecutivePasses g' < 6).
Proof.
  intros Hord Hg Hd Hcp Hst Hdue.
  destruct (forced_pass_accepted isWordValid tMove tTurn (λ _, O) seats room g Hord Hg)
    as (room' & move & ended & H).
  pose proof (playMove_orderly isWordValid tMove tTurn (λ _, O) seats room
                (g_activePlayerId g) pass None None g Hord Hg) as [Hord' _].
  rewrite H in Hord'. cbn [fst] in Hord'.
  unfold enforceTurn. rewrite Hg, Hst.
  rewrite bool_decide_eq_true_2 by done. cbn [negb].
  assert ((g_turnEndsAt g <? now) = true) as -> by (by apply Z.ltb_lt).
  cbn [negb]. rewrite H.
  apply playMove_accepted in H
    as (g0 & idx & player & player' & board' & bag' & p & Hg0 & _ & _ & Hpid & Hact
        & Hturn & Hcreated & _ & _ & _ & _ & _ & _ & _ & _ & Hend & Hroom).
  assert (g0 = g) as -> by congruence.
  rewrite decide_False in Hend, Hroom by done.
  set (gm := turnPassedTo _ _ _ _) in *.
  assert (r_game room' = Some gm) as Hgm by (rewrite Hroom; by destruct ended).
  assert (r_id room' = r_id room) as Hid by (rewrite Hroom; by destruct ended).
  rewrite Hgm, Hid.
  exists room', gm, move.
  assert (g_turnEndsAt gm = tTurn + 120000) as Hdl.
  { subst gm. cbn [g_turnEndsAt turnPassedTo g_turnDurationMs logMove]. by rewrite Hd. }
  rewrite Hdl.
  split; [done|]. split; [done|]. split; [done|]. split; [done|].
  split; [done|]. split; [done|]. split; [done|]. split; [done|]. split; [done|].
  split; [done|]. split; [done|]. split; [done|]. split; [done|].
  destruct ended.
  - left. by rewrite Hroom.
  - right. rewrite Hroom. split; [done|].
    symmetry in Hend. unfold gameHasEnded in Hend.
    apply orb_false_iff in Hend as [_ Hend]. apply Z.leb_gt in Hend.
    exact Hend.
Qed.

(** What holds of a game from its start on. *)
Lemma runMoves_timing isWordValid lang ids rnd now lobby room reqs :
  startNewGame lang ids rnd now lobby = (room, inr ()) →
  let seats := map p_id (r_players lobby) in
  let room' := fst (runMoves isWordValid room reqs) in
  orderly seats room'
  ∧ ∃ g', r_game room' = Some g'
          ∧ g_turnDurationMs g' = TURN_DURATION_MS ∧ 0 ≤ g_consecutivePasses g'
          ∧ (r_status room' = finished ∨ g_consecutivePasses g' < 6).
Proof.
  intros H seats room'.
  assert (∃ g, r_game room = Some g ∧ g_turnDurationMs g = TURN_DURATION_MS
               ∧ g_consecutivePasses g = 0) as (g & Hg & Hd & Hcp).
  { unfold startNewGame in H. destruct (r_players lobby); [discriminate|].
    destruct (dealRacks _ _). injection H as <-. eexists. by split. }
  apply startNewGame_orderly in H as (Hord & _). fold seats in Hord.
  apply (runMoves_invariant
           (λ r, orderly seats r
                 ∧ ∃ g', r_game r = Some g'
                         ∧ g_turnDurationMs g' = TURN_DURATION_MS
                         ∧ 0 ≤ g_consecutivePasses g'
                         ∧ (r_status r = finished ∨ g_consecutivePasses g' < 6))
           (λ _, True) isWordValid); [|apply Forall_True|].
  - intros r rq _ (Hord' & g1 & Hg1 & Hd1 & Hcp1 & Hfin1). split.
    + eapply playMove_orderly; [done|exact Hg1].
    + by eapply playMove_timing.
  - split; [done|]. exists g. split; [done|]. split; [done|]. split; [lia|].
    right. lia.
Qed.

(** From the start of a game on, the turn timer can always act: when the
    room is playing and the deadline of the turn has passed, the pass it
    forces on the player to move is accepted, whatever happened before.
    The pass is logged, the version and the counter of passes go up by
    one, the deadline becomes [tTurn + 120000], and the room is told
    first of the new turn, then each connected player of the new state. *)
Theorem timer_forces_the_pass_of_the_player_to_move
    isWordValid lang ids rnd now0 lobby room reqs now tMove tTurn g :
  startNewGame lang ids rnd now0 lobby = (room, inr ()) →
  let room1 := fst (runMoves isWordValid room reqs) in
  r_game room1 = Some g →
  r_status room1 = playing →
  g_turnEndsAt g < now →
  ∃ room2 g2 move,
    enforceTurn isWordValid now tMove tTurn room1
    = (room2,
       (ToRoom (r_id room1),
        turnUpdate (r_id room1) (g_activePlayerId g2) (tTurn + 120000)
          (g_version g + 1))
       :: broadcastGameState room2)
    ∧ r_game room2 = Some g2
    ∧ g_log g2 = g_log g ++ [move]
    ∧ ms_action move = pass ∧ ms_playerId move = g_activePlayerId g
    ∧ ms_turnNumber move = g_version g + 1 ∧ ms_createdAt move = tMove
    ∧ g_consecutivePasses g2 = g_consecutivePasses g + 1
    ∧ g_turnEndsAt g2 = tTurn + 120000
    ∧ g_version g2 = g_version g + 1.
Proof.
  intros H room1 Hg Hst Hdue.
  destruct (runMoves_timing isWordValid lang ids rnd now0 lobby room reqs H)
    as (Hord & g' & Hg' & Hd & Hcp & _).
  fold room1 in Hord, Hg'. assert (g' = g) as -> by congruence.
  destruct (enforceTurn_step isWordValid now tMove tTurn _ room1 g Hord Hg Hd Hcp Hst Hdue)
    as (room2 & g2 & move & He & _ & Hg2 & _ & Hlog & Ha & Hp & Ht & Hc & Hcp2 & Hdl
        & Hv & _).
  exists room2, g2, move. done.
Qed.

(** Overdue ticks on an orderly game that is being played or finished. *)
Lemma enforceTurns_finish isWordValid seats ticks : ∀ room g,
  orderly seats room →
  r_game room = Some g →
  g_turnDurationMs g = TURN_DURATION_MS → 0 ≤ g_consecutivePasses g →
  r_status room = finished
  ∨ (r_status room = playing ∧ overdue (g_turnEndsAt g) ticks
     ∧ 6 ≤ g_consecutivePasses g + Z.of_nat (length ticks)
     ∧ g_consecutivePasses g < 6) →
  r_status (enforceTurns isWordValid ticks room) = finished.
Proof.
  unfold enforceTurns.
  induction ticks as [|t ticks IH]; intros room g Hord Hg Hd Hcp Hcase; cbn [foldl].
  - destruct Hcase as [Hfin|(_ & _ & Hlen & Hlt)]; [done|]. cbn [length] in Hlen. lia.
  - destruct Hcase as [Hfin|(Hst & [Hdue Hrest] & Hlen & Hlt)].
    + assert (enforceTurn isWordValid (tk_now t) (tk_tMove t) (tk_tTurn t) room
              = (room, [])) as ->.
      { unfold enforceTurn. rewrite Hg, Hfin. done. }
      cbn [fst]. apply (IH room g Hord Hg Hd Hcp). by left.
    + destruct (enforceTurn_step isWordValid (tk_now t) (tk_tMove t) (tk_tTurn t)
                  seats room g Hord Hg Hd Hcp Hst Hdue)
        as (room' & g' & move & -> & Hord' & Hg' & _ & _ & _ & _ & _ & _ & Hcp' & Hdl
            & _ & Hd' & Hcase').
      cbn [fst]. apply (IH room' g' Hord' Hg' Hd'); [lia|].
      destruct Hcase' as [Hfin|[Hst' Hlt']]; [by left|]. right.
      split; [done|]. split; [by rewrite Hdl|]. cbn [length] in Hlen. lia.
Qed.

(** A game that its players abandon does not hang: from the start of a
    game on, in a room that is playing, overdue ticks of the turn timer
    pass for one player after the other, and the game is finished once
    the passes in a row, those before the ticks included, number six. *)
Theorem abandoned_game_is_finished_by_the_timer
    isWordValid lang ids rnd now0 lobby room reqs ticks g :
  startNewGame lang ids rnd now0 lobby = (room, inr ()) →
  let room1 := fst (runMoves isWordValid room reqs) in
  r_game room1 = Some g →
  r_status room1 = playing →
  overdue (g_turnEndsAt g) ticks →
  6 ≤ g_consecutivePasses g + Z.of_nat (length ticks) →
  r_status (enforceTurns isWordValid ticks room1) = finished.
Proof.
  intros H room1 Hg Hst Hdue Hlen.
  destruct (runMoves_timing isWordValid lang ids rnd now0 lobby room reqs H)
    as (Hord & g' & Hg' & Hd & Hcp & Hfin).
  fold room1 in Hord, Hg', Hfin. assert (g' = g) as -> by congruence.
  destruct Hfin as [Hfin|Hlt]; [congruence|].
  eapply enforceTurns_finish; [exact Hord|exact Hg|done|done|]. right. done.
Qed.

End TimerFacts.

(** ** The cleanup of idle rooms *)

Section SweepFacts.

Import Js Timers.

Lemma sweepRooms_lookup now listed : ∀ (m : gmap string Room) k,
  sweepRooms now listed m !! k
  = if bool_decide (Exists (λ r, r_id r = k ∧ idle now r = true) listed)
    then None else m !! k.
Proof.
  unfold sweepRooms.
  induction listed as [|r listed IH]; intros m k; cbn [foldl].
  - rewrite bool_decide_eq_false_2; [done|]. by intros ?%Exists_nil.
  - rewrite IH.
    destruct (bool_decide (Exists _ listed)) eqn:Hex.
    + apply bool_decide_eq_true in Hex.
      rewrite bool_decide_eq_true_2; [done|]. by apply Exists_cons_tl.
    + apply bool_decide_eq_false in Hex.
      destruct (idle now r) eqn:Hidle.
      * destruct (decide (r_id r = k)) as [Hk|Hk].
        -- rewrite bool_decide_eq_true_2 by (by apply Exists_cons_hd).
           subst k. apply lookup_delete_eq.
        -- rewrite bool_decide_eq_false_2.
           ++ by apply lookup_delete_ne.
           ++ intros [[? _]|?]%Exists_cons; done.
      * rewrite bool_decide_eq_false_2; [done|].
        intros [[_ ?]|?]%Exists_cons; [congruence|done].
Qed.

(** The cleanup loop deletes exactly the rooms in which no player is
    connected and whose last activity is more than 30 minutes old: a
    room is in the store after the sweep if and only if it was there
    before and one of its players is connected or it was active in the
    last 1800000 ms.  (The rooms are registered under their ids, and
    [listed] is what [listRooms] returns, in any order.) *)
Theorem sweep_deletes_exactly_the_idle_rooms now listed rooms key room :
  listed ≡ₚ (map_to_list rooms).*2 →
  map_Forall (λ k r, r_id r = k) rooms →
  sweepRooms now listed rooms !! key = Some room
  ↔ rooms !! key = Some room
    ∧ (Exists (λ p, p_connected p = true) (r_players room)
       ∨ now - r_lastActivityAt room ≤ 1800000).
Proof.
  intros Hperm Hkeyed.
  assert (∀ r, idle now r = false
               ↔ Exists (λ p, p_connected p = true) (r_players r)
                 ∨ now - r_lastActivityAt r ≤ 1800000) as Hidle.
  { intros r. unfold idle, ROOM_IDLE_CLEANUP_MS.
    rewrite andb_false_iff, negb_false_iff, Z.ltb_ge.
    rewrite existsb_exists, Exists_exists.
    split; (intros [(p & Hp & Hc)|?]; [left|by right]); exists p.
    - split; [by apply list_elem_of_In|done].
    - split; [by apply list_elem_of_In|done]. }
  assert (∀ r, r ∈ listed → rooms !! r_id r = Some r) as Hlisted.
  { intros r Hr. rewrite Hperm in Hr.
    apply list_elem_of_fmap in Hr as ([k r'] & -> & Hin).
    apply elem_of_map_to_list in Hin. cbn [snd].
    by rewrite (Hkeyed k r' Hin). }
  rewrite sweepRooms_lookup. rewrite <- Hidle.
  destruct (bool_decide (Exists _ listed)) eqn:Hex.
  - apply bool_decide_eq_true, Exists_exists in Hex as (r & Hr & Hk & Hi).
    split; [done|]. intros [Hroom Hnot].
    apply Hlisted in Hr. rewrite Hk in Hr. congruence.
  - apply bool_decide_eq_false in Hex.
    split; [|by intros [? _]]. intros Hroom. split; [done|].
    destruct (idle now room) eqn:Hi; [|done]. exfalso. apply Hex.
    apply Exists_exists. exists room. split; [|by rewrite (Hkeyed key room Hroom)].
    rewrite Hperm. apply list_elem_of_fmap. exists (key, room).
    split; [done|]. by apply elem_of_map_to_list.
Qed.

End SweepFacts.

(** ** The cache of the HTTP validator *)

Section HttpFacts.

Import Js.

(** The HTTP validator asks once per word, whatever the case of its
    letters: only a response with an ok status makes a word valid, a
    refusal, a time-out or a network error makes it invalid, and the
    answer is kept: a later query for the word returns it without a
    request, whatever the service would answer then.  Entries of the
    cache are never changed. *)
Theorem http_validator_keeps_its_first_answer fetched fetched' cache word word' :
  toLowerCase word' = toLowerCase word →
  let o := Http.isWordValid fetched cache word in
  Http.isWordValid fetched' (fst o) word' = o
  ∧ (∀ k v, cache !! k = Some v → fst o !! k = Some v)
  ∧ (cache !! toLowerCase word = None →
     snd o = match fetched with Http.responded ok => ok | Http.threw => false end).
Proof.
  intros Hkey. unfold Http.isWordValid. rewrite Hkey.
  destruct (cache !! toLowerCase word) as [v|] eqn:Hc; cbn [fst snd].
  - rewrite Hc. done.
  - rewrite lookup_insert_eq. split; [done|]. split.
    + intros k v Hk. rewrite lookup_insert_ne; [done|]. congruence.
    + intros _. by destruct fetched as [[]|].
Qed.

End HttpFacts.

(** ** What a player is shown of the game *)

Section ViewFacts.

Import Js Server.

(** Two lists of players that agree on the ids and on what [R] says. *)
Lemma list_find_related (R : Player → Player → Prop) pid players players' :
  Forall2 (λ p p', p_id p' = p_id p ∧ R p p') players players' →
  match list_find (λ p, p_id p = pid) players,
        list_find (λ p, p_id p = pid) players' with
  | Some (i, p), Some (j, p') => i = j ∧ R p p'
  | None, None => True
  | _, _ => False
  end.
Proof.
  induction 1 as [|p p' l l' [Hid HR] _ IH]; cbn [list_find]; [done|].
  rewrite Hid. destruct (decide (p_id p = pid)); [done|].
  destruct (list_find _ l) as [[i q]|], (list_find _ l') as [[j q']|];
    cbn [fmap option_fmap option_map prod_map]; try done.
  destruct IH as [-> ?]. done.
Qed.

Lemma scoresOf_related players players' : ∀ m : gmap string Z,
  Forall2 (λ p p', p_id p' = p_id p ∧ p_score p' = p_score p) players players' →
  foldl (λ m p, <[p_id p := p_score p]> m) m players'
  = foldl (λ m p, <[p_id p := p_score p]> m) m players.
Proof.
  intros m H. revert m.
  induction H as [|p p' l l' [Hid Hs] _ IH]; intros m; cbn [foldl]; [done|].
  by rewrite Hid, Hs, IH.
Qed.

(** The state shown to a player does not depend on the racks of the
    others, nor on the tiles of the bag beyond their number: two games
    that differ in nothing else give the player the same [gameState]. *)
Theorem game_state_shows_no_other_rack game game' players players' pid :
  Forall2 (λ p p', p_id p' = p_id p ∧ p_nickname p' = p_nickname p
                   ∧ p_score p' = p_score p
                   ∧ (p_id p = pid → p_rack p' = p_rack p)) players players' →
  g_board game' = g_board game →
  length (g_bag game') = length (g_bag game) →
  g_log game' = g_log game →
  g_activePlayerId game' = g_activePlayerId game →
  g_turnEndsAt game' = g_turnEndsAt game →
  g_turnDurationMs game' = g_turnDurationMs game →
  g_version game' = g_version game →
  toGameStateSummaryForPlayer game' players' pid
  = toGameStateSummaryForPlayer game players pid.
Proof.
  intros Hp Hb Hbag Hlog Ha He Hd Hv.
  unfold toGameStateSummaryForPlayer. rewrite Hb, Hbag, Hlog, Ha, He, Hd, Hv.
  assert (scoresOf players' = scoresOf players) as ->.
  { apply scoresOf_related. eapply Forall2_impl; [exact Hp|]; intros ? ? (? & ? & ? & ?); split; assumption. }
  assert (default [] (p_rack <$> (snd <$> list_find (λ p, p_id p = pid) players'))
          = default [] (p_rack <$> (snd <$> list_find (λ p, p_id p = pid) players)))
    as ->.
  { pose proof (list_find_related (λ p p', p_id p = pid → p_rack p' = p_rack p)
                  pid players players') as Hf.
    destruct (list_find _ players) as [[i p]|] eqn:H1,
             (list_find _ players') as [[j p']|] eqn:H2;
      try (exfalso; apply Hf; eapply Forall2_impl; [exact Hp|]; intros ? ? (? & ? & ? & ?); split; assumption);
      [|done].
    cbn. apply list_find_Some in H1 as (_ & Hid & _).
    apply Hf; [|done]. eapply Forall2_impl; [exact Hp|]; intros ? ? (? & ? & ? & ?); split; assumption. }
  assert (map (logLine players') (g_log game) = map (logLine players) (g_log game))
    as ->; [|done].
  apply map_ext. intros m. unfold logLine.
  assert (nameOf players' (ms_playerId m) = nameOf players (ms_playerId m)) as ->;
    [|done].
  unfold nameOf.
  pose proof (list_find_related (λ p p', p_nickname p' = p_nickname p)
                (ms_playerId m) players players') as Hf.
  destruct (list_find _ players) as [[i p]|] eqn:H1,
           (list_find _ players') as [[j p']|] eqn:H2;
    try (exfalso; apply Hf; eapply Forall2_impl; [exact Hp|]; intros ? ? (? & ? & ? & ?); split; assumption);
    [|done].
  cbn. destruct Hf as [_ ->]; [|done]. eapply Forall2_impl; [exact Hp|]; intros ? ? (? & ? & ? & ?); split; assumption.
Qed.

End ViewFacts.

(** ** The first rounds of a game at a table of two *)

Section FirstRounds.

Import Js Spec Progress Rounds Store Timers.

(** The table of two is dealt seven tiles each out of the 100 of EN. *)
Lemma startNewGame_witness :
  ∃ g',
    r_game started = Some g'
    ∧ r_status started = r_status table
    ∧ Forall2 (λ p p', p_id p' = p_id p ∧ p_nickname p' = p_nickname p
                       ∧ p_connectionId p' = p_connectionId p
                       ∧ p_score p' = 0 ∧ p_ready p' = false
                       ∧ p_stats p' = initialStats
                       ∧ length (p_rack p') = 7%nat)
        (r_players table) (r_players started)
    ∧ length (g_bag g') = (100 - 7 * length (r_players table))%nat
    ∧ flat_map p_rack (r_players started) ++ g_bag g' ≡ₚ fullBag EN tileIds
    ∧ boardTiles (g_board g') = []
    ∧ g_log g' = [] ∧ g_consecutivePasses g' = 0 ∧ g_version g' = 1
    ∧ g_turnIndex g' = 0
    ∧ Some (g_activePlayerId g') = p_id <$> head (r_players table)
    ∧ g_turnEndsAt g' = 0 + 120000.
Proof.
  apply (startNewGame_deals_seven_tiles_each EN tileIds rnd0 0 table started).
  - vm_compute. reflexivity.
  - simpl. lia.
Defined.


(** The first rounds: four of the five submissions are logged, numbered
    2 to 5, by Ann, Bob, Ann, Bob. *)
Lemma seating_order_witness :
  let seats := map p_id (r_players table) in
  let room' := fst (runMoves Dictionary.stubIsWordValid started firstRounds) in
  map p_id (r_players room') = seats
  ∧ ∃ g',
      r_game room' = Some g'
      ∧ length (g_log g')
        = snd (runMoves Dictionary.stubIsWordValid started firstRounds)
      ∧ g_version g' = 1 + Z.of_nat (length (g_log g'))
      ∧ g_lastMove g' = last (g_log g')
      ∧ (∀ k m, g_log g' !! k = Some m →
           ms_turnNumber m = Z.of_nat k + 2
           ∧ Some (ms_playerId m) = seats !! (k mod length seats)%nat)
      ∧ Some (g_activePlayerId g') = seats !! (length (g_log g') mod length seats)%nat.
Proof.
  apply (moves_follow_the_seating_order Dictionary.stubIsWordValid EN tileIds rnd0 0
           table started firstRounds).
  vm_compute. reflexivity.
Defined.

(** The first rounds: Ann's 22 points are those of her ZA, Bob has none. *)
Lemma scores_witness :
  ∃ g', r_game (fst (runMoves Dictionary.stubIsWordValid started firstRounds)) = Some g'
        ∧ Forall (λ p, p_score p = loggedScore (g_log g') (p_id p))
            (r_players (fst (runMoves Dictionary.stubIsWordValid started firstRounds))).
Proof.
  apply (scores_are_the_sums_of_the_log Dictionary.stubIsWordValid EN tileIds rnd0 0
           table started firstRounds).
  - vm_compute. reflexivity.
  - apply (bool_decide_unpack _). vm_compute. exact I.
  - vm_compute. discriminate.
Defined.

(** The first rounds: three passes and exchanges since Ann's play. *)
Lemma pass_counter_witness :
  ∃ g', r_game (fst (runMoves Dictionary.stubIsWordValid started firstRounds)) = Some g'
        ∧ g_consecutivePasses g' = Z.of_nat (trailingPasses (g_log g')).
Proof.
  apply (pass_counter_counts_since_the_last_play Dictionary.stubIsWordValid EN tileIds
           rnd0 0 table started firstRounds).
  vm_compute. reflexivity.
Defined.

(** Ann's Z lies on the centre after her opening and after the rounds
    that follow. *)
Lemma tile_stays_witness :
  ∃ g', r_game (fst (runMoves Dictionary.stubIsWordValid
                       (fst (submit Dictionary.stubIsWordValid started annOpens))
                       (tail firstRounds))) = Some g'
        ∧ tileAt (g_board g') 7 7
          = Some {| tb_tile := tile "t97" "Z" 10; tb_fromPlayerId := "ann";
                    tb_turnPlayed := 2 |}.
Proof.
  apply (tiles_on_the_board_stay Dictionary.stubIsWordValid
           (fst (submit Dictionary.stubIsWordValid started annOpens))
           (tail firstRounds)
           (default openingGame
              (r_game (fst (submit Dictionary.stubIsWordValid started annOpens))))
           7 7).
  - vm_compute. reflexivity.
  - vm_compute. reflexivity.
Defined.

(** The first rounds: the centre square has been used, the others not. *)
Lemma premiums_witness :
  ∃ g', r_game (fst (runMoves Dictionary.stubIsWordValid started firstRounds)) = Some g'
        ∧ sameLayout initialBoard (g_board g')
        ∧ premiumsTrackTiles (g_board g')
        ∧ ∀ x y, hasTile (g_board g') x y = true →
                 multipliersAt (g_board g') x y = (1, 1).
Proof.
  apply (premiums_are_used_exactly_under_tiles Dictionary.stubIsWordValid EN tileIds
           rnd0 0 table started firstRounds).
  vm_compute. reflexivity.
Defined.

(** Ann's opening moves two tiles from her rack to the board and two
    from the bag to her rack. *)
Lemma opening_conserves_witness :
  let room' := fst (submit Dictionary.stubIsWordValid started annOpens) in
  tilesOfRoom room' ⊆+ tilesOfRoom started
  ∧ ((play = play → NoDup (cellsOf (default [] (mr_placements annOpens)))) →
     tilesOfRoom room' ≡ₚ tilesOfRoom started).
Proof.
  apply (accepted_move_conserves_the_tiles Dictionary.stubIsWordValid 1000 1001 rnd0
           started "ann" play (mr_placements annOpens) None
           (fst (submit Dictionary.stubIsWordValid started annOpens))
           (buildMoveSummary 1000 play "ann" [at_ 7 7 "t97"; at_ 8 7 "t0"] 22
              (default openingGame (r_game started)) ["ZA"]) false
           0%nat (default ann (head (r_players started)))).
  - vm_compute. reflexivity.
  - vm_compute. reflexivity.
  - apply (bool_decide_unpack _). vm_compute. exact I.
Defined.

(** The first rounds: the 100 tiles of EN are on the racks, in the bag
    and on the board. *)
Lemma tile_account_witness :
  let room' := fst (runMoves Dictionary.stubIsWordValid started firstRounds) in
  tilesOfRoom room' ⊆+ fullBag EN tileIds
  ∧ (Forall (λ rq, mr_action rq = play
                   → NoDup (cellsOf (default [] (mr_placements rq)))) firstRounds →
     tilesOfRoom room' ≡ₚ fullBag EN tileIds).
Proof.
  apply (no_tile_is_made_up_or_lost Dictionary.stubIsWordValid EN tileIds rnd0 0
           table started firstRounds).
  - vm_compute. reflexivity.
  - apply (bool_decide_unpack _). vm_compute. exact I.
Defined.

(** The first rounds: both racks hold seven tiles. *)
Lemma full_racks_witness :
  let room' := fst (runMoves Dictionary.stubIsWordValid started firstRounds) in
  ∃ g', r_game room' = Some g'
        ∧ Forall (λ p, (length (p_rack p) ≤ 7)%nat
                       ∧ (g_bag g' ≠ [] → length (p_rack p) = 7%nat))
            (r_players room').
Proof.
  apply (racks_are_full_while_the_bag_lasts Dictionary.stubIsWordValid EN tileIds rnd0
           0 table started firstRounds).
  - vm_compute. reflexivity.
  - simpl. lia.
  - apply (bool_decide_unpack _). vm_compute. exact I.
  - apply (bool_decide_unpack _). vm_compute. exact I.
Defined.

(** The first rounds: Ann has one play of 22 points and one pass, Bob two
    passes. *)
Lemma stats_witness :
  let room' := fst (runMoves Dictionary.stubIsWordValid started firstRounds) in
  ∃ g', r_game room' = Some g'
        ∧ Forall (statsMatchLog (g_log g')) (r_players room').
Proof.
  apply (stats_count_the_moves_of_the_log Dictionary.stubIsWordValid EN tileIds rnd0 0
           table started firstRounds).
  - vm_compute. reflexivity.
  - apply (bool_decide_unpack _). vm_compute. exact I.
Defined.

(** The first rounds: the one word of the log is ZA. *)
Lemma logged_words_witness :
  ∃ g', r_game (fst (runMoves Dictionary.stubIsWordValid started firstRounds)) = Some g'
        ∧ Forall (entryOk Dictionary.stubIsWordValid) (g_log g').
Proof.
  apply (logged_words_were_accepted Dictionary.stubIsWordValid EN tileIds rnd0 0
           table started firstRounds).
  vm_compute. reflexivity.
Defined.


(** Nobody moves after the deal: the first tick after the deadline passes
    for Ann. *)
Lemma timer_witness :
  ∃ room2 g2 move,
    enforceTurn Dictionary.stubIsWordValid 200000 200001 200002
      (fst (runMoves Dictionary.stubIsWordValid started []))
    = (room2,
       (ToRoom (r_id (fst (runMoves Dictionary.stubIsWordValid started []))),
        turnUpdate (r_id (fst (runMoves Dictionary.stubIsWordValid started [])))
          (g_activePlayerId g2) (200002 + 120000)
          (g_version (default openingGame (r_game started)) + 1))
       :: broadcastGameState room2)
    ∧ r_game room2 = Some g2
    ∧ g_log g2 = g_log (default openingGame (r_game started)) ++ [move]
    ∧ ms_action move = pass
    ∧ ms_playerId move = g_activePlayerId (default openingGame (r_game started))
    ∧ ms_turnNumber move = g_version (default openingGame (r_game started)) + 1
    ∧ ms_createdAt move = 200001
    ∧ g_consecutivePasses g2
      = g_consecutivePasses (default openingGame (r_game started)) + 1
    ∧ g_turnEndsAt g2 = 200002 + 120000
    ∧ g_version g2 = g_version (default openingGame (r_game started)) + 1.
Proof.
  apply (timer_forces_the_pass_of_the_player_to_move Dictionary.stubIsWordValid EN
           tileIds rnd0 0 table started [] 200000 200001 200002
           (default openingGame (r_game started))).
  - vm_compute. reflexivity.
  - vm_compute. reflexivity.
  - vm_compute. reflexivity.
  - vm_compute. reflexivity.
Defined.

(** Nobody moves after the deal: six ticks finish the game. *)
Lemma abandoned_game_witness :
  r_status (enforceTurns Dictionary.stubIsWordValid sixTicks
              (fst (runMoves Dictionary.stubIsWordValid started [])))
  = finished.
Proof.
  apply (abandoned_game_is_finished_by_the_timer Dictionary.stubIsWordValid EN tileIds
           rnd0 0 table started [] sixTicks (default openingGame (r_game started))).
  - vm_compute. reflexivity.
  - vm_compute. reflexivity.
  - vm_compute. reflexivity.
  - vm_compute. repeat split.
  - vm_compute. discriminate.
Defined.

(** A long time after Ann left, Bob still connected: the room stays. *)
Lemma sweep_witness :
  sweepRooms 5000000 [default table (calls lobbyCalls !! "AAAA")] (calls lobbyCalls)
    !! "AAAA"
  = Some (default table (calls lobbyCalls !! "AAAA"))
  ↔ calls lobbyCalls !! "AAAA" = Some (default table (calls lobbyCalls !! "AAAA"))
    ∧ (Exists (λ p, p_connected p = true)
         (r_players (default table (calls lobbyCalls !! "AAAA")))
       ∨ 5000000 - r_lastActivityAt (default table (calls lobbyCalls !! "AAAA"))
         ≤ 1800000).
Proof.
  apply (sweep_deletes_exactly_the_idle_rooms 5000000
           [default table (calls lobbyCalls !! "AAAA")] (calls lobbyCalls) "AAAA").
  - vm_compute. reflexivity.
  - apply (bool_decide_unpack _). vm_compute. exact I.
Defined.

(** CAT is refused by the service, then asked for again in lower case. *)
Lemma http_witness :
  let o := Http.isWordValid (Http.responded false) ∅ "CAT" in
  Http.isWordValid (Http.responded true) (fst o) "cat" = o
  ∧ (∀ k v, (∅ : gmap string bool) !! k = Some v → fst o !! k = Some v)
  ∧ ((∅ : gmap string bool) !! toLowerCase "CAT" = None → snd o = false).
Proof.
  apply (http_validator_keeps_its_first_answer (Http.responded false)
           (Http.responded true) ∅ "CAT" "cat").
  reflexivity.
Defined.

(** What Ann is shown after the deal is the same without Bob's rack. *)
Lemma view_witness :
  toGameStateSummaryForPlayer (default openingGame (r_game started)) withoutBobsRack
    "ann"
  = toGameStateSummaryForPlayer (default openingGame (r_game started))
      (r_players started) "ann".
Proof.
  apply (game_state_shows_no_other_rack (default openingGame (r_game started))
           (default openingGame (r_game started)) (r_players started) withoutBobsRack
           "ann").
  - apply (bool_decide_unpack _). vm_compute. exact I.
  - reflexivity.
  - reflexivity.
  - reflexivity.
  - reflexivity.
  - reflexivity.
  - reflexivity.
  - reflexivity.
Defined.

End FirstRounds.
